(** * Audio preprocessing pipeline of BienBanHop (services/audioProcessor)

    A shallow embedding of [audioBufferToWav] and [processAudio]: the
    decoded audio is an [AudioBuffer] of rational samples, JavaScript
    numbers are rationals rounded to binary64 after every arithmetic
    operation, stores into a [Float32Array] round to binary32, and the
    browser (decoder and offline renderer) is a [Platform] record.  The
    part of [handleProcessFile] (App.tsx) that calls [processAudio] is
    embedded as well. *)

From Stdlib Require Import ZArith QArith Qround Qabs Qpower Qreduction Qminmax.
From Stdlib Require Import Lia Lqa List Bool String Ascii.
From Stdlib.Strings Require Import Byte.
Import ListNotations.

Open Scope Q_scope.

(** ** IEEE 754 numbers as rationals

    Every finite binary32 or binary64 number is a rational.  NaN and the
    infinities are left out: decoded PCM is finite, and no operation of the
    pipeline overflows on finite input (the gate shrinks samples, the gain is
    below 950, the quantizer multiplies a clamped sample by at most 32768). *)

(** [Qlog2 q] is the exponent [e] with [2^e <= |q| < 2^(e+1)], for [q <> 0]. *)
Definition Qlog2 (q : Q) : Z :=
  let e0 := (Z.log2 (Z.abs (Qnum q)) - Z.log2 (Zpos (Qden q)))%Z in
  if Qle_bool (2 ^ e0) (Qabs q) then e0 else (e0 - 1)%Z.

(** Nearest integer, ties to even. *)
Definition rne (t : Q) : Z :=
  let f := Qfloor t in
  match Qcompare (t - inject_Z f) (1 # 2) with
  | Lt => f
  | Gt => (f + 1)%Z
  | Eq => if Z.even f then f else (f + 1)%Z
  end.

(** Exponent of the unit in the last place of [q] in a format with [prec]
    significant bits whose smallest subnormal is [2^emin]. *)
Definition ulp_exp (prec emin : Z) (q : Q) : Z :=
  Z.max (Qlog2 q - (prec - 1)) emin.

(** Round to nearest, ties to even. *)
Definition round_ne (prec emin : Z) (q : Q) : Q :=
  let ex := ulp_exp prec emin q in
  Qred (inject_Z (rne (q * 2 ^ (- ex))) * 2 ^ ex).

(** A JavaScript Number (binary64). *)
Definition dround : Q -> Q := round_ne 53 (-1074).

(** [Math.fround], the rounding of a store into a [Float32Array] and of a
    WebIDL [float] argument. *)
Definition fround : Q -> Q := round_ne 24 (-149).

(** The values a [Float32Array] element can hold. *)
Definition is_float32 (x : Q) : Prop := fround x == x /\ Qabs x < 2 ^ 128.

Definition float32_array (data : list Q) : Prop := Forall is_float32 data.

Definition Qltb (x y : Q) : bool := negb (Qle_bool y x).

(** Truncation toward zero, then wrap-around to a signed 32-bit integer:
    the [| 0] of the source. *)
Definition Qtrunc (q : Q) : Z := Z.quot (Qnum q) (Zpos (Qden q)).

Definition ToInt32 (q : Q) : Z :=
  let n := (Qtrunc q mod 2 ^ 32)%Z in
  if (2 ^ 31 <=? n)%Z then (n - 2 ^ 32)%Z else n.

(** WebIDL [unsigned long]: truncation, then wrap-around modulo [2^32]. *)
Definition ToUint32 (q : Q) : Z := (Qtrunc q mod 2 ^ 32)%Z.

(** ** Data model *)

Record AudioBuffer := {
  sampleRate : Z;
  channels : list (list Q)
}.

Definition numberOfChannels (buffer : AudioBuffer) : nat :=
  List.length (channels buffer).

Definition getChannelData (buffer : AudioBuffer) (i : nat) : list Q :=
  nth i (channels buffer) [].

(** [buffer.length]: the number of sample frames, the same for every
    channel of a Web Audio buffer. *)
Definition buffer_length (buffer : AudioBuffer) : nat :=
  List.length (getChannelData buffer 0).

(** [buffer.duration], in seconds. *)
Definition duration (buffer : AudioBuffer) : Q :=
  dround (inject_Z (Z.of_nat (buffer_length buffer)) / inject_Z (sampleRate buffer)).

(** [createBuffer (1, length, sampleRate)]: a zero-filled mono buffer. *)
Definition createBuffer (length : nat) (rate : Z) : AudioBuffer :=
  {| sampleRate := rate; channels := [repeat 0 length] |}.

(** Writing through the array returned by [getChannelData (0)] changes the
    buffer itself. *)
Definition setChannelData0 (buffer : AudioBuffer) (data : list Q) : AudioBuffer :=
  {| sampleRate := sampleRate buffer; channels := data :: tl (channels buffer) |}.

Record ProcessingOptions := {
  convertToMono16kHz : bool;
  noiseReduction : bool;
  normalizeVolume : bool;
  removeSilence : bool
}.

Definition Object_values (options : ProcessingOptions) : list bool :=
  [convertToMono16kHz options; noiseReduction options;
   normalizeVolume options; removeSilence options].

Record File := {
  name : string;
  type : string;
  contents : list byte
}.

(** ** Exceptions and the trace of stages *)

(** What the browser throws or rejects with. *)
Inductive failure :=
| PlatformError (errorName : string)   (* a DOMException, RangeError, ...: instanceof Error *)
| NonError.                            (* any other thrown value *)

Inductive exn :=
| Error (message : string)             (* [new Error (message)] of this module *)
| Thrown (f : failure).

Definition instanceofError (e : exn) : bool :=
  match e with
  | Error _ => true
  | Thrown (PlatformError _) => true
  | Thrown NonError => false
  end.

Inductive event :=
| DecodeAudio
| ResampleRender
| SilenceRemoval
| NoiseGate
| Normalize
| EncodeWav.

Definition Result (A : Type) : Type := (exn + A)%type.

(** A computation yields the stages it went through and a value or an
    exception. *)
Definition M (A : Type) : Type := (list event * Result A)%type.

Definition ret {A} (a : A) : M A := ([], inr a).

Definition throw {A} (e : exn) : M A := ([], inl e).

Definition bind {A B} (m : M A) (k : A -> M B) : M B :=
  match m with
  | (tr, inl e) => (tr, inl e)
  | (tr, inr a) => let (tr', r) := k a in (tr ++ tr', r)
  end.

Definition tell (ev : event) : M unit := ([ev], inr tt).

Definition try_catch {A} (m : M A) (handler : exn -> M A) : M A :=
  match m with
  | (tr, inl e) => let (tr', r) := handler e in (tr ++ tr', r)
  | (tr, inr a) => (tr, inr a)
  end.

Definition await {A} (r : failure + A) : M A :=
  match r with
  | inl f => throw (Thrown f)
  | inr a => ret a
  end.

Definition lift {A} (r : Result A) : M A := ([], r).

Declare Scope audio_scope.
Notation "x <- m ;; k" := (bind m (fun x => k))
  (at level 61, m at next level, right associativity) : audio_scope.
Notation "m ;; k" := (bind m (fun _ => k))
  (at level 61, right associativity) : audio_scope.
Open Scope audio_scope.

(** The browser: [decodeAudioData], the rendering of an
    [OfflineAudioContext (1, length, sampleRate)] whose only node plays
    the given buffer, and the rendering of such a context in which the
    buffer plays through a [GainNode] of the given gain.  The samples of
    the latter are fixed by the Web Audio API (see [renderGain] below), so
    the platform only says whether it is rejected. *)
Record Platform := {
  decodeAudioData : list byte -> failure + AudioBuffer;
  startRendering : Z -> Z -> AudioBuffer -> failure + list Q;
  startGainRendering : Z -> Z -> AudioBuffer -> Q -> option failure
}.

(** ** audioBufferToWav *)

Definition byte_of_Z (z : Z) : byte :=
  match Byte.of_N (Z.to_N (z mod 256)) with
  | Some b => b
  | None => x00
  end.

(** The [n] low bytes of [v], least significant first. *)
Fixpoint le_bytes (n : nat) (v : Z) : list byte :=
  match n with
  | O => []
  | S n' => byte_of_Z v :: le_bytes n' (v / 256)
  end.

(** The [DataView] is written front to back, so the view is the bytes
    written so far and [pos] is their number. *)
Definition setUint16 (view : list byte) (data : Z) : list byte :=
  view ++ le_bytes 2 data.

Definition setUint32 (view : list byte) (data : Z) : list byte :=
  view ++ le_bytes 4 data.

Definition setInt16 (view : list byte) (data : Z) : list byte :=
  view ++ le_bytes 2 data.

Definition pos (view : list byte) : Z := Z.of_nat (List.length view).

Definition clamp (x : Q) : Q := Qmax (-1) (Qmin 1 x).

Definition quantize (x : Q) : Z :=
  let sample := clamp x in
  ToInt32 (if Qltb (dround (0.5 + sample)) 0
           then dround (sample * 32768)
           else dround (sample * 32767)).

Definition wavHeader (numOfChan : Z) (rate : Z) (length : Z) : list byte :=
  let view := [] in
  let view := setUint32 view 0x46464952 in
  let view := setUint32 view (length - 8) in
  let view := setUint32 view 0x45564157 in
  let view := setUint32 view 0x20746d66 in
  let view := setUint32 view 16 in
  let view := setUint16 view 1 in
  let view := setUint16 view numOfChan in
  let view := setUint32 view rate in
  let view := setUint32 view (rate * 2 * numOfChan) in
  let view := setUint16 view (numOfChan * 2) in
  let view := setUint16 view 16 in
  let view := setUint32 view 0x61746164 in
  setUint32 view (length - pos view - 4).

Definition audioBufferToWav (buffer : AudioBuffer) : list byte :=
  let numOfChan := numberOfChannels buffer in
  let length := (Z.of_nat (buffer_length buffer) * Z.of_nat numOfChan * 2 + 44)%Z in
  let view := wavHeader (Z.of_nat numOfChan) (sampleRate buffer) length in
  fold_left
    (fun view offset =>
       fold_left
         (fun view i =>
            setInt16 view (quantize (nth offset (getChannelData buffer i) 0)))
         (seq 0 numOfChan) view)
    (seq 0 (buffer_length buffer)) view.

(** ** Step 1: resample to 16 kHz mono *)

Definition targetSampleRate : Z := 16000.

Definition isStandardFormat (buffer : AudioBuffer) : bool :=
  (sampleRate buffer =? targetSampleRate)%Z && (numberOfChannels buffer =? 1)%nat.

Definition step1_resample (pf : Platform) (originalBuffer : AudioBuffer) : M AudioBuffer :=
  tell ResampleRender ;;
  let length := ToUint32 (dround (duration originalBuffer * inject_Z targetSampleRate)) in
  rendered <- await (startRendering pf length targetSampleRate originalBuffer) ;;
  ret {| sampleRate := targetSampleRate; channels := [rendered] |}.

(** ** Step 2: remove silence *)

Definition silenceThreshold : Q := dround 0.01.
Definition minSilenceDuration : Q := dround 0.3.
Definition paddingDuration : Q := dround 0.1.

Definition minSilenceSamples (rate : Z) : Z :=
  Qfloor (dround (minSilenceDuration * inject_Z rate)).

Definition paddingSamples (rate : Z) : Z :=
  Qfloor (dround (paddingDuration * inject_Z rate)).

Record Interval := { start : nat; end_ : nat }.

Record ScanState := {
  index : nat;
  inSound : bool;
  soundStart : nat;
  soundIntervals : list Interval
}.

Definition isSilent (x : Q) : bool := Qltb (Qabs x) silenceThreshold.
Definition isSound (x : Q) : bool := Qltb silenceThreshold (Qabs x).

(** The inner [while]: the number of contiguous silent samples at the head
    of the rest of the channel. *)
Fixpoint silentRun (rest : list Q) : nat :=
  match rest with
  | [] => O
  | x :: rest' => if isSilent x then S (silentRun rest') else O
  end.

(** One turn of the [for] loop, its [i++] included. *)
Definition scanStep (channelData : list Q) (minSamples : Z) (st : ScanState) : ScanState :=
  let i := index st in
  let x := nth i channelData 0 in
  if negb (inSound st) && isSound x then
    {| index := S i; inSound := true; soundStart := i;
       soundIntervals := soundIntervals st |}
  else if inSound st && isSilent x then
    let silenceEnd := (i + silentRun (skipn i channelData))%nat in
    if (minSamples <=? Z.of_nat (silenceEnd - i))%Z then
      {| index := S (silenceEnd - 1); inSound := false; soundStart := soundStart st;
         soundIntervals := soundIntervals st ++ [{| start := soundStart st; end_ := i |}] |}
    else
      {| index := S (silenceEnd - 1); inSound := inSound st; soundStart := soundStart st;
         soundIntervals := soundIntervals st |}
  else
    {| index := S i; inSound := inSound st; soundStart := soundStart st;
       soundIntervals := soundIntervals st |}.

(** The [for] loop, run for at most [fuel] turns. *)
Fixpoint scanLoop (fuel : nat) (channelData : list Q) (minSamples : Z) (st : ScanState) : ScanState :=
  match fuel with
  | O => st
  | S fuel' =>
      if (index st <? List.length channelData)%nat
      then scanLoop fuel' channelData minSamples (scanStep channelData minSamples st)
      else st
  end.

Definition initialState : ScanState :=
  {| index := 0; inSound := false; soundStart := 0; soundIntervals := [] |}.

Definition detectSound (channelData : list Q) (minSamples : Z) : list Interval :=
  let st := scanLoop (List.length channelData) channelData minSamples initialState in
  if inSound st
  then soundIntervals st ++ [{| start := soundStart st; end_ := List.length channelData |}]
  else soundIntervals st.

Definition slice (data : list Q) (from to : nat) : list Q :=
  firstn (to - from) (skipn from data).

(** [target.set (source, offset)]: a RangeError when the source does not
    fit. *)
Definition typedArraySet (target source : list Q) (offset : nat) : Result (list Q) :=
  if (offset + List.length source <=? List.length target)%nat
  then inr (firstn offset target ++ source ++ skipn (offset + List.length source) target)
  else inl (Thrown (PlatformError "RangeError")).

(** The body of the [forEach]: the state is the new channel and [offset]. *)
Definition copyInterval (channelData : list Q) (padding : nat)
    (acc : Result (list Q * nat)) (interval : Interval) : Result (list Q * nat) :=
  match acc with
  | inl e => inl e
  | inr (newChannelData, offset) =>
      let segment := slice channelData (start interval) (end_ interval) in
      match typedArraySet newChannelData (repeat 0 padding) offset with
      | inl e => inl e
      | inr newChannelData =>
          let offset := (offset + padding)%nat in
          match typedArraySet newChannelData segment offset with
          | inl e => inl e
          | inr newChannelData =>
              let offset := (offset + List.length segment)%nat in
              match typedArraySet newChannelData (repeat 0 padding) offset with
              | inl e => inl e
              | inr newChannelData => inr (newChannelData, (offset + padding)%nat)
              end
          end
      end
  end.

Definition totalLength (intervals : list Interval) (padding : nat) : nat :=
  fold_left (fun sum interval => (sum + (end_ interval - start interval) + padding * 2)%nat)
            intervals O.

Definition step2_removeSilence (processedBuffer : AudioBuffer) : Result AudioBuffer :=
  let channelData := getChannelData processedBuffer 0 in
  let rate := sampleRate processedBuffer in
  let padding := Z.to_nat (paddingSamples rate) in
  let intervals := detectSound channelData (minSilenceSamples rate) in
  if (0 <? List.length intervals)%nat then
    let newBuffer := createBuffer (totalLength intervals padding) rate in
    match fold_left (copyInterval channelData padding) intervals
                    (inr (getChannelData newBuffer 0, O)) with
    | inl e => inl e
    | inr (newChannelData, _) => inr (setChannelData0 newBuffer newChannelData)
    end
  else inr (createBuffer 1 rate).

(** ** Step 3: noise reduction (simple gate) *)

Definition noiseThreshold : Q := dround 0.02.
Definition reductionAmount : Q := dround 0.2.

Definition gateSample (x : Q) : Q :=
  if Qltb (Qabs x) noiseThreshold then fround (dround (x * reductionAmount)) else x.

Definition step3_noiseReduction (processedBuffer : AudioBuffer) : AudioBuffer :=
  setChannelData0 processedBuffer (map gateSample (getChannelData processedBuffer 0)).

(** ** Step 4: normalize volume *)

Definition negligibleFloor : Q := dround 0.001.
Definition targetPeak : Q := dround 0.95.

(** [channelData.reduce ((max, val) => Math.max (max, Math.abs (val)), 0)] *)
Definition peak (channelData : list Q) : Q :=
  fold_left (fun max val => Qmax max (Qabs val)) channelData 0.

(** The rendering of a buffer source through a [GainNode]: the gain is a
    WebIDL [float], and every frame is the binary32 product of the sample
    and the gain. *)
Definition renderGain (gainValue : Q) (source : AudioBuffer) : AudioBuffer :=
  let gain := fround gainValue in
  {| sampleRate := sampleRate source;
     channels := [map (fun x => fround (x * gain)) (getChannelData source 0)] |}.

(** What step 4 leaves in [processedBuffer] when its rendering is not
    rejected. *)
Definition step4_normalizeVolume (processedBuffer : AudioBuffer) : AudioBuffer :=
  let channelData := getChannelData processedBuffer 0 in
  let max := peak channelData in
  if Qltb negligibleFloor max then
    let gainValue := dround (targetPeak / max) in
    renderGain gainValue processedBuffer
  else processedBuffer.

(** The [await] of step 4: the rendering of the normalizing context,
    started only when the peak is above the floor, can be rejected. *)
Definition normalizeRendering (pf : Platform) (processedBuffer : AudioBuffer) : option failure :=
  let channelData := getChannelData processedBuffer 0 in
  let max := peak channelData in
  if Qltb negligibleFloor max then
    let gainValue := dround (targetPeak / max) in
    startGainRendering pf (Z.of_nat (buffer_length processedBuffer))
                       (sampleRate processedBuffer) processedBuffer gainValue
  else None.

(** Step 4 as processAudio runs it: a rejected rendering is thrown, and
    otherwise the buffer is the one [step4_normalizeVolume] describes. *)
Definition step4_await (pf : Platform) (processedBuffer : AudioBuffer) : M AudioBuffer :=
  match normalizeRendering pf processedBuffer with
  | Some f => throw (Thrown f)
  | None => ret (step4_normalizeVolume processedBuffer)
  end.

(** ** processAudio *)

Definition decodeFailedMessage : string :=
  "Audio decoding failed. The file may be corrupt or in a format not supported by your browser.".

Definition unexpectedMessage : string :=
  "An unexpected error occurred during audio pre-processing.".

Fixpoint lastIndexOfFrom (c : ascii) (s : string) (i : Z) (found : Z) : Z :=
  match s with
  | EmptyString => found
  | String a rest => lastIndexOfFrom c rest (i + 1) (if Ascii.eqb a c then i else found)
  end.

(** [s.lastIndexOf (c)], [-1] when [c] does not occur. *)
Definition lastIndexOf (c : ascii) (s : string) : Z := lastIndexOfFrom c s 0 (-1).

Definition processedFileName (fileName : string) : string :=
  let stem := substring 0 (Z.to_nat (lastIndexOf "." fileName)) fileName in
  let originalFileName := if String.eqb stem "" then fileName else stem in
  (originalFileName ++ "_processed.wav")%string.

Definition needsProcessing (options : ProcessingOptions) : bool :=
  existsb (fun v => v) (Object_values options).

(** Steps 1 to 4 on the decoded buffer. *)
Definition runStages (pf : Platform) (options : ProcessingOptions)
    (originalBuffer : AudioBuffer) : M AudioBuffer :=
  let processedBuffer := originalBuffer in
  processedBuffer <-
    (if negb (isStandardFormat processedBuffer)
     then step1_resample pf originalBuffer
     else ret processedBuffer) ;;
  processedBuffer <-
    (if removeSilence options
     then tell SilenceRemoval ;; lift (step2_removeSilence processedBuffer)
     else ret processedBuffer) ;;
  processedBuffer <-
    (if noiseReduction options
     then tell NoiseGate ;; ret (step3_noiseReduction processedBuffer)
     else ret processedBuffer) ;;
  (if normalizeVolume options
   then tell Normalize ;; step4_await pf processedBuffer
   else ret processedBuffer).

Definition processAudio (pf : Platform) (file : File) (options : ProcessingOptions) : M File :=
  try_catch
    (let arrayBuffer := contents file in
     originalBuffer <-
       try_catch (tell DecodeAudio ;; await (decodeAudioData pf arrayBuffer))
                 (fun decodeError => throw (Error decodeFailedMessage)) ;;
     if negb (needsProcessing options) then ret file else
     processedBuffer <- runStages pf options originalBuffer ;;
     tell EncodeWav ;;
     let wavBlob := audioBufferToWav processedBuffer in
     ret {| name := processedFileName (name file);
            type := "audio/wav";
            contents := wavBlob |})
    (fun error =>
       if instanceofError error then throw error
       else throw (Error unexpectedMessage)).

(** ** Vocabulary of the statements *)

(** Consecutive, non-empty intervals between [lo] and [hi]. *)
Fixpoint chain (lo : nat) (intervals : list Interval) (hi : nat) : Prop :=
  match intervals with
  | [] => (lo <= hi)%nat
  | iv :: rest => (lo <= start iv)%nat /\ (start iv < end_ iv)%nat /\ chain (end_ iv) rest hi
  end.

Definition sumLengths (intervals : list Interval) : nat :=
  list_sum (map (fun iv => (end_ iv - start iv)%nat) intervals).

(** The intervals found so far are consecutive and end before the sound
    that is open, or before [i] when none is. *)
Definition scanInv (channelData : list Q) (st : ScanState) : Prop :=
  (index st <= List.length channelData)%nat /\
  if inSound st
  then chain 0 (soundIntervals st) (soundStart st) /\ (soundStart st < index st)%nat
  else chain 0 (soundIntervals st) (index st).

(** What one retained interval contributes to the new channel. *)
Definition piece (channelData : list Q) (padding : nat) (iv : Interval) : list Q :=
  repeat 0 padding ++ slice channelData (start iv) (end_ iv) ++ repeat 0 padding.

(** The number of samples before the first one above the threshold. *)
Fixpoint leadingQuiet (data : list Q) : nat :=
  match data with
  | [] => O
  | x :: rest => if isSound x then O else S (leadingQuiet rest)
  end.

(** No run of samples below the threshold reaches [minSamples]. *)
Definition noQualifyingRun (data : list Q) (minSamples : Z) : Prop :=
  forall i k, (1 <= k)%nat -> (i + k <= List.length data)%nat ->
    (forall j, (i <= j < i + k)%nat -> Qabs (nth j data 0) < silenceThreshold) ->
    (Z.of_nat k < minSamples)%Z.

Definition hasSound (data : list Q) : Prop :=
  exists i, (i < List.length data)%nat /\ silenceThreshold < Qabs (nth i data 0).

Definition hasSilence (data : list Q) : Prop :=
  exists i, (i < List.length data)%nat /\ Qabs (nth i data 0) < silenceThreshold.

(** The stages a run goes through between decoding and encoding when no
    rendering fails. *)
Definition stageTrace (options : ProcessingOptions) (buffer : AudioBuffer) : list event :=
  (if isStandardFormat buffer then [] else [ResampleRender]) ++
  (if removeSilence options then [SilenceRemoval] else []) ++
  (if noiseReduction options then [NoiseGate] else []) ++
  (if normalizeVolume options then [Normalize] else []).

Definition mono16k (buffer : AudioBuffer) : Prop :=
  sampleRate buffer = 16000%Z /\ exists data, channels buffer = [data].

(** ** A small platform for running the pipeline

    A stand-in for the browser: the decoder reads a two-byte header (channel
    count, then [x00] for 16 kHz and anything else for 44.1 kHz) followed by
    unsigned 8-bit PCM frames and rejects everything else; the renderer
    refuses a context of zero frames, as the Web Audio API does, and
    otherwise picks the nearest earlier source frame and averages the
    channels; the rendering through a gain is refused for a context of
    zero frames only. *)

Definition pcm8 (b : byte) : Q := Qred (inject_Z (Z.of_N (Byte.to_N b) - 128) / 128).

Fixpoint deinterleave (pcm : list Q) : list Q * list Q :=
  match pcm with
  | l :: r :: rest => let (ls, rs) := deinterleave rest in (l :: ls, r :: rs)
  | _ => ([], [])
  end.

Definition testDecode (bytes : list byte) : failure + AudioBuffer :=
  match bytes with
  | chans :: rate :: frame :: pcm =>
      let rate := if Byte.eqb rate x00 then 16000%Z else 44100%Z in
      let samples := map pcm8 (frame :: pcm) in
      if Byte.eqb chans x01 then
        inr {| sampleRate := rate; channels := [samples] |}
      else if Byte.eqb chans x02 then
        let (ls, rs) := deinterleave samples in
        inr {| sampleRate := rate; channels := [ls; rs] |}
      else inl (PlatformError "EncodingError")
  | _ => inl (PlatformError "EncodingError")
  end.

Definition mixFrame (source : AudioBuffer) (i : nat) : Q :=
  fround (fold_right Qplus 0 (map (fun channel => nth i channel 0) (channels source))
          / inject_Z (Z.of_nat (numberOfChannels source))).

Definition testRender (length rate : Z) (source : AudioBuffer) : failure + list Q :=
  if (length <=? 0)%Z then inl (PlatformError "NotSupportedError")
  else inr (map (fun k => mixFrame source (Z.to_nat (Z.of_nat k * sampleRate source / rate)))
                (seq 0 (Z.to_nat length))).

Definition testGainRender (length rate : Z) (source : AudioBuffer) (gain : Q) : option failure :=
  if (length <=? 0)%Z then Some (PlatformError "NotSupportedError") else None.

Definition testPlatform : Platform :=
  {| decodeAudioData := testDecode; startRendering := testRender;
     startGainRendering := testGainRender |}.

Definition allOff : ProcessingOptions :=
  {| convertToMono16kHz := false; noiseReduction := false;
     normalizeVolume := false; removeSilence := false |}.

Definition onlyNoiseReduction : ProcessingOptions :=
  {| convertToMono16kHz := false; noiseReduction := true;
     normalizeVolume := false; removeSilence := false |}.

(** Three stereo frames at 44.1 kHz. *)
Definition stereoFile : File :=
  {| name := "meeting.mp3"; type := "audio/mpeg";
     contents := [x02; x01; xc0; xc0; x80; x80; x40; x40] |}.

(** No header at all: the decoder rejects it. *)
Definition corruptFile : File :=
  {| name := "broken.mp3"; type := "audio/mpeg"; contents := [xff] |}.

(** What the decoder makes of [stereoFile]. *)
Definition stereoBuffer : AudioBuffer :=
  {| sampleRate := 44100;
     channels := [[1 # 2; 0; - (1 # 2)]; [1 # 2; 0; - (1 # 2)]] |}.

(** ** Reading a WAV file back *)

(** The unsigned value of bytes stored least significant first. *)
Fixpoint le_value (bytes : list byte) : Z :=
  match bytes with
  | [] => 0%Z
  | b :: rest => (Z.of_N (Byte.to_N b) + 256 * le_value rest)%Z
  end.

(** [view.getUint16 (pos, true)] and [view.getUint32 (pos, true)], by
    their width in bytes. *)
Definition getUint (width : nat) (view : list byte) (pos : nat) : Z :=
  le_value (firstn width (skipn pos view)).

(** [view.getInt16 (pos, true)] *)
Definition getInt16 (view : list byte) (pos : nat) : Z :=
  let v := getUint 2 view pos in
  if (2 ^ 15 <=? v)%Z then (v - 2 ^ 16)%Z else v.

(** The four-character tags of the header. *)
Definition tagBytes (tag : string) : list byte := list_byte_of_string tag.

(** The two bytes of channel [i] at frame [offset]. *)
Definition sampleBytes (buffer : AudioBuffer) (offset i : nat) : list byte :=
  le_bytes 2 (quantize (nth offset (getChannelData buffer i) 0)).

(** ** More vocabulary: what the scan finds *)

(** Index [j] lies in one of the intervals. *)
Definition covered (intervals : list Interval) (j : nat) : Prop :=
  exists iv, In iv intervals /\ (start iv <= j < end_ iv)%nat.

(** Each interval starts at least [gap] samples after the end of the one
    before ([lo] for the first), and the last one ends [gap] before [hi]. *)
Fixpoint spaced (gap : Z) (lo : Z) (intervals : list Interval) (hi : Z) : Prop :=
  match intervals with
  | [] => (lo + gap <= hi)%Z
  | iv :: rest =>
      (lo + gap <= Z.of_nat (start iv))%Z /\ spaced gap (Z.of_nat (end_ iv)) rest hi
  end.

(** What the scan knows of the samples it has passed: every closed
    interval starts at a sound sample and ends at a silent one, the open
    sound started at a sound sample, and every sound sample passed lies in
    an interval or in the open sound. *)
Definition scanFound (channelData : list Q) (st : ScanState) : Prop :=
  (forall iv, In iv (soundIntervals st) ->
     isSound (nth (start iv) channelData 0) = true /\
     (end_ iv < List.length channelData)%nat /\
     isSilent (nth (end_ iv) channelData 0) = true) /\
  (inSound st = true -> isSound (nth (soundStart st) channelData 0) = true) /\
  (forall j, (j < index st)%nat -> isSound (nth j channelData 0) = true ->
     covered (soundIntervals st) j \/ (inSound st = true /\ (soundStart st <= j)%nat)).

Definition scanSpaced (minSamples : Z) (st : ScanState) : Prop :=
  spaced minSamples (- minSamples) (soundIntervals st)
         (Z.of_nat (if inSound st then soundStart st else index st)).

(** ** The caller: handleProcessFile of App.tsx *)

(** [Object.values (processingOptions).some (option => option === true)] *)
Definition isAnyOptionEnabled (processingOptions : ProcessingOptions) : bool :=
  existsb (fun option => Bool.eqb option true) (Object_values processingOptions).

(** What [cancelRequestRef.current] holds when the handler reads it: before
    it calls processAudio, and when the call has settled (in the [try]
    block after a result, in the [catch] block after a rejection). *)
Record CancelRequest := {
  beforeProcessing : bool;
  afterProcessing : bool
}.

(** The file the handler sends to the transcription for an audio file:
    [None] when the handler returns because the user has cancelled. The
    status messages, the progress bar and the pauses are left out. *)
Definition fileToProcess (pf : Platform) (cancelRequest : CancelRequest)
    (file : File) (processingOptions : ProcessingOptions) : list event * option File :=
  let fileToProcess := file in
  if isAnyOptionEnabled processingOptions then
    if beforeProcessing cancelRequest then ([], None)
    else
      match processAudio pf file processingOptions with
      | (tr, inr processed) =>
          if afterProcessing cancelRequest then (tr, None)
          else (tr, Some processed)
      | (tr, inl conversionError) =>
          if afterProcessing cancelRequest then (tr, None)
          else (tr, Some file)
      end
  else ([], Some fileToProcess).

(** A browser that rejects every rendering through a gain, with a value
    that is no Error. *)
Definition gainlessPlatform : Platform :=
  {| decodeAudioData := testDecode; startRendering := testRender;
     startGainRendering := fun _ _ _ _ => Some NonError |}.

Definition onlyNormalizeVolume : ProcessingOptions :=
  {| convertToMono16kHz := false; noiseReduction := false;
     normalizeVolume := true; removeSilence := false |}.

(** One mono frame at 16 kHz, the sample 0.5. *)
Definition monoFile : File :=
  {| name := "note.wav"; type := "audio/wav"; contents := [x01; x00; xc0] |}.

(** One stereo frame at 44.1 kHz: too short for a single frame at 16 kHz. *)
Definition shortFile : File :=
  {| name := "click.mp3"; type := "audio/mpeg"; contents := [x02; x01; xc0; xc0] |}.

(** * Facts about the rounding *)

Lemma pow2_pos k : 0 < 2 ^ k.
Proof. apply Qpower_0_lt. reflexivity. Qed.

Lemma pow2_add a b : 2 ^ (a + b) == 2 ^ a * 2 ^ b.
Proof. apply Qpower_plus. discriminate. Qed.

Lemma pow2_succ a : 2 ^ (a + 1) == 2 * 2 ^ a.
Proof. rewrite pow2_add. change (2 ^ 1) with 2. ring. Qed.

Lemma pow2_cancel a : 2 ^ a * 2 ^ (- a) == 1.
Proof. rewrite <- pow2_add. replace (a + - a)%Z with 0%Z by lia. reflexivity. Qed.

Lemma pow2_le a b : (a <= b)%Z -> 2 ^ a <= 2 ^ b.
Proof. intros H. apply Qpower_le_compat_l; [exact H | discriminate]. Qed.

Lemma pow2_lt_inv a b : 2 ^ a < 2 ^ b -> (a < b)%Z.
Proof. intros H. apply (Qpower_lt_compat_l_inv 2); [exact H | reflexivity]. Qed.

Lemma pow2_Z k : (0 <= k)%Z -> 2 ^ k == inject_Z (2 ^ k).
Proof. intros H. symmetry. apply (Zpower_Qpower 2 k H). Qed.

Lemma Qabs_frac q : Qabs q * inject_Z (Zpos (Qden q)) == inject_Z (Z.abs (Qnum q)).
Proof.
  destruct q as [n d]. unfold Qabs, Qeq, Qmult, inject_Z. simpl. lia.
Qed.

Lemma Qlog2_spec q : ~ q == 0 -> 2 ^ Qlog2 q <= Qabs q < 2 ^ (Qlog2 q + 1).
Proof.
  intros Hq.
  assert (Hn : (0 < Z.abs (Qnum q))%Z).
  { destruct q as [n d]. unfold Qeq in Hq. simpl in *. lia. }
  pose proof (Z.log2_spec _ Hn) as [Ha1 Ha2].
  pose proof (Z.log2_spec (Zpos (Qden q)) (Pos2Z.is_pos _)) as [Hb1 Hb2].
  pose proof (Z.log2_nonneg (Z.abs (Qnum q))) as Ha0.
  pose proof (Z.log2_nonneg (Zpos (Qden q))) as Hb0.
  pose proof (Qabs_frac q) as Hf.
  unfold Qlog2.
  set (a := Z.log2 (Z.abs (Qnum q))) in *.
  set (b := Z.log2 (Zpos (Qden q))) in *.
  set (N := Z.abs (Qnum q)) in *. set (D := Zpos (Qden q)) in *.
  rewrite <- Z.add_1_r in Ha2, Hb2. unfold Z.succ in *.
  assert (HA1 : 2 ^ a <= inject_Z N) by (rewrite pow2_Z by lia; rewrite <- Zle_Qle; exact Ha1).
  assert (HA2 : inject_Z N < 2 * 2 ^ a).
  { rewrite <- pow2_succ, pow2_Z by lia. rewrite <- Zlt_Qlt. replace (a+1)%Z with (Z.succ a) by lia. exact Ha2. }
  assert (HB1 : 2 ^ b <= inject_Z D) by (rewrite pow2_Z by lia; rewrite <- Zle_Qle; exact Hb1).
  assert (HB2 : inject_Z D < 2 * 2 ^ b).
  { rewrite <- pow2_succ, pow2_Z by lia. rewrite <- Zlt_Qlt. replace (b+1)%Z with (Z.succ b) by lia. exact Hb2. }
  pose proof (pow2_pos a) as Hpa. pose proof (pow2_pos b) as Hpb.
  pose proof (Qabs_nonneg q) as Hq0.
  assert (He : 2 ^ (a - b) * 2 ^ b == 2 ^ a).
  { rewrite <- pow2_add. replace (a - b + b)%Z with a by lia. reflexivity. }
  pose proof (pow2_pos (a - b)) as Hpe.
  destruct (Qle_bool (2 ^ (a - b)) (Qabs q)) eqn:E.
  - apply Qle_bool_iff in E. split; [exact E|].
    rewrite pow2_succ. nra.
  - assert (E' : Qabs q < 2 ^ (a - b)).
    { apply Qnot_le_lt. intro H. apply Qle_bool_iff in H. congruence. }
    replace (a - b - 1 + 1)%Z with (a - b)%Z by lia. split; [|exact E'].
    assert (He2 : 2 * 2 ^ (a - b - 1) == 2 ^ (a - b)).
    { rewrite <- pow2_succ. replace (a - b - 1 + 1)%Z with (a - b)%Z by lia. reflexivity. }
    pose proof (pow2_pos (a - b - 1)). nra.
Qed.

Lemma Qlog2_le x y : ~ x == 0 -> Qabs x <= Qabs y -> (Qlog2 x <= Qlog2 y)%Z.
Proof.
  intros Hx Hxy.
  assert (Hy : ~ y == 0).
  { intro H. rewrite H in Hxy. change (Qabs 0) with 0 in Hxy.
    apply Hx. pose proof (Qabs_nonneg x).
    destruct (Qabs_Qle_condition x 0) as [Hc _]. destruct (Hc Hxy). lra. }
  destruct (Qlog2_spec x Hx) as [H1 _]. destruct (Qlog2_spec y Hy) as [_ H2].
  assert (H : 2 ^ Qlog2 x < 2 ^ (Qlog2 y + 1)) by lra.
  apply pow2_lt_inv in H. lia.
Qed.

Lemma Qlog2_unique x e : 2 ^ e <= Qabs x < 2 ^ (e + 1) -> Qlog2 x = e.
Proof.
  intros [H1 H2].
  assert (Hx : ~ x == 0).
  { intro H. rewrite H in H1. change (Qabs 0) with 0 in H1. pose proof (pow2_pos e). lra. }
  destruct (Qlog2_spec x Hx) as [H3 H4].
  assert (Ha : 2 ^ e < 2 ^ (Qlog2 x + 1)) by lra.
  assert (Hb : 2 ^ Qlog2 x < 2 ^ (e + 1)) by lra.
  apply pow2_lt_inv in Ha, Hb. lia.
Qed.

Lemma Qlog2_comp x y : ~ x == 0 -> x == y -> Qlog2 x = Qlog2 y.
Proof.
  intros Hx Hxy. symmetry. apply Qlog2_unique. rewrite <- Hxy. apply Qlog2_spec, Hx.
Qed.

Lemma Qfloor_bounds t : inject_Z (Qfloor t) <= t < inject_Z (Qfloor t) + 1.
Proof.
  split; [apply Qfloor_le|].
  pose proof (Qlt_floor t) as H. rewrite inject_Z_plus in H. exact H.
Qed.

Lemma Qfloor_unique t n : inject_Z n <= t < inject_Z n + 1 -> Qfloor t = n.
Proof.
  intros [H1 H2]. destruct (Qfloor_bounds t) as [H3 H4].
  assert (Ha : inject_Z n < inject_Z (Qfloor t + 1)) by (rewrite inject_Z_plus; change (inject_Z 1) with 1; lra).
  assert (Hb : inject_Z (Qfloor t) < inject_Z (n + 1)) by (rewrite inject_Z_plus; change (inject_Z 1) with 1; lra).
  rewrite <- Zlt_Qlt in Ha, Hb. lia.
Qed.

#[global] Instance rne_comp : Proper (Qeq ==> eq) rne.
Proof.
  intros t u H. unfold rne. rewrite (Qfloor_comp _ _ H).
  rewrite (Qcompare_comp (t - inject_Z (Qfloor u)) (u - inject_Z (Qfloor u))
             ltac:(rewrite H; reflexivity) (1#2) (1#2) ltac:(reflexivity)).
  reflexivity.
Qed.

Lemma rne_Z n : rne (inject_Z n) = n.
Proof.
  unfold rne. rewrite Qfloor_Z.
  destruct (Qcompare_spec (inject_Z n - inject_Z n) (1 # 2)) as [H|H|H]; try lra; reflexivity.
Qed.

Lemma rne_cases t :
  let f := Qfloor t in
  (rne t = f /\ t - inject_Z f <= 1 # 2) \/ (rne t = (f + 1)%Z /\ 1 # 2 <= t - inject_Z f).
Proof.
  unfold rne. cbv zeta.
  destruct (Qcompare_spec (t - inject_Z (Qfloor t)) (1 # 2)) as [H|H|H].
  - destruct (Z.even (Qfloor t)); [left | right]; split; try reflexivity; lra.
  - left. split; [reflexivity | lra].
  - right. split; [reflexivity | lra].
Qed.

Lemma rne_err t : Qabs (inject_Z (rne t) - t) <= 1 # 2.
Proof.
  destruct (Qfloor_bounds t) as [H1 H2].
  apply Qabs_Qle_condition.
  destruct (rne_cases t) as [[-> H]|[-> H]]; rewrite ?inject_Z_plus; change (inject_Z 1) with 1; split; lra.
Qed.

Lemma rne_mono t u : t <= u -> (rne t <= rne u)%Z.
Proof.
  intros Htu. pose proof (Qfloor_resp_le _ _ Htu) as Hf.
  destruct (Z.eq_dec (Qfloor t) (Qfloor u)) as [E|E].
  - unfold rne. rewrite E.
    destruct (Qcompare_spec (t - inject_Z (Qfloor u)) (1 # 2)) as [H|H|H];
    destruct (Qcompare_spec (u - inject_Z (Qfloor u)) (1 # 2)) as [H'|H'|H'];
    try destruct (Z.even (Qfloor u)); try lia; lra.
  - destruct (rne_cases t) as [[-> _]|[-> _]]; destruct (rne_cases u) as [[-> _]|[-> _]]; lia.
Qed.

Lemma rne_lt t : t - inject_Z (Qfloor t) < 1 # 2 -> rne t = Qfloor t.
Proof. intros H. unfold rne. rewrite (proj1 (Qlt_alt _ _) H). reflexivity. Qed.

Lemma rne_gt t : 1 # 2 < t - inject_Z (Qfloor t) -> rne t = (Qfloor t + 1)%Z.
Proof. intros H. unfold rne. rewrite (proj1 (Qgt_alt _ _) H). reflexivity. Qed.

Lemma rne_eq t :
  t - inject_Z (Qfloor t) == 1 # 2 ->
  rne t = if Z.even (Qfloor t) then Qfloor t else (Qfloor t + 1)%Z.
Proof. intros H. unfold rne. rewrite (proj1 (Qeq_alt _ _) H). reflexivity. Qed.

Lemma rne_opp t : rne (- t) = (- rne t)%Z.
Proof.
  destruct (Qfloor_bounds t) as [H1 H2].
  destruct (Qeq_dec t (inject_Z (Qfloor t))) as [E|E].
  - clear H1 H2. remember (Qfloor t) as n eqn:Hn. clear Hn.
    rewrite E, <- inject_Z_opp, !rne_Z. reflexivity.
  - assert (Hf : Qfloor (- t) = (- Qfloor t - 1)%Z).
    { apply Qfloor_unique. unfold Zminus. rewrite !inject_Z_plus, !inject_Z_opp.
      change (inject_Z 1) with 1. split; lra. }
    assert (Hr : - t - inject_Z (Qfloor (- t)) == 1 - (t - inject_Z (Qfloor t))).
    { rewrite Hf. unfold Zminus. rewrite !inject_Z_plus, !inject_Z_opp.
      change (inject_Z 1) with 1. ring. }
    destruct (Qcompare_spec (t - inject_Z (Qfloor t)) (1 # 2)) as [H|H|H].
    + rewrite (rne_eq t H), (rne_eq (- t)) by lra. rewrite Hf.
      replace (- Qfloor t - 1)%Z with (- Z.succ (Qfloor t))%Z by lia.
      rewrite Z.even_opp, Z.even_succ, <- Z.negb_even.
      destruct (Z.even (Qfloor t)); simpl; lia.
    + rewrite (rne_lt t H), (rne_gt (- t)) by lra. lia.
    + rewrite (rne_gt t H), (rne_lt (- t)) by lra. lia.
Qed.

Lemma Qlog2_opp q : Qlog2 (- q) = Qlog2 q.
Proof.
  destruct q as [n d]. unfold Qlog2, Qopp, Qabs. simpl. rewrite Z.abs_opp. reflexivity.
Qed.

Section RoundingFacts.

Variables prec emin : Z.
Hypothesis prec_pos : (1 <= prec)%Z.

Local Notation "'uexp'" := (ulp_exp prec emin).
Local Notation "'rnd'" := (round_ne prec emin).

Lemma round_val q :
  rnd q == inject_Z (rne (q * 2 ^ (- uexp q))) * 2 ^ uexp q.
Proof. unfold round_ne. apply Qred_correct. Qed.

Lemma scaled_back q k : q * 2 ^ (- k) * 2 ^ k == q.
Proof.
  transitivity (q * (2 ^ k * 2 ^ (- k))).
  - rewrite <- Qmult_assoc. apply Qmult_comp; [reflexivity | apply Qmult_comm].
  - rewrite pow2_cancel. apply Qmult_1_r.
Qed.

Lemma scaled_forth q k : q * 2 ^ k * 2 ^ (- k) == q.
Proof.
  pose proof (scaled_back q (- k)) as H. rewrite Z.opp_involutive in H. exact H.
Qed.

Lemma scale_le x y k : x <= y -> x * 2 ^ k <= y * 2 ^ k.
Proof. intros H. apply Qmult_le_compat_r; [exact H | apply Qlt_le_weak, pow2_pos]. Qed.

Lemma round_err q : Qabs (rnd q - q) <= (1 # 2) * 2 ^ uexp q.
Proof.
  rewrite round_val. set (k := uexp q). set (t := q * 2 ^ (- k)).
  assert (E : inject_Z (rne t) * 2 ^ k - q == (inject_Z (rne t) - t) * 2 ^ k).
  { pose proof (scaled_back q k) as S. fold t in S. clearbody t.
    generalize dependent (2 ^ k). intros P S. rewrite <- S. ring. }
  rewrite E, Qabs_Qmult. pose proof (pow2_pos k) as Hk.
  rewrite (Qabs_pos (2 ^ k)) by lra.
  pose proof (rne_err t). nra.
Qed.

Lemma round_grid_le q m :
  q <= inject_Z m * 2 ^ uexp q -> rnd q <= inject_Z m * 2 ^ uexp q.
Proof.
  intros H. rewrite round_val. set (k := uexp q) in *.
  assert (Ht : q * 2 ^ (- k) <= inject_Z m).
  { rewrite <- (scaled_forth (inject_Z m) k). apply scale_le, H. }
  apply rne_mono in Ht. rewrite rne_Z in Ht. rewrite Zle_Qle in Ht.
  apply scale_le, Ht.
Qed.

Lemma round_grid_ge q m :
  inject_Z m * 2 ^ uexp q <= q -> inject_Z m * 2 ^ uexp q <= rnd q.
Proof.
  intros H. rewrite round_val. set (k := uexp q) in *.
  assert (Ht : inject_Z m <= q * 2 ^ (- k)).
  { rewrite <- (scaled_forth (inject_Z m) k). apply scale_le, H. }
  apply rne_mono in Ht. rewrite rne_Z in Ht. rewrite Zle_Qle in Ht.
  apply scale_le, Ht.
Qed.

Lemma round_exact q m k :
  (uexp q <= k)%Z -> q == inject_Z m * 2 ^ k -> rnd q == q.
Proof.
  intros Hk Hq. rewrite round_val. set (e := uexp q) in *.
  assert (Ht : q * 2 ^ (- e) == inject_Z (m * 2 ^ (k - e))).
  { rewrite inject_Z_mult, <- pow2_Z by lia. rewrite Hq.
    rewrite <- Qmult_assoc, <- pow2_add. replace (k + - e)%Z with (k - e)%Z by lia. reflexivity. }
  rewrite Ht, rne_Z, <- Ht. apply scaled_back.
Qed.

Lemma ulp_exp_opp q : uexp (- q) = uexp q.
Proof. unfold ulp_exp. rewrite Qlog2_opp. reflexivity. Qed.

Lemma round_opp q : rnd (- q) = - rnd q.
Proof.
  unfold round_ne. rewrite ulp_exp_opp, <- Qred_opp. apply Qred_complete.
  set (k := uexp q).
  assert (E : - q * 2 ^ (- k) == - (q * 2 ^ (- k))) by (generalize (2 ^ (- k)); intros; ring).
  rewrite E, rne_opp, inject_Z_opp. generalize (2 ^ k); intros; ring.
Qed.

Lemma round_zero q : q == 0 -> rnd q = 0.
Proof.
  intros H. unfold round_ne. change 0 with (Qred 0). apply Qred_complete.
  assert (E : q * 2 ^ (- uexp q) == inject_Z 0).
  { transitivity (0 * 2 ^ (- uexp q)); [|apply Qmult_0_l].
    apply Qmult_comp; [exact H | reflexivity]. }
  rewrite E, rne_Z. apply Qmult_0_l.
Qed.

Lemma round_comp x y : x == y -> rnd x = rnd y.
Proof.
  intros H. destruct (Qeq_dec x 0) as [E|E].
  - rewrite (round_zero x E), (round_zero y) by (rewrite <- H; exact E). reflexivity.
  - unfold round_ne, ulp_exp. rewrite (Qlog2_comp x y E H). apply Qred_complete.
    rewrite H. reflexivity.
Qed.

Lemma ulp_exp_le x y : ~ x == 0 -> Qabs x <= Qabs y -> (uexp x <= uexp y)%Z.
Proof. intros Hx H. unfold ulp_exp. pose proof (Qlog2_le x y Hx H). lia. Qed.

Lemma round_mono_pos x y : 0 < x -> x <= y -> rnd x <= rnd y.
Proof.
  intros Hx Hxy.
  assert (Hx0 : ~ x == 0) by (intro E; rewrite E in Hx; discriminate).
  assert (Hy0 : ~ y == 0) by (intro E; rewrite E in Hxy; lra).
  assert (Hax : Qabs x == x) by (apply Qabs_pos; lra).
  assert (Hay : Qabs y == y) by (apply Qabs_pos; lra).
  assert (Hl : (Qlog2 x <= Qlog2 y)%Z) by (apply Qlog2_le; [exact Hx0 | lra]).
  destruct (Z.eq_dec (uexp x) (uexp y)) as [E|E].
  - rewrite !round_val, E. set (k := uexp y).
    assert (Ht : x * 2 ^ (- k) <= y * 2 ^ (- k)) by (apply scale_le, Hxy).
    apply rne_mono in Ht. rewrite Zle_Qle in Ht. apply scale_le, Ht.
  - (* the binade boundary 2 ^ Qlog2 y lies on both grids and between x and y *)
    assert (Hey : uexp y = (Qlog2 y - (prec - 1))%Z) by (unfold ulp_exp in *; lia).
    assert (Hlt : (Qlog2 x < Qlog2 y)%Z) by (unfold ulp_exp in *; lia).
    assert (Hex : (uexp x <= Qlog2 y)%Z) by (unfold ulp_exp in *; lia).
    destruct (Qlog2_spec x Hx0) as [_ Hx2]. destruct (Qlog2_spec y Hy0) as [Hy1 _].
    pose proof (pow2_le (Qlog2 x + 1) (Qlog2 y) ltac:(lia)) as Hp.
    assert (G1 : 2 ^ Qlog2 y == inject_Z (2 ^ (Qlog2 y - uexp x)) * 2 ^ uexp x).
    { rewrite <- pow2_Z, <- pow2_add by lia.
      replace (Qlog2 y - uexp x + uexp x)%Z with (Qlog2 y) by lia. reflexivity. }
    assert (G2 : 2 ^ Qlog2 y == inject_Z (2 ^ (prec - 1)) * 2 ^ uexp y).
    { rewrite <- pow2_Z, <- pow2_add by lia.
      rewrite Hey. replace (prec - 1 + (Qlog2 y - (prec - 1)))%Z with (Qlog2 y) by lia. reflexivity. }
    apply Qle_trans with (2 ^ Qlog2 y).
    + rewrite G1. apply round_grid_le. rewrite <- G1. lra.
    + rewrite G2. apply round_grid_ge. rewrite <- G2. lra.
Qed.

Lemma round_nonneg x : 0 <= x -> 0 <= rnd x.
Proof.
  intros H. pose proof (round_grid_ge x 0) as G.
  change (inject_Z 0) with 0 in G. rewrite Qmult_0_l in G. auto.
Qed.

Lemma round_nonpos x : x <= 0 -> rnd x <= 0.
Proof.
  intros H. pose proof (round_grid_le x 0) as G.
  change (inject_Z 0) with 0 in G. rewrite Qmult_0_l in G. auto.
Qed.

Lemma round_mono x y : x <= y -> rnd x <= rnd y.
Proof.
  intros H. destruct (Qlt_le_dec 0 x) as [Hx|Hx].
  - apply round_mono_pos; assumption.
  - destruct (Qlt_le_dec y 0) as [Hy|Hy].
    + assert (G : rnd (- y) <= rnd (- x)) by (apply round_mono_pos; lra).
      rewrite !round_opp in G. lra.
    + pose proof (round_nonpos x Hx). pose proof (round_nonneg y Hy). lra.
Qed.

Lemma round_abs x : Qabs (rnd x) == rnd (Qabs x).
Proof.
  destruct (Qlt_le_dec x 0) as [H|H].
  - rewrite (Qabs_neg (rnd x)) by (apply round_nonpos; lra).
    rewrite (round_comp (Qabs x) (- x)) by (apply Qabs_neg; lra).
    rewrite round_opp. reflexivity.
  - rewrite (Qabs_pos (rnd x)) by (apply round_nonneg; lra).
    rewrite (round_comp (Qabs x) x) by (apply Qabs_pos; lra). reflexivity.
Qed.

(** The rounding error is at most [2^-prec] of the magnitude, plus half
    the subnormal spacing below the smallest normal number. *)
Lemma round_rel_err q :
  Qabs (rnd q - q) <= Qabs q * 2 ^ (- prec) + 2 ^ (emin - 1).
Proof.
  pose proof (pow2_pos (- prec)) as Hp. pose proof (pow2_pos (emin - 1)) as He.
  pose proof (Qabs_nonneg q) as Hq.
  destruct (Qeq_dec q 0) as [E|E].
  - rewrite (round_zero q E).
    assert (Ha : Qabs (0 - q) == 0) by (rewrite E; reflexivity).
    rewrite Ha. nra.
  - apply Qle_trans with ((1 # 2) * 2 ^ uexp q); [apply round_err|].
    assert (Hh : forall k, (1 # 2) * 2 ^ k == 2 ^ (k - 1)).
    { intros k. replace k with (k - 1 + 1)%Z at 1 by lia. rewrite pow2_succ.
      generalize (2 ^ (k - 1)); intros; ring. }
    rewrite Hh. unfold ulp_exp.
    destruct (Z.max_spec (Qlog2 q - (prec - 1)) emin) as [[_ ->]|[Hm ->]].
    + nra.
    + destruct (Qlog2_spec q E) as [Hl _].
      replace (Qlog2 q - (prec - 1) - 1)%Z with (Qlog2 q + - prec)%Z by lia.
      rewrite pow2_add. nra.
Qed.

End RoundingFacts.

Lemma fround_dround x : fround x == x -> dround x == x.
Proof.
  intros H. unfold fround in H. rewrite round_val in H.
  eapply round_exact with (k := ulp_exp 24 (-149) x).
  - unfold ulp_exp. lia.
  - symmetry. exact H.
Qed.

Lemma Qmult_bound x y X Y : 0 <= x -> x <= X -> 0 <= y -> y <= Y -> x * y <= X * Y.
Proof. intros. nra. Qed.

(** The rounding is evaluated by [vm_compute] only. *)
Opaque round_ne.

(** * Facts about the silence scan *)

Lemma Qltb_lt x y : Qltb x y = true <-> x < y.
Proof.
  unfold Qltb. rewrite negb_true_iff. split.
  - intros H. apply Qnot_le_lt. intro C. apply Qle_bool_iff in C. congruence.
  - intros H. destruct (Qle_bool y x) eqn:E; [|reflexivity].
    apply Qle_bool_iff in E. exfalso. apply (Qlt_not_le _ _ H E).
Qed.

Lemma Qltb_ge x y : Qltb x y = false <-> y <= x.
Proof.
  unfold Qltb. rewrite negb_false_iff. apply Qle_bool_iff.
Qed.

Lemma chain_weaken intervals : forall lo hi hi',
  chain lo intervals hi -> (hi <= hi')%nat -> chain lo intervals hi'.
Proof.
  induction intervals as [|iv rest IH]; simpl; intros lo hi hi' H Hle.
  - lia.
  - destruct H as (H1 & H2 & H3). repeat split; try assumption. eapply IH; eassumption.
Qed.

Lemma chain_snoc intervals : forall lo mid s e hi,
  chain lo intervals mid -> (mid <= s)%nat -> (s < e)%nat -> (e <= hi)%nat ->
  chain lo (intervals ++ [{| start := s; end_ := e |}]) hi.
Proof.
  induction intervals as [|iv rest IH]; simpl; intros lo mid s e hi H Hs He Hhi.
  - repeat split; lia.
  - destruct H as (H1 & H2 & H3). repeat split; try assumption. eapply IH; eassumption.
Qed.

Lemma chain_bounds intervals : forall lo hi,
  chain lo intervals hi -> (lo + sumLengths intervals <= hi)%nat.
Proof.
  unfold sumLengths.
  induction intervals as [|iv rest IH]; simpl; intros lo hi H.
  - lia.
  - destruct H as (H1 & H2 & H3). specialize (IH _ _ H3). lia.
Qed.

Lemma chain_each intervals : forall lo hi,
  chain lo intervals hi ->
  Forall (fun iv => (start iv < end_ iv)%nat /\ (end_ iv <= hi)%nat) intervals.
Proof.
  induction intervals as [|iv rest IH]; simpl; intros lo hi H.
  - constructor.
  - destruct H as (H1 & H2 & H3). constructor.
    + split; [exact H2|]. pose proof (chain_bounds _ _ _ H3). lia.
    + eapply IH; eassumption.
Qed.

Lemma silentRun_le rest : (silentRun rest <= List.length rest)%nat.
Proof.
  induction rest as [|x rest IH]; simpl; [lia|]. destruct (isSilent x); simpl; lia.
Qed.

Lemma silentRun_silent rest : forall j,
  (j < silentRun rest)%nat -> isSilent (nth j rest 0) = true.
Proof.
  induction rest as [|x rest IH]; simpl; intros j Hj; [lia|].
  destruct (isSilent x) eqn:E; [|lia].
  destruct j as [|j]; [exact E|]. apply IH. lia.
Qed.

Lemma nth_skipn (data : list Q) i j : nth j (skipn i data) 0 = nth (i + j) data 0.
Proof.
  revert data. induction i as [|i IH]; intros data; simpl; [reflexivity|].
  destruct data as [|x data]; simpl; [destruct j; reflexivity | apply IH].
Qed.

Lemma silentRun_pos data i :
  (i < List.length data)%nat -> isSilent (nth i data 0) = true ->
  (1 <= silentRun (skipn i data))%nat.
Proof.
  intros Hi Hs. pose proof (nth_skipn data i 0) as Hn. rewrite Nat.add_0_r in Hn.
  destruct (skipn i data) as [|x rest] eqn:E.
  - apply (f_equal (@List.length Q)) in E. rewrite length_skipn in E. simpl in E. lia.
  - simpl in *. rewrite Hn, Hs. lia.
Qed.

Section ScanFacts.

Variable channelData : list Q.
Variable minSamples : Z.

Local Notation "'n'" := (List.length channelData).
Local Notation "'step'" := (scanStep channelData minSamples).
Local Notation "'loop'" := (fun fuel => scanLoop fuel channelData minSamples).

Lemma scanStep_index st :
  (index st < n)%nat -> (index st < index (step st) <= n)%nat.
Proof.
  intros Hi. unfold scanStep.
  destruct (negb (inSound st) && isSound (nth (index st) channelData 0)); simpl; [lia|].
  destruct (inSound st && isSilent (nth (index st) channelData 0)) eqn:E; simpl; [|lia].
  apply andb_true_iff in E. destruct E as [_ E].
  pose proof (silentRun_pos channelData (index st) Hi E) as Hp.
  pose proof (silentRun_le (skipn (index st) channelData)) as Hl.
  rewrite length_skipn in Hl.
  destruct (minSamples <=? _)%Z; simpl; lia.
Qed.

(** The loop leaves only when [i] has reached the end of the channel:
    as many turns as there are samples are enough. *)
Lemma scanLoop_exits fuel : forall st,
  (n - index st <= fuel)%nat -> (index st <= n)%nat ->
  index (loop fuel st) = n.
Proof.
  induction fuel as [|fuel IH]; intros st Hf Hn; simpl.
  - lia.
  - destruct (Nat.ltb_spec (index st) n) as [Hlt|Hge]; [|lia].
    pose proof (scanStep_index st Hlt). apply IH; lia.
Qed.

Lemma scanLoop_more_fuel fuel : forall st extra,
  (n - index st <= fuel)%nat -> (index st <= n)%nat ->
  loop (fuel + extra)%nat st = loop fuel st.
Proof.
  induction fuel as [|fuel IH]; intros st extra Hf Hn.
  - simpl. destruct extra; [reflexivity|]. simpl.
    destruct (Nat.ltb_spec (index st) n); [lia | reflexivity].
  - simpl. destruct (Nat.ltb_spec (index st) n) as [Hlt|Hge]; [|reflexivity].
    pose proof (scanStep_index st Hlt). apply IH; lia.
Qed.

Lemma scanLoop_invariant (P : ScanState -> Prop) :
  (forall st, P st -> (index st < n)%nat -> P (step st)) ->
  forall fuel st, P st -> P (loop fuel st).
Proof.
  intros Hstep. induction fuel as [|fuel IH]; intros st HP; simpl; [exact HP|].
  destruct (Nat.ltb_spec (index st) n) as [Hlt|Hge]; [|exact HP].
  apply IH, Hstep; assumption.
Qed.

Lemma scanStep_inv st :
  scanInv channelData st -> (index st < n)%nat -> scanInv channelData (step st).
Proof.
  intros [Hn Hinv] Hi. pose proof (scanStep_index st Hi) as Hidx.
  split; [lia|]. revert Hidx. unfold scanStep.
  destruct (inSound st) eqn:Es; simpl.
  - destruct (isSilent (nth (index st) channelData 0)) eqn:E; simpl.
    + destruct (minSamples <=? _)%Z; simpl; intros Hidx.
      * destruct Hinv as [Hc Hs]. eapply chain_snoc; [exact Hc| | |]; lia.
      * rewrite ?Es. destruct Hinv. split; [assumption | lia].
    + rewrite ?Es. intros _. destruct Hinv. split; [assumption | lia].
  - destruct (isSound (nth (index st) channelData 0)); simpl; intros Hidx.
    + split; [exact Hinv | lia].
    + rewrite ?Es. eapply chain_weaken; [exact Hinv | lia].
Qed.

Lemma detectSound_chain : chain 0 (detectSound channelData minSamples) n.
Proof.
  unfold detectSound.
  assert (H : scanInv channelData (loop n initialState)).
  { apply scanLoop_invariant; [exact scanStep_inv|]. split; simpl; lia. }
  destruct H as [Hn H].
  destruct (inSound (scanLoop n channelData minSamples initialState)).
  - destruct H as [Hc Hs]. eapply chain_snoc; [exact Hc| | |]; lia.
  - eapply chain_weaken; [exact H | lia].
Qed.

End ScanFacts.

(** * Facts about the reconstruction *)

Lemma totalLength_from intervals padding : forall acc,
  fold_left (fun sum interval => (sum + (end_ interval - start interval) + padding * 2)%nat)
            intervals acc
  = (acc + sumLengths intervals + 2 * padding * List.length intervals)%nat.
Proof.
  unfold sumLengths.
  induction intervals as [|iv rest IH]; intros acc; simpl; [lia|].
  rewrite IH. lia.
Qed.

Lemma totalLength_sum intervals padding :
  totalLength intervals padding
  = (sumLengths intervals + 2 * padding * List.length intervals)%nat.
Proof. unfold totalLength. rewrite totalLength_from. lia. Qed.

Lemma slice_length data s e :
  (e <= List.length data)%nat -> List.length (slice data s e) = (e - s)%nat.
Proof.
  intros H. unfold slice. rewrite length_firstn, length_skipn. lia.
Qed.

Lemma piece_length data padding iv :
  (end_ iv <= List.length data)%nat ->
  List.length (piece data padding iv) = (end_ iv - start iv + padding * 2)%nat.
Proof.
  intros H. unfold piece. rewrite !length_app, !repeat_length, slice_length by exact H. lia.
Qed.

Lemma typedArraySet_fill (built source : list Q) m :
  typedArraySet (built ++ repeat 0 (List.length source + m)) source (List.length built)
  = inr (built ++ source ++ repeat 0 m).
Proof.
  unfold typedArraySet.
  rewrite length_app, repeat_length.
  destruct (Nat.leb_spec (List.length built + List.length source)
                         (List.length built + (List.length source + m))) as [_|H]; [|lia].
  f_equal. rewrite firstn_app, firstn_all, Nat.sub_diag, firstn_O, app_nil_r.
  f_equal. f_equal.
  rewrite skipn_app, skipn_all2 by lia. simpl.
  replace (List.length built + List.length source - List.length built)%nat
    with (List.length source) by lia.
  rewrite repeat_app, skipn_app, repeat_length, Nat.sub_diag, skipn_all2
    by (rewrite repeat_length; lia).
  reflexivity.
Qed.

Lemma copyInterval_fill data padding iv built rest :
  (end_ iv <= List.length data)%nat ->
  copyInterval data padding
    (inr (built ++ repeat 0 ((end_ iv - start iv + padding * 2) + rest), List.length built)) iv
  = inr ((built ++ piece data padding iv) ++ repeat 0 rest,
         List.length (built ++ piece data padding iv)).
Proof.
  intros He. unfold copyInterval, piece.
  set (segment := slice data (start iv) (end_ iv)).
  assert (Hs : List.length segment = (end_ iv - start iv)%nat) by (apply slice_length, He).
  set (zeros := repeat 0 padding).
  assert (Hz : List.length zeros = padding) by apply repeat_length.
  replace (end_ iv - start iv + padding * 2 + rest)%nat
    with (List.length zeros + (List.length segment + (List.length zeros + rest)))%nat by lia.
  rewrite typedArraySet_fill.
  replace (List.length built + padding)%nat with (List.length (built ++ zeros))
    by (rewrite length_app; lia).
  rewrite (app_assoc built zeros), typedArraySet_fill.
  replace (List.length (built ++ zeros) + List.length segment)%nat
    with (List.length ((built ++ zeros) ++ segment)) by (rewrite length_app; lia).
  rewrite (app_assoc (built ++ zeros) segment), typedArraySet_fill.
  f_equal. f_equal.
  - rewrite <- !app_assoc. reflexivity.
  - rewrite !length_app. lia.
Qed.

Lemma copyIntervals_fill data padding intervals : forall built,
  Forall (fun iv => (end_ iv <= List.length data)%nat) intervals ->
  fold_left (copyInterval data padding) intervals
    (inr (built ++ repeat 0 (totalLength intervals padding), List.length built))
  = inr (built ++ List.concat (map (piece data padding) intervals),
         List.length (built ++ List.concat (map (piece data padding) intervals))).
Proof.
  induction intervals as [|iv rest IH]; intros built Hall.
  - simpl. unfold totalLength. simpl. rewrite !app_nil_r. reflexivity.
  - inversion Hall as [|? ? He Hrest]; subst. cbn [fold_left].
    replace (totalLength (iv :: rest) padding)
      with ((end_ iv - start iv + padding * 2) + totalLength rest padding)%nat
      by (rewrite !totalLength_sum; unfold sumLengths; simpl; lia).
    rewrite copyInterval_fill by exact He. rewrite IH by exact Hrest.
    simpl. rewrite <- !app_assoc. reflexivity.
Qed.

(** The stage never throws: every [set] fits the new channel, which is
    exactly the padded intervals one after the other. *)
Lemma step2_removeSilence_eq buffer :
  let channelData := getChannelData buffer 0 in
  let intervals := detectSound channelData (minSilenceSamples (sampleRate buffer)) in
  let padding := Z.to_nat (paddingSamples (sampleRate buffer)) in
  step2_removeSilence buffer
  = inr {| sampleRate := sampleRate buffer;
           channels := [match intervals with
                        | [] => [0]
                        | _ :: _ => List.concat (map (piece channelData padding) intervals)
                        end] |}.
Proof.
  cbv zeta. unfold step2_removeSilence.
  set (channelData := getChannelData buffer 0).
  set (padding := Z.to_nat (paddingSamples (sampleRate buffer))).
  pose proof (detectSound_chain channelData (minSilenceSamples (sampleRate buffer))) as Hc.
  set (intervals := detectSound channelData (minSilenceSamples (sampleRate buffer))) in *.
  destruct intervals as [|iv rest] eqn:E; [reflexivity|]. rewrite <- E in *.
  replace (0 <? List.length intervals)%nat with true by (rewrite E; reflexivity).
  unfold createBuffer, getChannelData. cbn [nth channels].
  pose proof (copyIntervals_fill channelData padding intervals []) as Hf.
  cbn [app List.length] in Hf. rewrite Hf.
  - unfold setChannelData0. simpl. rewrite E. reflexivity.
  - apply chain_each in Hc. eapply Forall_impl; [|exact Hc]. simpl. intros iv' [_ H]. exact H.
Qed.

(** * The remove-silence stage *)

Lemma leadingQuiet_le data : (leadingQuiet data <= List.length data)%nat.
Proof.
  induction data as [|x rest IH]; simpl; [lia|]. destruct (isSound x); simpl; lia.
Qed.

Lemma leadingQuiet_before data : forall j,
  (j < leadingQuiet data)%nat -> isSound (nth j data 0) = false.
Proof.
  induction data as [|x rest IH]; simpl; intros j Hj; [lia|].
  destruct (isSound x) eqn:E; [lia|].
  destruct j as [|j]; [exact E|]. apply IH. lia.
Qed.

Lemma leadingQuiet_at data :
  (leadingQuiet data < List.length data)%nat ->
  isSound (nth (leadingQuiet data) data 0) = true.
Proof.
  induction data as [|x rest IH]; simpl; intros H; [lia|].
  destruct (isSound x) eqn:E; [exact E|]. apply IH. lia.
Qed.

Lemma leadingQuiet_sound data i :
  (i < List.length data)%nat -> isSound (nth i data 0) = true ->
  (leadingQuiet data <= i)%nat.
Proof.
  intros Hi Hs. destruct (Nat.le_gt_cases (leadingQuiet data) i) as [H|H]; [exact H|].
  rewrite (leadingQuiet_before data i H) in Hs. discriminate.
Qed.

Lemma detectSound_no_sound data minSamples :
  (forall i, (i < List.length data)%nat -> isSound (nth i data 0) = false) ->
  detectSound data minSamples = [].
Proof.
  intros Hq. unfold detectSound.
  assert (H : (fun st => inSound st = false /\ soundIntervals st = [])
                (scanLoop (List.length data) data minSamples initialState)).
  { apply scanLoop_invariant; [|split; reflexivity].
    intros st [Hs Hi] Hlt. unfold scanStep. rewrite Hs, (Hq _ Hlt). simpl.
    split; [reflexivity | assumption]. }
  destruct H as [-> ->]. reflexivity.
Qed.

Lemma detectSound_single data minSamples :
  hasSound data -> noQualifyingRun data minSamples ->
  detectSound data minSamples
  = [{| start := leadingQuiet data; end_ := List.length data |}].
Proof.
  intros (i0 & Hi0 & Hs0) Hrun.
  apply Qltb_lt in Hs0. fold (isSound (nth i0 data 0)) in Hs0.
  pose proof (leadingQuiet_sound data i0 Hi0 Hs0) as Hle.
  set (s := leadingQuiet data) in *.
  assert (Hs : (s < List.length data)%nat) by lia.
  unfold detectSound.
  set (P := fun st =>
    (inSound st = false /\ soundIntervals st = [] /\ (index st <= s)%nat) \/
    (inSound st = true /\ soundIntervals st = [] /\ soundStart st = s /\ (s < index st)%nat)).
  assert (HP : P (scanLoop (List.length data) data minSamples initialState)).
  { apply scanLoop_invariant; [|left; simpl; repeat split; lia].
    intros st [(Hin & Hiv & Hidx)|(Hin & Hiv & Hst & Hidx)] Hlt.
    - unfold scanStep. rewrite Hin. simpl.
      destruct (isSound (nth (index st) data 0)) eqn:E; simpl.
      + pose proof (leadingQuiet_sound data (index st) Hlt E) as Hfirst.
        unfold s in *. right. simpl. repeat split; try assumption; lia.
      + left. simpl. rewrite ?Hin. repeat split; try assumption.
        assert (index st <> s) by (intro C; rewrite C in E; unfold s in E;
                                    rewrite leadingQuiet_at in E by exact Hs; discriminate).
        lia.
    - pose proof (scanStep_index data minSamples st Hlt) as Hstep. revert Hstep.
      unfold scanStep. rewrite Hin. simpl.
      destruct (isSilent (nth (index st) data 0)) eqn:E; simpl.
      + pose proof (silentRun_pos data (index st) Hlt E) as Hpos.
        pose proof (silentRun_le (skipn (index st) data)) as Hlen.
        rewrite length_skipn in Hlen.
        assert (Hk : (Z.of_nat (silentRun (skipn (index st) data)) < minSamples)%Z).
        { apply (Hrun (index st)); [exact Hpos | lia |].
          intros j Hj. apply Qltb_lt. fold (isSilent (nth j data 0)).
          replace j with (index st + (j - index st))%nat by lia.
          rewrite <- nth_skipn. apply silentRun_silent. lia. }
        replace (index st + silentRun (skipn (index st) data) - index st)%nat
          with (silentRun (skipn (index st) data)) by lia.
        destruct (Z.leb_spec minSamples (Z.of_nat (silentRun (skipn (index st) data))));
          [lia|]. simpl. intros Hstep. right. simpl. rewrite ?Hin. repeat split; try assumption; lia.
      + intros Hstep. right. simpl. rewrite ?Hin. repeat split; try assumption; lia. }
  pose proof (scanLoop_exits data minSamples (List.length data) initialState) as Hex.
  simpl in Hex. specialize (Hex ltac:(lia) ltac:(lia)).
  destruct HP as [(Hin & Hiv & Hidx)|(Hin & Hiv & Hst & Hidx)]; [lia|].
  rewrite Hin, Hiv, Hst. reflexivity.
Qed.

Lemma slice_to_end data s : slice data s (List.length data) = skipn s data.
Proof.
  unfold slice. apply firstn_all2. rewrite length_skipn. lia.
Qed.

Lemma pieces_length data padding intervals :
  Forall (fun iv => (end_ iv <= List.length data)%nat) intervals ->
  List.length (List.concat (map (piece data padding) intervals))
  = totalLength intervals padding.
Proof.
  intros H. rewrite totalLength_sum. unfold sumLengths.
  induction H as [|iv rest Hiv Hrest IH]; simpl; [lia|].
  rewrite length_app, IH, piece_length by exact Hiv. lia.
Qed.

(** C4 (as amended): when the channel has a sample above the threshold and
    no run of samples below it reaches the minimum-silence count, the stage
    keeps every sample from the first sound sample on, unchanged and in
    order, between [paddingSamples] zero samples before and after; the whole
    input is kept when it begins with sound. *)
Theorem C4_removeSilence_keeps_sound (buffer : AudioBuffer) :
  hasSound (getChannelData buffer 0) ->
  noQualifyingRun (getChannelData buffer 0) (minSilenceSamples (sampleRate buffer)) ->
  let channelData := getChannelData buffer 0 in
  let padding := Z.to_nat (paddingSamples (sampleRate buffer)) in
  step2_removeSilence buffer
  = inr {| sampleRate := sampleRate buffer;
           channels := [repeat 0 padding
                        ++ skipn (leadingQuiet channelData) channelData
                        ++ repeat 0 padding] |} /\
  (isSound (nth 0 channelData 0) = true -> leadingQuiet channelData = 0%nat).
Proof.
  intros Hsound Hrun channelData padding. split.
  - rewrite step2_removeSilence_eq. fold channelData.
    rewrite (detectSound_single channelData _ Hsound Hrun).
    unfold piece. cbn [map List.concat start end_]. rewrite slice_to_end, app_nil_r. reflexivity.
  - destruct Hsound as (i & Hi & _). destruct channelData as [|x rest]; simpl in *; [lia|].
    intros ->. reflexivity.
Qed.

(** C4, witness: a silent sample, a sound, a silent sample, a sound. *)
Lemma C4_removeSilence_keeps_sound_witness :
  let buffer := {| sampleRate := 16000; channels := [[0; 1 # 2; 0; 1 # 4]] |} in
  let channelData := getChannelData buffer 0 in
  let padding := Z.to_nat (paddingSamples (sampleRate buffer)) in
  step2_removeSilence buffer
  = inr {| sampleRate := sampleRate buffer;
           channels := [repeat 0 padding
                        ++ skipn (leadingQuiet channelData) channelData
                        ++ repeat 0 padding] |} /\
  (isSound (nth 0 channelData 0) = true -> leadingQuiet channelData = 0%nat).
Proof.
  intros buffer.
  assert (Hmin : minSilenceSamples 16000 = 4800%Z) by (vm_compute; reflexivity).
  apply (C4_removeSilence_keeps_sound buffer).
  - exists 1%nat. split; [simpl; lia | vm_compute; reflexivity].
  - intros i k Hk Hik _. simpl in Hik. change (sampleRate buffer) with 16000%Z.
    rewrite Hmin. lia.
Defined.

(** C4, counterexample: a channel with sound and no qualifying silent run
    loses its leading sample below the threshold and comes back with 1600
    zero samples on either side, 3203 samples for 4. *)
Lemma C4_counterexample :
  let buffer := {| sampleRate := 16000; channels := [[1 # 256; 1 # 2; 0; 1 # 2]] |} in
  let out := {| sampleRate := 16000;
                channels := [repeat 0 1600 ++ [1 # 2; 0; 1 # 2] ++ repeat 0 1600] |} in
  hasSound (getChannelData buffer 0) /\
  noQualifyingRun (getChannelData buffer 0) (minSilenceSamples (sampleRate buffer)) /\
  step2_removeSilence buffer = inr out /\
  buffer_length out <> buffer_length buffer /\
  existsb (Qeq_bool (1 # 256)) (getChannelData out 0) = false.
Proof.
  cbv zeta. split; [|split; [|split; [|split]]].
  - exists 1%nat. split; [simpl; lia | vm_compute; reflexivity].
  - assert (Hmin : minSilenceSamples 16000 = 4800%Z) by (vm_compute; reflexivity).
    intros i k Hk Hik _. simpl in Hik. simpl sampleRate. rewrite Hmin. lia.
  - vm_compute. reflexivity.
  - intros C. vm_compute in C. discriminate C.
  - vm_compute. reflexivity.
Qed.

(** C6: the remove-silence stage never throws and never yields an empty
    buffer; when no sound interval is detected, and so whenever no sample
    is above the threshold (an empty or all-silent channel included), the
    output is a single zero sample. *)
Theorem C6_removeSilence_never_empty (buffer : AudioBuffer) :
  exists out,
    step2_removeSilence buffer = inr out /\
    (1 <= buffer_length out)%nat /\
    (detectSound (getChannelData buffer 0) (minSilenceSamples (sampleRate buffer)) = [] ->
     out = createBuffer 1 (sampleRate buffer)) /\
    ((forall x, In x (getChannelData buffer 0) -> Qabs x <= silenceThreshold) ->
     out = createBuffer 1 (sampleRate buffer)).
Proof.
  rewrite step2_removeSilence_eq. eexists. split; [reflexivity|].
  pose proof (detectSound_chain (getChannelData buffer 0)
                (minSilenceSamples (sampleRate buffer))) as Hc.
  set (intervals := detectSound _ _) in *.
  assert (Hempty : intervals = [] ->
    {| sampleRate := sampleRate buffer;
       channels := [match intervals with
                    | [] => [0]
                    | _ :: _ => List.concat (map (piece (getChannelData buffer 0)
                                  (Z.to_nat (paddingSamples (sampleRate buffer)))) intervals)
                    end] |} = createBuffer 1 (sampleRate buffer)).
  { intros ->. reflexivity. }
  split; [|split; [exact Hempty|]].
  - unfold buffer_length, getChannelData. simpl.
    pose proof (chain_each _ _ _ Hc) as He.
    destruct intervals as [|iv rest] eqn:E; [simpl; lia|]. rewrite <- E in *.
    rewrite pieces_length, totalLength_sum.
    + rewrite E. unfold sumLengths. simpl.
      rewrite E in He. inversion He as [|? ? [H1 H2] _]. lia.
    + eapply Forall_impl; [|exact He]. simpl. intros ? [_ H]. exact H.
  - intros Hq. apply Hempty. unfold intervals. apply detectSound_no_sound.
    intros i Hi. apply Qltb_ge. apply Hq. apply nth_In. exact Hi.
Qed.

(** * The noise gate *)

Lemma fround_abs_fixed x : fround x == x -> fround (Qabs x) == Qabs x.
Proof.
  intros H. unfold fround in *. rewrite <- round_abs. rewrite H. reflexivity.
Qed.

Lemma constants_gate : 0 <= reductionAmount /\ reductionAmount <= 1.
Proof. split; vm_compute; discriminate. Qed.

(** Scaling a binary32 number down and rounding the product, first to
    binary64 and then to binary32, never gives a larger magnitude. *)
Lemma attenuate_le x c :
  fround x == x -> 0 <= c -> c <= 1 ->
  Qabs (fround (dround (x * c))) <= Qabs x.
Proof.
  intros Hx Hc0 Hc1.
  pose proof (Qabs_nonneg x) as Ha.
  pose proof (fround_abs_fixed x Hx) as Hfa.
  pose proof (fround_dround _ Hfa) as Hda.
  unfold fround, dround in *.
  rewrite round_abs.
  rewrite (round_comp 24 (-149) (Qabs (round_ne 53 (-1074) (x * c)))
             (round_ne 53 (-1074) (Qabs x * c))).
  2:{ rewrite round_abs.
      rewrite (round_comp 53 (-1074) (Qabs (x * c)) (Qabs x * c)); [reflexivity|].
      rewrite Qabs_Qmult, (Qabs_pos c) by exact Hc0. reflexivity. }
  apply Qle_trans with (round_ne 24 (-149) (Qabs x)); [|rewrite Hfa; apply Qle_refl].
  apply round_mono; [lia|].
  apply Qle_trans with (round_ne 53 (-1074) (Qabs x)); [|rewrite Hda; apply Qle_refl].
  apply round_mono; [lia|]. nra.
Qed.

Lemma gateSample_below x :
  Qabs x < noiseThreshold -> gateSample x = fround (dround (x * reductionAmount)).
Proof. intros H. unfold gateSample. apply Qltb_lt in H. rewrite H. reflexivity. Qed.

Lemma gateSample_above x : noiseThreshold <= Qabs x -> gateSample x = x.
Proof. intros H. unfold gateSample. apply Qltb_ge in H. rewrite H. reflexivity. Qed.

Lemma gateSample_le x : fround x == x -> Qabs (gateSample x) <= Qabs x.
Proof.
  intros Hx. destruct (Qlt_le_dec (Qabs x) noiseThreshold) as [H|H].
  - rewrite (gateSample_below x H).
    destruct constants_gate as [H0 H1]. apply attenuate_le; assumption.
  - rewrite (gateSample_above x H). apply Qle_refl.
Qed.

(** The stored product is a fifth of the sample up to the two roundings. *)
Lemma scaled_accuracy x :
  Qabs (fround (dround (x * reductionAmount)) - 0.2 * x)
  <= Qabs x * 2 ^ (- (24)) + 2 ^ (- (149)).
Proof.
  set (c := reductionAmount).
  assert (Hc : 0 <= c /\ c <= 1 # 4 /\ Qabs (c - 0.2) <= 1 # 10000000000000000)
    by (repeat split; vm_compute; discriminate).
  destruct Hc as (Hc0 & Hc1 & Hc2).
  pose proof (Qabs_nonneg x) as Ha.
  set (y := x * c). set (d := dround y). set (f := fround d).
  pose proof (round_rel_err 53 (-1074) y) as E1. fold dround in E1. fold d in E1.
  pose proof (round_rel_err 24 (-149) d) as E2. fold fround in E2. fold f in E2.
  assert (Hy : Qabs y == Qabs x * c).
  { unfold y. rewrite Qabs_Qmult, (Qabs_pos c) by exact Hc0. reflexivity. }
  assert (Hyx : Qabs (y - 0.2 * x) == Qabs x * Qabs (c - 0.2)).
  { rewrite <- Qabs_Qmult. unfold y.
    assert (E : x * c - 0.2 * x == x * (c - 0.2)) by ring. rewrite E. reflexivity. }
  rewrite Hy in E1.
  assert (P53 : 0 <= 2 ^ (- (53)) /\ 2 ^ (- (53)) <= 1 # 1000000000000)
    by (split; vm_compute; discriminate).
  assert (P24 : 0 <= 2 ^ (- (24)) /\ 2 ^ (- (24)) <= 1 # 10000000 /\
                1 # 20000000 <= 2 ^ (- (24)))
    by (repeat split; vm_compute; discriminate).
  assert (Pe : 0 <= 2 ^ (-1074 - 1) /\ 0 <= 2 ^ (-149 - 1) /\
               2 * 2 ^ (-1074 - 1) + 2 ^ (-149 - 1) <= 2 ^ (- (149)))
    by (repeat split; vm_compute; discriminate).
  pose proof (Qabs_nonneg d) as Hd. pose proof (Qabs_nonneg (c - 0.2)) as Hcc.
  assert (T1 : Qabs d <= Qabs x * c + Qabs (d - y)).
  { rewrite <- Hy. setoid_replace d with (y + (d - y)) at 1 by ring. apply Qabs_triangle. }
  assert (T2 : Qabs (f - 0.2 * x) <= Qabs (f - d) + Qabs (d - y) + Qabs (y - 0.2 * x)).
  { setoid_replace (f - 0.2 * x) with ((f - d) + ((d - y) + (y - 0.2 * x))) by ring.
    eapply Qle_trans; [apply Qabs_triangle|].
    rewrite <- Qplus_assoc. apply Qplus_le_r. apply Qabs_triangle. }
  rewrite Hyx in T2. clear Hy Hyx.
  destruct P53 as [P53 P53']. destruct P24 as (P24 & P24' & P24'').
  destruct Pe as (Q1 & Q2 & Q3).
  set (a53 := 2 ^ (- (53))) in *. set (a24 := 2 ^ (- (24))) in *.
  set (e64 := 2 ^ (-1074 - 1)) in *. set (e32 := 2 ^ (-149 - 1)) in *.
  set (e149 := 2 ^ (- (149))) in *.
  set (goal := Qabs (f - 0.2 * x)) in *. set (fd := Qabs (f - d)) in *.
  set (dy := Qabs (d - y)) in *. set (ad := Qabs d) in *.
  set (cc := Qabs (c - 0.2)) in *. set (a := Qabs x) in *.
  clearbody a53 a24 e64 e32 e149 goal fd dy ad cc a c.
  assert (K1 : a * c <= a * (1 # 4)) by (apply Qmult_bound; lra).
  assert (K2 : a * c * a53 <= a * (1 # 4) * (1 # 1000000000000)).
  { apply Qmult_bound; try lra. apply Qmult_le_0_compat; lra. }
  assert (K3 : a * cc <= a * (1 # 10000000000000000)) by (apply Qmult_bound; lra).
  assert (K4 : 0 <= a * c) by (apply Qmult_le_0_compat; lra).
  assert (K5 : ad <= a * (26 # 100) + e64) by lra.
  assert (K6 : ad * a24 <= (a * (26 # 100) + e64) * a24).
  { apply Qmult_le_compat_r; lra. }
  assert (K7 : e64 * a24 <= e64 * 1) by (apply Qmult_bound; lra).
  assert (K8 : a * (1 # 20000000) <= a * a24) by (apply Qmult_bound; lra).
  assert (K9 : (a * (26 # 100) + e64) * a24 == a * (26 # 100) * a24 + e64 * a24) by ring.
  lra.
Qed.

(** C8: the gate changes no sample count and never raises the magnitude of
    a sample; a sample below the noise threshold is multiplied by the
    reduction factor 0.2, the product rounded as the store into the
    [Float32Array] does and so within half a binary32 unit of a fifth of the
    sample; all other samples are left as they are. *)
Theorem C8_noise_gate_attenuates (buffer : AudioBuffer) (i : nat) :
  float32_array (getChannelData buffer 0) ->
  (i < buffer_length buffer)%nat ->
  let input := nth i (getChannelData buffer 0) 0 in
  let output := nth i (getChannelData (step3_noiseReduction buffer) 0) 0 in
  buffer_length (step3_noiseReduction buffer) = buffer_length buffer /\
  Qabs output <= Qabs input /\
  (Qabs input < noiseThreshold ->
   output = fround (dround (input * reductionAmount)) /\
   Qabs (output - 0.2 * input) <= Qabs input * 2 ^ (- (24)) + 2 ^ (- (149))) /\
  (noiseThreshold <= Qabs input -> output = input).
Proof.
  intros Hf Hi input output.
  assert (Hout : output = gateSample input).
  { assert (H0 : gateSample 0 = 0) by (vm_compute; reflexivity).
    unfold output, input, step3_noiseReduction, setChannelData0, getChannelData at 1.
    simpl. rewrite <- H0 at 1. apply map_nth. }
  assert (Hin : fround input == input).
  { unfold float32_array in Hf. rewrite Forall_forall in Hf.
    apply (Hf input). apply nth_In. exact Hi. }
  split; [|split; [|split]].
  - unfold buffer_length, step3_noiseReduction, setChannelData0, getChannelData at 1.
    simpl. apply length_map.
  - rewrite Hout. apply gateSample_le. exact Hin.
  - intros H. rewrite Hout, (gateSample_below input H).
    split; [reflexivity | apply scaled_accuracy].
  - intros H. rewrite Hout. apply gateSample_above, H.
Qed.


(** * The normalizer *)

Lemma peak_from_proper channelData : forall a b,
  a == b ->
  fold_left (fun max val => Qmax max (Qabs val)) channelData a
  == fold_left (fun max val => Qmax max (Qabs val)) channelData b.
Proof.
  induction channelData as [|x rest IH]; intros a b Hab; simpl; [exact Hab|].
  apply IH. rewrite Hab. reflexivity.
Qed.

Lemma peak_from_ge channelData : forall a,
  a <= fold_left (fun max val => Qmax max (Qabs val)) channelData a.
Proof.
  induction channelData as [|x rest IH]; intros a; simpl; [apply Qle_refl|].
  eapply Qle_trans; [|apply IH]. apply Q.le_max_l.
Qed.

Lemma peak_nonneg channelData : 0 <= peak channelData.
Proof. apply peak_from_ge. Qed.

Lemma peak_from_lt channelData bound : forall a,
  a < bound -> Forall (fun x => Qabs x < bound) channelData ->
  fold_left (fun max val => Qmax max (Qabs val)) channelData a < bound.
Proof.
  induction channelData as [|x rest IH]; intros a Ha Hall; simpl; [exact Ha|].
  inversion Hall; subst. apply IH; [|assumption]. apply Q.max_lub_lt; assumption.
Qed.

Lemma peak_float32 channelData : float32_array channelData -> peak channelData < 2 ^ 128.
Proof.
  intros H. apply peak_from_lt; [reflexivity|].
  eapply Forall_impl; [|exact H]. intros x [_ Hx]. exact Hx.
Qed.

(** Rendering through a non-negative gain maps the peak to the rendered
    peak sample. *)
Lemma peak_rendered gain channelData : 0 <= gain -> forall a,
  fold_left (fun max val => Qmax max (Qabs val))
            (map (fun x => fround (x * gain)) channelData) (fround (a * gain))
  == fround (fold_left (fun max val => Qmax max (Qabs val)) channelData a * gain).
Proof.
  intros Hg. induction channelData as [|x rest IH]; intros a; simpl; [reflexivity|].
  rewrite <- IH. apply peak_from_proper.
  unfold fround. rewrite round_abs.
  rewrite (round_comp 24 (-149) (Qabs (x * gain)) (Qabs x * gain))
    by (rewrite Qabs_Qmult, (Qabs_pos gain) by exact Hg; reflexivity).
  apply (Q.max_mono (fun t => round_ne 24 (-149) (t * gain))).
  - intros u v Huv. rewrite (round_comp 24 (-149) (u * gain) (v * gain)); [reflexivity|].
    rewrite Huv. reflexivity.
  - intros u v Huv. apply round_mono; [lia|]. nra.
Qed.

Lemma peak_renderGain gain channelData :
  0 <= gain ->
  peak (map (fun x => fround (x * gain)) channelData) == fround (peak channelData * gain).
Proof.
  intros Hg. unfold peak.
  rewrite <- (peak_rendered gain channelData Hg 0).
  apply peak_from_proper. unfold fround. rewrite (round_zero 24 (-149) (0 * gain)); [reflexivity|].
  apply Qmult_0_l.
Qed.

Lemma round_bounds prec emin q err :
  Qabs q * 2 ^ (- prec) + 2 ^ (emin - 1) <= err ->
  q - err <= round_ne prec emin q <= q + err.
Proof.
  intros H. pose proof (round_rel_err prec emin q) as E.
  apply Qabs_diff_Qle_condition. rewrite Qabs_Qminus.
  eapply Qle_trans; [exact E | exact H].
Qed.

(** The rendered peak is the target peak up to three roundings. *)
Lemma normalized_peak_close max :
  negligibleFloor < max -> max < 2 ^ 128 ->
  Qabs (fround (max * fround (dround (targetPeak / max))) - 0.95) <= 1 # 10000.
Proof.
  intros Hlo Hhi.
  assert (Hfl : 0 < negligibleFloor) by (vm_compute; reflexivity).
  assert (Hmax : 0 < max) by lra.
  assert (HT : 94999 # 100000 <= targetPeak /\ targetPeak <= 95001 # 100000)
    by (split; vm_compute; discriminate).
  destruct HT as [HT1 HT2].
  set (u := targetPeak / max).
  assert (Hu : max * u == targetPeak) by (unfold u; field; lra).
  assert (Hu0 : 0 < u) by (unfold u; apply Qlt_shift_div_l; lra).
  assert (P53 : 0 <= 2 ^ (- (53)) /\ 2 ^ (- (53)) <= 1 # 1000000000000)
    by (split; vm_compute; discriminate).
  assert (P24 : 0 <= 2 ^ (- (24)) /\ 2 ^ (- (24)) <= 1 # 10000000)
    by (split; vm_compute; discriminate).
  assert (Ptiny : 0 <= 2 ^ (-1074 - 1) /\ 2 ^ 128 * 2 ^ (-1074 - 1) <= 1 # 1000000000000)
    by (split; vm_compute; discriminate).
  assert (Psub : 0 <= 2 ^ (-149 - 1) /\ 2 ^ 128 * 2 ^ (-149 - 1) <= 1 # 1000000 /\
                 2 ^ (-149 - 1) <= 1 # 1000000)
    by (repeat split; vm_compute; discriminate).
  set (d := dround u). set (g := fround d). set (r := fround (max * g)).
  pose proof (round_rel_err 53 (-1074) u) as E1. fold dround in E1. fold d in E1.
  pose proof (round_rel_err 24 (-149) d) as E2. fold fround in E2. fold g in E2.
  pose proof (round_rel_err 24 (-149) (max * g)) as E3. fold fround in E3. fold r in E3.
  assert (Hd0 : 0 <= d) by (apply round_nonneg; lra).
  assert (Hg0 : 0 <= g) by (apply round_nonneg; exact Hd0).
  assert (HB : 0 <= max * g) by (apply Qmult_le_0_compat; lra).
  rewrite (Qabs_pos u) in E1 by lra. rewrite (Qabs_pos d) in E2 by lra.
  rewrite (Qabs_pos (max * g)) in E3 by exact HB.
  apply Qabs_Qle_condition in E1. apply Qabs_Qle_condition in E2.
  apply Qabs_Qle_condition in E3.
  generalize dependent (2 ^ (- (53))). intros a53 [P53 P53'] E1.
  generalize dependent (2 ^ (- (24))). intros a24 [P24 P24'] E2 E3.
  generalize dependent (2 ^ (-1074 - 1)). intros e64 [Q1 Ptiny] E1.
  generalize dependent (2 ^ (-149 - 1)). intros e32 (Q2 & Psub & Psub') E2 E3.
  generalize dependent (2 ^ 128). intros big Hhi Ptiny Psub.
  clearbody d g r u. clear Hlo Hfl.
  assert (B1 : max * e64 <= 1 # 1000000000000).
  { apply Qle_trans with (big * e64); [|exact Ptiny].
    apply Qmult_le_compat_r; lra. }
  assert (B2 : max * e32 <= 1 # 1000000).
  { apply Qle_trans with (big * e32); [|exact Psub].
    apply Qmult_le_compat_r; lra. }
  assert (K1 : targetPeak * a53 <= 1 * (1 # 1000000000000))
    by (apply Qmult_bound; lra).
  (* scale the first two error bounds by [max] *)
  assert (S1 : max * (d - u) <= max * (u * a53 + e64) /\
               max * - (u * a53 + e64) <= max * (d - u)).
  { split; apply Qmult_le_l; lra. }
  assert (S2 : max * (g - d) <= max * (d * a24 + e32) /\
               max * - (d * a24 + e32) <= max * (g - d)).
  { split; apply Qmult_le_l; lra. }
  assert (R1 : max * (d - u) == max * d - targetPeak) by (rewrite <- Hu; ring).
  assert (R2 : max * (u * a53 + e64) == targetPeak * a53 + max * e64)
    by (rewrite <- Hu; ring).
  assert (R3 : max * (g - d) == max * g - max * d) by ring.
  assert (R4 : max * (d * a24 + e32) == max * d * a24 + max * e32) by ring.
  assert (R5 : max * - (u * a53 + e64) == - (targetPeak * a53 + max * e64))
    by (rewrite <- Hu; ring).
  assert (R6 : max * - (d * a24 + e32) == - (max * d * a24 + max * e32)) by ring.
  rewrite R1, R2, R5 in S1. rewrite R3, R4, R6 in S2.
  clear R1 R2 R3 R4 R5 R6 E1 E2 Hu.
  set (A := max * d) in *. set (B := max * g) in *. clearbody A B.
  assert (HA : 0 <= A /\ A <= 1) by (split; lra).
  assert (K2 : A * a24 <= 1 * (1 # 10000000)) by (apply Qmult_bound; lra).
  assert (HB2 : B <= 2) by lra.
  assert (K3 : B * a24 <= 2 * (1 # 10000000)) by (apply Qmult_bound; lra).
  apply Qabs_Qle_condition. split; lra.
Qed.

Lemma Qmax_choice a b : Qmax a b = a \/ Qmax a b = b.
Proof.
  unfold Qmax, GenericMinMax.gmax. destruct (Qcompare a b); auto.
Qed.

Lemma peak_from_choice channelData : forall a,
  fold_left (fun max val => Qmax max (Qabs val)) channelData a = a \/
  exists x, In x channelData /\
    fold_left (fun max val => Qmax max (Qabs val)) channelData a = Qabs x.
Proof.
  induction channelData as [|x rest IH]; intros a; simpl; [left; reflexivity|].
  destruct (IH (Qmax a (Qabs x))) as [H|(y & Hy & H)].
  - rewrite H. destruct (Qmax_choice a (Qabs x)) as [E|E]; rewrite E.
    + left. reflexivity.
    + right. exists x. split; [left; reflexivity | reflexivity].
  - right. exists y. split; [right; exact Hy | exact H].
Qed.

Lemma peak_representable channelData :
  float32_array channelData -> fround (peak channelData) == peak channelData.
Proof.
  intros Hf. destruct (peak_from_choice channelData 0) as [H|(x & Hx & H)];
    unfold peak; rewrite H.
  - vm_compute. reflexivity.
  - apply fround_abs_fixed. unfold float32_array in Hf. rewrite Forall_forall in Hf.
    apply (Hf x Hx).
Qed.

(** No binary32 number lies between the decimal 0.001 and the binary64
    number the literal [0.001] denotes, so the test [max > 0.001] of the
    source decides [0.001 < max] for the peak of a [Float32Array]. *)
Lemma above_floor max :
  fround max == max -> (negligibleFloor < max <-> 0.001 < max).
Proof.
  intros Hm.
  assert (Hup : 0.001 < negligibleFloor) by (vm_compute; reflexivity).
  split; intros H; [lra|].
  assert (Hd : dround max == max) by (apply fround_dround, Hm).
  assert (Hle : negligibleFloor <= max).
  { rewrite <- Hd. unfold negligibleFloor, dround. apply round_mono; [lia | lra]. }
  destruct (Qeq_dec max negligibleFloor) as [E|E].
  - exfalso. unfold fround in Hm. rewrite (round_comp 24 (-149) _ _ E) in Hm.
    rewrite E in Hm. revert Hm. vm_compute. discriminate.
  - apply Qle_lteq in Hle. destruct Hle as [Hlt|Heq]; [exact Hlt|].
    exfalso. apply E. symmetry. exact Heq.
Qed.

(** C7: for a mono buffer, as the stage receives it, when the peak of the
    channel is above the floor 0.001 the rendered buffer has its peak
    within 1e-4 of the target peak 0.95; when the peak is at or below the
    floor the buffer is left as it is. *)
Theorem C7_normalize_peak (buffer : AudioBuffer) :
  numberOfChannels buffer = 1%nat ->
  float32_array (getChannelData buffer 0) ->
  let max := peak (getChannelData buffer 0) in
  let output := step4_normalizeVolume buffer in
  (0.001 < max -> Qabs (peak (getChannelData output 0) - 0.95) <= 1 # 10000) /\
  (max <= 0.001 -> output = buffer).
Proof.
  intros _ Hf max output.
  pose proof (peak_representable _ Hf) as Hrep. fold max in Hrep.
  pose proof (above_floor max Hrep) as Hfloor.
  split; intros H.
  - apply Hfloor in H.
    assert (Hmax : 0 < max).
    { assert (0 < negligibleFloor) by (vm_compute; reflexivity). lra. }
    unfold output, step4_normalizeVolume. fold max.
    rewrite (proj2 (Qltb_lt _ _) H).
    unfold renderGain, getChannelData at 1. cbn [channels nth].
    assert (Hg : 0 <= fround (dround (targetPeak / max))).
    { apply round_nonneg, round_nonneg. apply Qle_shift_div_l; [exact Hmax|].
      rewrite Qmult_0_l. vm_compute. discriminate. }
    rewrite (peak_renderGain _ _ Hg). fold max.
    apply normalized_peak_close; [exact H|]. apply peak_float32, Hf.
  - assert (Hle : max <= negligibleFloor).
    { assert (0.001 < negligibleFloor) by (vm_compute; reflexivity). lra. }
    unfold output, step4_normalizeVolume. fold max.
    rewrite (proj2 (Qltb_ge _ _) Hle). reflexivity.
Qed.

(** C7, witness: a channel whose peak is 0.5. *)
Lemma C7_normalize_peak_witness :
  let buffer := {| sampleRate := 16000; channels := [[0; 1 # 64; 1 # 2; - (1 # 128)]] |} in
  let max := peak (getChannelData buffer 0) in
  let output := step4_normalizeVolume buffer in
  (0.001 < max -> Qabs (peak (getChannelData output 0) - 0.95) <= 1 # 10000) /\
  (max <= 0.001 -> output = buffer).
Proof.
  intros buffer. apply (C7_normalize_peak buffer).
  - reflexivity.
  - repeat constructor; vm_compute; reflexivity.
Defined.

(** C8, witness: the sample 1/64, below the threshold. *)
Lemma C8_noise_gate_attenuates_witness :
  let buffer := {| sampleRate := 16000; channels := [[0; 1 # 64; 1 # 2; - (1 # 128)]] |} in
  let input := nth 1 (getChannelData buffer 0) 0 in
  let output := nth 1 (getChannelData (step3_noiseReduction buffer) 0) 0 in
  buffer_length (step3_noiseReduction buffer) = buffer_length buffer /\
  Qabs output <= Qabs input /\
  (Qabs input < noiseThreshold ->
   output = fround (dround (input * reductionAmount)) /\
   Qabs (output - 0.2 * input) <= Qabs input * 2 ^ (- (24)) + 2 ^ (- (149))) /\
  (noiseThreshold <= Qabs input -> output = input).
Proof.
  intros buffer. apply (C8_noise_gate_attenuates buffer 1).
  - repeat constructor; vm_compute; reflexivity.
  - unfold buffer, buffer_length, getChannelData. simpl. lia.
Defined.

(** * The orchestration *)

Lemma isStandardFormat_mono16k buffer :
  isStandardFormat buffer = true <-> mono16k buffer.
Proof.
  unfold isStandardFormat, mono16k, numberOfChannels, targetSampleRate.
  rewrite andb_true_iff, Z.eqb_eq, Nat.eqb_eq. split; intros [Hr Hc]; split; try exact Hr.
  - destruct (channels buffer) as [|c [|c' rest]]; try discriminate. exists c. reflexivity.
  - destruct Hc as [data ->]. reflexivity.
Qed.

Lemma step2_mono16k buffer :
  mono16k buffer -> exists out, step2_removeSilence buffer = inr out /\ mono16k out.
Proof.
  intros [Hr _]. rewrite step2_removeSilence_eq. eexists. split; [reflexivity|].
  split; [exact Hr | eexists; reflexivity].
Qed.

Lemma step3_mono16k buffer : mono16k buffer -> mono16k (step3_noiseReduction buffer).
Proof.
  intros [Hr [data Hc]]. split; [exact Hr|].
  unfold step3_noiseReduction, setChannelData0. simpl. rewrite Hc. eexists. reflexivity.
Qed.

Lemma step4_mono16k buffer : mono16k buffer -> mono16k (step4_normalizeVolume buffer).
Proof.
  intros H. unfold step4_normalizeVolume.
  destruct (Qltb negligibleFloor (peak (getChannelData buffer 0))); [|exact H].
  destruct H as [Hr _]. split; [exact Hr | eexists; reflexivity].
Qed.

(** What the stages after the resampling do to a mono 16 kHz buffer: the
    removal of silence never throws, and only the rendering of the
    normalizer can be rejected. *)
Lemma laterStages_mono16k pf options (b : AudioBuffer) (tr : list event) :
  mono16k b ->
  exists trimmed,
    (if removeSilence options then step2_removeSilence b = inr trimmed else trimmed = b) /\
    let gated := if noiseReduction options then step3_noiseReduction trimmed else trimmed in
    mono16k gated /\
    bind (tr, inr b)
      (fun processedBuffer =>
       processedBuffer <-
         (if removeSilence options
          then tell SilenceRemoval ;; lift (step2_removeSilence processedBuffer)
          else ret processedBuffer) ;;
       processedBuffer <-
         (if noiseReduction options
          then tell NoiseGate ;; ret (step3_noiseReduction processedBuffer)
          else ret processedBuffer) ;;
       (if normalizeVolume options
        then tell Normalize ;; step4_await pf processedBuffer
        else ret processedBuffer))
    = (tr ++
       (if removeSilence options then [SilenceRemoval] else []) ++
       (if noiseReduction options then [NoiseGate] else []) ++
       (if normalizeVolume options then [Normalize] else []),
       if normalizeVolume options then
         match normalizeRendering pf gated with
         | Some f => inl (Thrown f)
         | None => inr (step4_normalizeVolume gated)
         end
       else inr gated).
Proof.
  intros Hb.
  destruct (step2_mono16k b Hb) as (b2 & E2 & Hb2).
  pose proof (step3_mono16k b Hb) as Hb3. pose proof (step3_mono16k b2 Hb2) as Hb23.
  unfold step4_await.
  destruct (removeSilence options); [exists b2 | exists b];
    (split; [first [exact E2 | reflexivity]|]);
    destruct (noiseReduction options), (normalizeVolume options); cbv zeta;
    (split; [assumption|]);
    unfold bind, tell, lift, throw, ret; rewrite ?E2;
    repeat match goal with
           | |- context [normalizeRendering pf ?x] => destruct (normalizeRendering pf x)
           end;
    cbn [app]; rewrite ?app_nil_r; reflexivity.
Qed.

(** The stages by their values: either the resampling render is rejected,
    and nothing else is attempted, or the decoded buffer, resampled when
    it is not mono at 16 kHz, goes through the stages the options select,
    of which only the rendering of the normalizer can be rejected. *)
Lemma runStages_inv pf options buffer :
  (isStandardFormat buffer = false /\
   exists f,
     startRendering pf (ToUint32 (dround (duration buffer * inject_Z targetSampleRate)))
                    targetSampleRate buffer = inl f /\
     runStages pf options buffer = ([ResampleRender], inl (Thrown f))) \/
  (exists resampled trimmed,
     (if isStandardFormat buffer then resampled = buffer
      else exists rendered,
          startRendering pf (ToUint32 (dround (duration buffer * inject_Z targetSampleRate)))
                         targetSampleRate buffer = inr rendered /\
          resampled = {| sampleRate := targetSampleRate; channels := [rendered] |}) /\
     (if removeSilence options then step2_removeSilence resampled = inr trimmed
      else trimmed = resampled) /\
     let gated := if noiseReduction options then step3_noiseReduction trimmed else trimmed in
     mono16k gated /\
     runStages pf options buffer
     = (stageTrace options buffer,
        if normalizeVolume options then
          match normalizeRendering pf gated with
          | Some f => inl (Thrown f)
          | None => inr (step4_normalizeVolume gated)
          end
        else inr gated)).
Proof.
  unfold runStages, stageTrace, step1_resample. cbv zeta.
  destruct (isStandardFormat buffer) eqn:Es; simpl negb; cbv iota.
  - right. apply isStandardFormat_mono16k in Es.
    destruct (laterStages_mono16k pf options buffer [] Es) as (trimmed & Ht & Hg & E).
    exists buffer, trimmed. split; [reflexivity|]. split; [exact Ht|].
    cbv zeta. split; [exact Hg | exact E].
  - destruct (startRendering pf
                (ToUint32 (dround (duration buffer * inject_Z targetSampleRate)))
                targetSampleRate buffer) as [f|rendered] eqn:Er.
    + left. split; [reflexivity|]. exists f. split; reflexivity.
    + right.
      destruct (laterStages_mono16k pf options
                  {| sampleRate := targetSampleRate; channels := [rendered] |}
                  [ResampleRender]) as (trimmed & Ht & Hg & E).
      { split; [reflexivity | eexists; reflexivity]. }
      exists {| sampleRate := targetSampleRate; channels := [rendered] |}, trimmed.
      split; [exists rendered; split; reflexivity|]. split; [exact Ht|].
      cbv zeta. split; [exact Hg|]. rewrite <- E. reflexivity.
Qed.

(** Either a render is rejected, that of the resampling, after which
    nothing else is attempted, or that of the normalizer, or every
    selected stage runs and the result is mono at 16 kHz. *)
Lemma runStages_cases pf options buffer :
  (exists tr f, runStages pf options buffer = (tr, inl (Thrown f)) /\
     (tr = [ResampleRender] /\ isStandardFormat buffer = false \/
      tr = stageTrace options buffer /\ normalizeVolume options = true)) \/
  (exists final, mono16k final /\
     runStages pf options buffer = (stageTrace options buffer, inr final)).
Proof.
  destruct (runStages_inv pf options buffer)
    as [(Hs & f & _ & E)|(resampled & trimmed & _ & _ & Hg & E)].
  - left. exists [ResampleRender], f. split; [exact E | left; split; [reflexivity | exact Hs]].
  - cbv zeta in Hg, E. destruct (normalizeVolume options) eqn:En.
    + destruct (normalizeRendering pf _) as [f|].
      * left. exists (stageTrace options buffer), f.
        split; [exact E | right; split; reflexivity].
      * right. eexists. split; [|exact E]. apply step4_mono16k, Hg.
    + right. eexists. split; [|exact E]. exact Hg.
Qed.

(** What a run of the stages that returns has computed. *)
Lemma runStages_returned pf options buffer tr final :
  runStages pf options buffer = (tr, inr final) ->
  tr = stageTrace options buffer /\
  exists resampled trimmed,
    (if isStandardFormat buffer then resampled = buffer
     else exists rendered,
         startRendering pf (ToUint32 (dround (duration buffer * inject_Z targetSampleRate)))
                        targetSampleRate buffer = inr rendered /\
         resampled = {| sampleRate := targetSampleRate; channels := [rendered] |}) /\
    (if removeSilence options then step2_removeSilence resampled = inr trimmed
     else trimmed = resampled) /\
    let gated := if noiseReduction options then step3_noiseReduction trimmed else trimmed in
    (normalizeVolume options = true -> normalizeRendering pf gated = None) /\
    mono16k final /\
    final = if normalizeVolume options then step4_normalizeVolume gated else gated.
Proof.
  intros H.
  destruct (runStages_inv pf options buffer)
    as [(_ & f & _ & E)|(resampled & trimmed & Hr & Ht & Hg & E)]; [congruence|].
  cbv zeta in Hg, E. rewrite E in H. injection H as <- H. split; [reflexivity|].
  exists resampled, trimmed. split; [exact Hr|]. split; [exact Ht|]. cbv zeta.
  destruct (normalizeVolume options).
  - destruct (normalizeRendering pf _); [discriminate|]. injection H as <-.
    split; [reflexivity|]. split; [apply step4_mono16k, Hg | reflexivity].
  - injection H as <-. split; [discriminate|]. split; [exact Hg | reflexivity].
Qed.

Lemma processAudio_decode_failed pf file options f :
  decodeAudioData pf (contents file) = inl f ->
  processAudio pf file options = ([DecodeAudio], inl (Error decodeFailedMessage)).
Proof.
  intros H. unfold processAudio, try_catch, bind, tell, await, throw, ret.
  rewrite H. reflexivity.
Qed.

Lemma processAudio_decoded pf file options buffer :
  decodeAudioData pf (contents file) = inr buffer ->
  processAudio pf file options =
  if needsProcessing options then
    match runStages pf options buffer with
    | (tr, inl e) =>
        (DecodeAudio :: tr, inl (if instanceofError e then e else Error unexpectedMessage))
    | (tr, inr final) =>
        (DecodeAudio :: tr ++ [EncodeWav],
         inr {| name := processedFileName (name file);
                type := "audio/wav";
                contents := audioBufferToWav final |})
    end
  else ([DecodeAudio], inr file).
Proof.
  intros H. unfold processAudio, try_catch, bind, tell, await, throw, ret.
  rewrite H. cbn [app negb].
  destruct (needsProcessing options); cbn [negb]; [|reflexivity].
  destruct (runStages pf options buffer) as [tr [e|final]].
  - destruct (instanceofError e); rewrite ?app_nil_r; reflexivity.
  - cbn [app]. rewrite ?app_nil_r. reflexivity.
Qed.

Lemma stageTrace_resample options buffer :
  In ResampleRender (stageTrace options buffer) <-> isStandardFormat buffer = false.
Proof.
  unfold stageTrace.
  destruct (isStandardFormat buffer), (removeSilence options),
    (noiseReduction options), (normalizeVolume options); simpl;
    intuition (discriminate || congruence).
Qed.

Lemma stageTrace_flags options buffer :
  (In SilenceRemoval (stageTrace options buffer) <-> removeSilence options = true) /\
  (In NoiseGate (stageTrace options buffer) <-> noiseReduction options = true) /\
  (In Normalize (stageTrace options buffer) <-> normalizeVolume options = true) /\
  ~ In DecodeAudio (stageTrace options buffer) /\
  ~ In EncodeWav (stageTrace options buffer).
Proof.
  unfold stageTrace.
  destruct (isStandardFormat buffer), (removeSilence options),
    (noiseReduction options), (normalizeVolume options); simpl;
    intuition (discriminate || congruence).
Qed.

Lemma needsProcessing_false options :
  needsProcessing options = false <->
  convertToMono16kHz options = false /\ noiseReduction options = false /\
  normalizeVolume options = false /\ removeSilence options = false.
Proof.
  unfold needsProcessing, Object_values. simpl.
  destruct (convertToMono16kHz options), (noiseReduction options),
    (normalizeVolume options), (removeSilence options); simpl; intuition discriminate.
Qed.

(** ** audioBufferToWav on a mono buffer *)

Lemma fold_samples (g : Q -> list byte) rest : forall done view,
  fold_left (fun view offset => view ++ g (nth offset (done ++ rest) 0))
            (seq (List.length done) (List.length rest)) view
  = view ++ flat_map g rest.
Proof.
  induction rest as [|x rest IH]; intros done view; simpl.
  - rewrite app_nil_r. reflexivity.
  - rewrite app_nth2, Nat.sub_diag by lia. simpl.
    replace (done ++ x :: rest) with ((done ++ [x]) ++ rest) by (rewrite <- app_assoc; reflexivity).
    replace (S (List.length done)) with (List.length (done ++ [x]))
      by (rewrite length_app; simpl; lia).
    rewrite IH, <- app_assoc. reflexivity.
Qed.

Lemma audioBufferToWav_mono rate data :
  audioBufferToWav {| sampleRate := rate; channels := [data] |}
  = wavHeader 1 rate (Z.of_nat (List.length data) * 1 * 2 + 44)
    ++ flat_map (fun x => le_bytes 2 (quantize x)) data.
Proof.
  unfold audioBufferToWav, numberOfChannels, buffer_length, getChannelData.
  cbn [channels List.length nth seq fold_left Z.of_nat Pos.of_succ_nat].
  unfold setInt16.
  apply (fold_samples (fun x => le_bytes 2 (quantize x)) data []).
Qed.

Lemma wavHeader_length numOfChan rate length :
  List.length (wavHeader numOfChan rate length) = 44%nat.
Proof. reflexivity. Qed.

Lemma payload_length data :
  List.length (flat_map (fun x => le_bytes 2 (quantize x)) data) = (2 * List.length data)%nat.
Proof.
  induction data as [|x rest IH]; [reflexivity|].
  cbn [flat_map]. rewrite length_app, IH. cbn [le_bytes List.length]. lia.
Qed.

(** C1 (as amended): when the file decodes and all four flags are false,
    processAudio returns the original file itself, after the decoding and
    without any other stage. *)
Theorem C1_identity_when_decodable pf file options buffer :
  decodeAudioData pf (contents file) = inr buffer ->
  convertToMono16kHz options = false ->
  noiseReduction options = false ->
  normalizeVolume options = false ->
  removeSilence options = false ->
  processAudio pf file options = ([DecodeAudio], inr file).
Proof.
  intros Hd H1 H2 H3 H4. rewrite (processAudio_decoded pf file options buffer Hd).
  rewrite (proj2 (needsProcessing_false options)) by auto. reflexivity.
Qed.

(** C1, witness: a decodable file with all flags false. *)
Lemma C1_identity_when_decodable_witness :
  processAudio testPlatform stereoFile allOff = ([DecodeAudio], inr stereoFile).
Proof.
  apply (C1_identity_when_decodable testPlatform stereoFile allOff stereoBuffer);
    vm_compute; reflexivity.
Defined.

(** C1, counterexample: with all four flags false, a file the decoder
    rejects is not returned unchanged; the call fails. *)
Lemma C1_counterexample :
  Object_values allOff = [false; false; false; false] /\
  processAudio testPlatform corruptFile allOff
  = ([DecodeAudio], inl (Error decodeFailedMessage)) /\
  snd (processAudio testPlatform corruptFile allOff) <> inr corruptFile.
Proof.
  split; [|split].
  - reflexivity.
  - vm_compute. reflexivity.
  - intros C. vm_compute in C. discriminate C.
Qed.

(** C2: the sample -0.25 is negative, yet it is scaled by 32767 and stored
    as -8191; scaled by 32768 it would be -8192.  The encoder scales by
    32768 only below -0.5. *)
Theorem C2_quantize_quarter :
  clamp (- (1 # 4)) = - (1 # 4) /\
  quantize (- (1 # 4)) = (-8191)%Z /\
  ToInt32 (dround (- (1 # 4) * 32767)) = (-8191)%Z /\
  ToInt32 (dround (- (1 # 4) * 32768)) = (-8192)%Z.
Proof. repeat split; vm_compute; reflexivity. Qed.

Lemma clamp_inside x : -1 <= x -> x <= 1 -> clamp x == x.
Proof.
  intros H1 H2. unfold clamp. rewrite (Q.min_r 1 x) by exact H2.
  apply Q.max_r. exact H1.
Qed.

(** Every sample from -0.5 up, the negative ones included, is scaled by
    32767. *)
Lemma quantize_from_minus_half x :
  - (1 # 2) <= x -> x <= 1 ->
  quantize x = ToInt32 (dround (clamp x * 32767)).
Proof.
  intros H1 H2. unfold quantize.
  assert (Hc : clamp x == x) by (apply clamp_inside; lra).
  assert (H : Qltb (dround (0.5 + clamp x)) 0 = false).
  { apply Qltb_ge. apply round_nonneg. rewrite Hc. lra. }
  rewrite H. reflexivity.
Qed.

(** C3 (as amended): removeSilence, noiseReduction and normalizeVolume each
    decide their own stage and nothing else: the encoded buffer is the
    resampled buffer taken through the removal of silence, the noise gate
    and the normalizer, in this order, each applied exactly when its flag
    is set.  The resampling to mono 16 kHz does not depend on
    convertToMono16kHz: it runs exactly when some flag is set and the
    decoded buffer is not already mono at 16 kHz, so every processed
    output is mono at 16 kHz whichever flags are set. *)
Theorem C3_stage_selection pf file options buffer :
  decodeAudioData pf (contents file) = inr buffer ->
  let trace := fst (processAudio pf file options) in
  (In ResampleRender trace <->
   needsProcessing options = true /\ isStandardFormat buffer = false) /\
  (forall out, snd (processAudio pf file options) = inr out ->
     (In SilenceRemoval trace <-> removeSilence options = true) /\
     (In NoiseGate trace <-> noiseReduction options = true) /\
     (In Normalize trace <-> normalizeVolume options = true) /\
     (needsProcessing options = true ->
      trace = DecodeAudio :: stageTrace options buffer ++ [EncodeWav] /\
      exists resampled trimmed,
        (if isStandardFormat buffer then resampled = buffer
         else exists rendered,
             startRendering pf
               (ToUint32 (dround (duration buffer * inject_Z targetSampleRate)))
               targetSampleRate buffer = inr rendered /\
             resampled = {| sampleRate := 16000; channels := [rendered] |}) /\
        (if removeSilence options then step2_removeSilence resampled = inr trimmed
         else trimmed = resampled) /\
        let gated :=
          if noiseReduction options then step3_noiseReduction trimmed else trimmed in
        let final :=
          if normalizeVolume options then step4_normalizeVolume gated else gated in
        mono16k final /\ contents out = audioBufferToWav final)).
Proof.
  intros Hd trace. unfold trace. rewrite (processAudio_decoded pf file options buffer Hd).
  destruct (needsProcessing options) eqn:En.
  - pose proof (stageTrace_resample options buffer) as Hres.
    pose proof (stageTrace_flags options buffer) as (Hs & Hn & Hv & _ & _).
    destruct (runStages pf options buffer) as [tr [e|final]] eqn:E; cbn [fst snd].
    + split; [|discriminate].
      destruct (runStages_cases pf options buffer)
        as [(tr' & f & E' & [[-> Hstd]|[-> _]])|(final & _ & E')]; [| |congruence];
        rewrite E in E'; injection E' as Htr _; subst tr.
      * split; [intros _; split; [reflexivity | exact Hstd]|].
        intros _. right. left. reflexivity.
      * rewrite <- Hres. cbn [In]. intuition (discriminate || congruence).
    + destruct (runStages_returned pf options buffer tr final E)
        as (-> & resampled & trimmed & Hr & Ht & _ & Hm & Hfin).
      cbv zeta in Hfin. split.
      * rewrite <- Hres. cbn [In]. rewrite in_app_iff. cbn [In].
        intuition (discriminate || congruence).
      * intros out Hout. injection Hout as <-. cbn [contents].
        rewrite <- Hs, <- Hn, <- Hv. cbn [In]. rewrite !in_app_iff. cbn [In].
        repeat split; try (intuition (discriminate || congruence)).
        exists resampled, trimmed. split; [exact Hr|]. split; [exact Ht|].
        cbv zeta. rewrite <- Hfin. split; [exact Hm | reflexivity].
  - apply needsProcessing_false in En. destruct En as (E1 & E2 & E3 & E4).
    cbn [fst snd]. split.
    + simpl. intuition (discriminate || congruence).
    + intros out _. rewrite E2, E3, E4. simpl.
      repeat split; intuition (discriminate || congruence).
Qed.

(** C3, witness: a stereo 44.1 kHz file with only noiseReduction set. *)
Lemma C3_stage_selection_witness :
  let trace := fst (processAudio testPlatform stereoFile onlyNoiseReduction) in
  (In ResampleRender trace <->
   needsProcessing onlyNoiseReduction = true /\ isStandardFormat stereoBuffer = false) /\
  (forall out, snd (processAudio testPlatform stereoFile onlyNoiseReduction) = inr out ->
     (In SilenceRemoval trace <-> removeSilence onlyNoiseReduction = true) /\
     (In NoiseGate trace <-> noiseReduction onlyNoiseReduction = true) /\
     (In Normalize trace <-> normalizeVolume onlyNoiseReduction = true) /\
     (needsProcessing onlyNoiseReduction = true ->
      trace = DecodeAudio :: stageTrace onlyNoiseReduction stereoBuffer ++ [EncodeWav] /\
      exists resampled trimmed,
        (if isStandardFormat stereoBuffer then resampled = stereoBuffer
         else exists rendered,
             startRendering testPlatform
               (ToUint32 (dround (duration stereoBuffer * inject_Z targetSampleRate)))
               targetSampleRate stereoBuffer = inr rendered /\
             resampled = {| sampleRate := 16000; channels := [rendered] |}) /\
        (if removeSilence onlyNoiseReduction then step2_removeSilence resampled = inr trimmed
         else trimmed = resampled) /\
        let gated :=
          if noiseReduction onlyNoiseReduction
          then step3_noiseReduction trimmed else trimmed in
        let final :=
          if normalizeVolume onlyNoiseReduction
          then step4_normalizeVolume gated else gated in
        mono16k final /\ contents out = audioBufferToWav final)).
Proof.
  apply (C3_stage_selection testPlatform stereoFile onlyNoiseReduction stereoBuffer).
  vm_compute. reflexivity.
Defined.

(** C3, counterexample: with only noiseReduction set and convertToMono16kHz
    not set, a stereo 44.1 kHz input is resampled all the same and comes
    out mono at 16 kHz. *)
Lemma C3_counterexample :
  convertToMono16kHz onlyNoiseReduction = false /\
  decodeAudioData testPlatform (contents stereoFile) = inr stereoBuffer /\
  sampleRate stereoBuffer = 44100%Z /\
  numberOfChannels stereoBuffer = 2%nat /\
  In ResampleRender (fst (processAudio testPlatform stereoFile onlyNoiseReduction)) /\
  runStages testPlatform onlyNoiseReduction stereoBuffer
  = ([ResampleRender; NoiseGate],
     inr {| sampleRate := 16000; channels := [[1 # 2]] |}).
Proof.
  split; [|split; [|split; [|split; [|split]]]].
  - reflexivity.
  - vm_compute. reflexivity.
  - reflexivity.
  - reflexivity.
  - vm_compute. right. left. reflexivity.
  - vm_compute. reflexivity.
Qed.

(** C9: a decoding failure gives the decode error and nothing but the
    decoding is attempted; no other failure gives that error; and a call
    that returns gives the original file or a complete WAV file. *)
Theorem C9_decode_failure_is_reported pf file options :
  (forall f, decodeAudioData pf (contents file) = inl f ->
     processAudio pf file options = ([DecodeAudio], inl (Error decodeFailedMessage))) /\
  (forall buffer, decodeAudioData pf (contents file) = inr buffer ->
     snd (processAudio pf file options) <> inl (Error decodeFailedMessage)) /\
  (forall out, snd (processAudio pf file options) = inr out ->
     out = file \/
     exists data,
       out = {| name := processedFileName (name file);
                type := "audio/wav";
                contents := wavHeader 1 16000 (Z.of_nat (List.length data) * 1 * 2 + 44)
                            ++ flat_map (fun x => le_bytes 2 (quantize x)) data |} /\
       List.length (contents out) = (44 + 2 * List.length data)%nat).
Proof.
  split; [|split].
  - intros f Hf. apply (processAudio_decode_failed pf file options f Hf).
  - intros buffer Hd. rewrite (processAudio_decoded pf file options buffer Hd).
    destruct (needsProcessing options); [|discriminate].
    destruct (runStages_cases pf options buffer) as [(tr & f & E & _)|(final & _ & E)];
      rewrite E; cbn [snd]; [|discriminate].
    destruct f as [errorName|]; simpl; [discriminate|].
    intros C. injection C as C. revert C. vm_compute. discriminate.
  - intros out. destruct (decodeAudioData pf (contents file)) as [f|buffer] eqn:Hd.
    + rewrite (processAudio_decode_failed pf file options f Hd). discriminate.
    + rewrite (processAudio_decoded pf file options buffer Hd).
      destruct (needsProcessing options).
      * destruct (runStages_cases pf options buffer) as [(tr & f & E & _)|(final & Hm & E)];
          rewrite E; cbn [snd]; [discriminate|].
        intros Hout. injection Hout as <-. right.
        destruct Hm as [Hr [data Hc]]. exists data.
        assert (Hfinal : final = {| sampleRate := 16000; channels := [data] |}).
        { destruct final as [r c]. simpl in *. subst. reflexivity. }
        rewrite Hfinal, audioBufferToWav_mono. split; [reflexivity|].
        cbn [contents]. rewrite length_app, wavHeader_length, payload_length. reflexivity.
      * intros Hout. injection Hout as <-. left. reflexivity.
Qed.

(** C10: the decoding comes first: an undecodable file gives the decode
    error whatever the flags, all false included, and with all flags false
    the original file is returned only when the decoding succeeded. *)
Theorem C10_decode_before_shortcut pf file options :
  (exists rest, fst (processAudio pf file options) = DecodeAudio :: rest) /\
  (forall f, decodeAudioData pf (contents file) = inl f ->
     processAudio pf file options = ([DecodeAudio], inl (Error decodeFailedMessage))) /\
  (needsProcessing options = false ->
   forall out, snd (processAudio pf file options) = inr out ->
     out = file /\ exists buffer, decodeAudioData pf (contents file) = inr buffer).
Proof.
  split; [|split].
  - destruct (decodeAudioData pf (contents file)) as [f|buffer] eqn:Hd.
    + rewrite (processAudio_decode_failed pf file options f Hd). eexists. reflexivity.
    + rewrite (processAudio_decoded pf file options buffer Hd).
      destruct (needsProcessing options); [|eexists; reflexivity].
      destruct (runStages pf options buffer) as [tr [e|final]]; eexists; reflexivity.
  - intros f Hf. apply (processAudio_decode_failed pf file options f Hf).
  - intros Hn out. destruct (decodeAudioData pf (contents file)) as [f|buffer] eqn:Hd.
    + rewrite (processAudio_decode_failed pf file options f Hd). discriminate.
    + rewrite (processAudio_decoded pf file options buffer Hd), Hn. cbn [snd].
      intros Hout. injection Hout as <-. split; [reflexivity | exists buffer; reflexivity].
Qed.

(** * The WAV encoder *)

Lemma byte_of_Z_value z : Z.of_N (Byte.to_N (byte_of_Z z)) = (z mod 256)%Z.
Proof.
  unfold byte_of_Z.
  assert (Hm : (0 <= z mod 256 < 256)%Z) by (apply Z.mod_pos_bound; lia).
  destruct (Byte.of_N (Z.to_N (z mod 256))) as [b|] eqn:E.
  - apply Byte.to_of_N in E. rewrite E. apply Z2N.id. lia.
  - apply Byte.of_N_None_iff in E. lia.
Qed.

(** Reading back what [le_bytes] wrote gives the value modulo the width. *)
Lemma le_value_le_bytes n : forall v,
  le_value (le_bytes n v) = (v mod 2 ^ (8 * Z.of_nat n))%Z.
Proof.
  induction n as [|n IH]; intros v.
  - simpl. rewrite Z.mod_1_r. reflexivity.
  - cbn [le_bytes le_value]. rewrite byte_of_Z_value, IH.
    replace (8 * Z.of_nat (S n))%Z with (8 + 8 * Z.of_nat n)%Z by lia.
    rewrite Z.pow_add_r by lia. change (2 ^ 8)%Z with 256%Z.
    rewrite (Z.rem_mul_r v 256 (2 ^ (8 * Z.of_nat n))) by lia. lia.
Qed.

Lemma le_bytes_length n v : List.length (le_bytes n v) = n.
Proof. revert v. induction n as [|n IH]; intros v; simpl; [reflexivity | rewrite IH; reflexivity]. Qed.

Lemma Qtrunc_nonneg q : 0 <= q -> Qtrunc q = Qfloor q.
Proof.
  destruct q as [n d]. unfold Qle, Qtrunc, Qfloor. simpl. intros H.
  apply Z.quot_div_nonneg; lia.
Qed.

Lemma Qtrunc_nonpos q : q <= 0 -> Qtrunc q = Qceiling q.
Proof.
  destruct q as [n d]. unfold Qle, Qtrunc, Qceiling, Qfloor, Qopp. simpl. intros H.
  rewrite <- (Z.opp_involutive n) at 1. rewrite Z.quot_opp_l by lia.
  f_equal. apply Z.quot_div_nonneg; lia.
Qed.

Lemma Qtrunc_mono x y : x <= y -> (Qtrunc x <= Qtrunc y)%Z.
Proof.
  intros H. destruct (Qlt_le_dec x 0) as [Hx|Hx]; destruct (Qlt_le_dec y 0) as [Hy|Hy].
  - rewrite !Qtrunc_nonpos by lra. apply Qceiling_resp_le, H.
  - rewrite (Qtrunc_nonpos x), (Qtrunc_nonneg y) by lra.
    assert (Qceiling x <= Qceiling 0)%Z by (apply Qceiling_resp_le; lra).
    assert (Qfloor 0 <= Qfloor y)%Z by (apply Qfloor_resp_le; lra).
    change (Qceiling 0) with 0%Z in *. change (Qfloor 0) with 0%Z in *. lia.
  - lra.
  - rewrite !Qtrunc_nonneg by lra. apply Qfloor_resp_le, H.
Qed.

Lemma Qtrunc_Z z : Qtrunc (inject_Z z) = z.
Proof. unfold Qtrunc, inject_Z. simpl. apply Z.quot_1_r. Qed.

Lemma Qtrunc_between lo hi q :
  inject_Z lo <= q -> q <= inject_Z hi -> (lo <= Qtrunc q <= hi)%Z.
Proof.
  intros H1 H2. apply Qtrunc_mono in H1, H2. rewrite Qtrunc_Z in H1, H2. lia.
Qed.

Lemma ToInt32_small q :
  (- 2 ^ 31 <= Qtrunc q < 2 ^ 31)%Z -> ToInt32 q = Qtrunc q.
Proof.
  intros H. unfold ToInt32.
  destruct (Z_lt_le_dec (Qtrunc q) 0) as [Hn|Hp].
  - replace (Qtrunc q mod 2 ^ 32)%Z with (Qtrunc q + 2 ^ 32)%Z.
    + destruct (Z.leb_spec (2 ^ 31) (Qtrunc q + 2 ^ 32)); lia.
    + apply Z.mod_unique with (-1)%Z; lia.
  - rewrite Z.mod_small by lia. destruct (Z.leb_spec (2 ^ 31) (Qtrunc q)); lia.
Qed.

Lemma clamp_range x : -1 <= clamp x <= 1.
Proof.
  unfold clamp. split; [apply Q.le_max_l|].
  apply Q.max_lub; [discriminate | apply Q.le_min_l].
Qed.

Lemma clamp_mono x y : x <= y -> clamp x <= clamp y.
Proof.
  intros H. unfold clamp. apply Q.max_le_compat_l. apply Q.min_le_compat_l. exact H.
Qed.

Lemma dround_Z_small z : (Z.abs z < 2 ^ 53)%Z -> dround (inject_Z z) == inject_Z z.
Proof.
  intros H. unfold dround. apply (round_exact 53 (-1074) (inject_Z z) z 0).
  - unfold ulp_exp. destruct (Z.eq_dec z 0) as [->|Hz].
    + vm_compute. discriminate.
    + assert (Hq : ~ inject_Z z == 0).
      { intro C. apply Hz. unfold Qeq, inject_Z in C. simpl in C. lia. }
      destruct (Qlog2_spec (inject_Z z) Hq) as [Hlo _].
      assert (Hb : Qabs (inject_Z z) < 2 ^ 53).
      { rewrite (pow2_Z 53) by lia. change (Qabs (inject_Z z)) with (inject_Z (Z.abs z)).
        rewrite <- Zlt_Qlt. exact H. }
      assert (Hl : (Qlog2 (inject_Z z) < 53)%Z) by (apply pow2_lt_inv; lra).
      lia.
  - change (2 ^ 0) with 1. ring.
Qed.

(** Which scale a sample gets: 32768 only strictly below -0.5. *)
Lemma quantize_branch x :
  (Qltb (dround (0.5 + clamp x)) 0 = true /\ clamp x < - (1 # 2)) \/
  (Qltb (dround (0.5 + clamp x)) 0 = false /\ - (1 # 2) - 2 ^ (- (1074)) < clamp x).
Proof.
  destruct (Qltb (dround (0.5 + clamp x)) 0) eqn:E.
  - left. split; [reflexivity|]. apply Qltb_lt in E.
    destruct (Qlt_le_dec (clamp x) (- (1 # 2))) as [H|H]; [exact H|].
    exfalso. assert (0 <= dround (0.5 + clamp x)) by (apply round_nonneg; lra). lra.
  - right. split; [reflexivity|]. apply Qltb_ge in E.
    destruct (Qlt_le_dec (- (1 # 2) - 2 ^ (- (1074))) (clamp x)) as [H|H]; [exact H|].
    exfalso.
    assert (Hr : dround (0.5 + clamp x) <= dround (- 2 ^ (- (1074)))).
    { unfold dround. apply round_mono; [lia | lra]. }
    assert (Ev : dround (- 2 ^ (- (1074))) < 0) by (vm_compute; reflexivity).
    lra.
Qed.

Lemma quantize_scaled x :
  exists scaled, quantize x = Qtrunc scaled /\ -32768 <= scaled <= 32767 /\
    ((Qltb (dround (0.5 + clamp x)) 0 = true /\
      scaled == dround (clamp x * 32768) /\ scaled <= -16384) \/
     (Qltb (dround (0.5 + clamp x)) 0 = false /\
      scaled == dround (clamp x * 32767) /\ -16384 <= scaled)).
Proof.
  destruct (clamp_range x) as [Hlo Hhi]. unfold quantize.
  assert (E1 : dround (inject_Z (-32768)) == inject_Z (-32768)) by (apply dround_Z_small; lia).
  assert (E2 : dround (inject_Z (-16384)) == inject_Z (-16384)) by (apply dround_Z_small; lia).
  assert (E3 : dround (inject_Z 32767) == inject_Z 32767) by (apply dround_Z_small; lia).
  change (inject_Z (-32768)) with (-32768) in E1. change (inject_Z (-16384)) with (-16384) in E2.
  change (inject_Z 32767) with 32767 in E3.
  assert (Htiny : 32767 * 2 ^ (- (1074)) <= 1 # 2) by (vm_compute; discriminate).
  assert (Htiny0 : 0 < 2 ^ (- (1074))) by reflexivity.
  destruct (quantize_branch x) as [[Eb Hs]|[Eb Hs]]; rewrite Eb.
  - set (scaled := dround (clamp x * 32768)).
    assert (B1 : -32768 <= scaled).
    { rewrite <- E1. unfold scaled, dround. apply round_mono; [lia | lra]. }
    assert (B2 : scaled <= -16384).
    { rewrite <- E2. unfold scaled, dround. apply round_mono; [lia | lra]. }
    exists scaled. split.
    + apply ToInt32_small.
      pose proof (Qtrunc_between (-32768) (-16384) scaled B1 B2). lia.
    + split; [lra|]. left. repeat split; try assumption; try reflexivity.
  - set (scaled := dround (clamp x * 32767)).
    assert (B1 : -16384 <= scaled).
    { rewrite <- E2. unfold scaled, dround. apply round_mono; [lia | lra]. }
    assert (B2 : scaled <= 32767).
    { rewrite <- E3. unfold scaled, dround. apply round_mono; [lia | lra]. }
    exists scaled. split.
    + apply ToInt32_small.
      pose proof (Qtrunc_between (-16384) 32767 scaled B1 B2). lia.
    + split; [lra|]. right. repeat split; try assumption; try reflexivity.
Qed.

(** X1: every quantized sample fits a signed 16-bit integer: [setInt16] never
    wraps around. *)
Theorem quantize_int16 x : (- 32768 <= quantize x <= 32767)%Z.
Proof.
  destruct (quantize_scaled x) as (scaled & -> & [H1 H2] & _).
  apply Qtrunc_between; assumption.
Qed.

(** X2: the quantizer keeps the order of the samples, across the change of
    scale at -0.5 too. *)
Theorem quantize_mono x y : x <= y -> (quantize x <= quantize y)%Z.
Proof.
  intros Hxy. pose proof (clamp_mono x y Hxy) as Hc.
  destruct (quantize_scaled x) as (sx & -> & _ & Hx).
  destruct (quantize_scaled y) as (sy & -> & _ & Hy).
  apply Qtrunc_mono.
  destruct Hx as [(Hx1 & Hx2 & Hx3)|(Hx1 & Hx2 & Hx3)];
    destruct Hy as [(Hy1 & Hy2 & Hy3)|(Hy1 & Hy2 & Hy3)].
  - rewrite Hx2, Hy2. unfold dround. apply round_mono; [lia | lra].
  - lra.
  - exfalso. apply Qltb_ge in Hx1. apply Qltb_lt in Hy1.
    assert (dround (0.5 + clamp x) <= dround (0.5 + clamp y))
      by (unfold dround; apply round_mono; [lia | lra]).
    lra.
  - rewrite Hx2, Hy2. unfold dround. apply round_mono; [lia | lra].
Qed.

(** X2, witness: two samples on either side of -0.5. *)
Lemma quantize_mono_witness : (quantize (- (3 # 4)) <= quantize (- (1 # 4)))%Z.
Proof. apply (quantize_mono (- (3 # 4)) (- (1 # 4))). discriminate. Defined.

(** ** The quantizer on binary32 samples *)

Lemma Qtrunc_comp x y : x == y -> Qtrunc x = Qtrunc y.
Proof.
  intros H. apply Z.le_antisymm; apply Qtrunc_mono; rewrite H; apply Qle_refl.
Qed.

(** A binary32 number is an integer multiple of its unit in the last
    place, and of every smaller power of two. *)
Lemma float32_grid x k :
  fround x == x -> (k <= ulp_exp 24 (-149) x)%Z -> exists m, x == inject_Z m * 2 ^ k.
Proof.
  intros Hx Hk. unfold fround in Hx. rewrite round_val in Hx.
  set (e := ulp_exp 24 (-149) x) in *.
  exists (rne (x * 2 ^ (- e)) * 2 ^ (e - k))%Z.
  rewrite inject_Z_mult, <- pow2_Z by lia.
  rewrite <- Qmult_assoc, <- pow2_add. replace (e - k + k)%Z with e by lia.
  symmetry. exact Hx.
Qed.

(** The product of a binary32 number and a small integer is a binary64
    number: the multiplication rounds nothing away. *)
Lemma float32_scaled_exact x c :
  fround x == x -> (Z.abs c < 2 ^ 29)%Z ->
  dround (x * inject_Z c) == x * inject_Z c.
Proof.
  intros Hx Hc.
  destruct (Qeq_dec (x * inject_Z c) 0) as [E|E].
  { unfold dround. rewrite (round_zero 53 (-1074) _ E). symmetry. exact E. }
  assert (Hx0 : ~ x == 0) by (intro C; apply E; rewrite C; apply Qmult_0_l).
  destruct (float32_grid x (ulp_exp 24 (-149) x) Hx (Z.le_refl _)) as [m Hm].
  unfold dround. apply (round_exact 53 (-1074) _ (m * c) (ulp_exp 24 (-149) x)).
  - destruct (Qlog2_spec x Hx0) as [_ Hhi]. destruct (Qlog2_spec _ E) as [Hlo _].
    assert (Hc' : Qabs (inject_Z c) < 2 ^ 29).
    { rewrite (pow2_Z 29) by lia. change (Qabs (inject_Z c)) with (inject_Z (Z.abs c)).
      rewrite <- Zlt_Qlt. exact Hc. }
    assert (Hlt : 2 ^ Qlog2 (x * inject_Z c) < 2 ^ (Qlog2 x + 1 + 29)).
    { rewrite pow2_add. rewrite Qabs_Qmult in Hlo.
      pose proof (Qabs_nonneg x). pose proof (Qabs_nonneg (inject_Z c)).
      pose proof (pow2_pos (Qlog2 x + 1)).
      generalize dependent (2 ^ (Qlog2 x + 1)). generalize dependent (2 ^ 29).
      generalize dependent (2 ^ Qlog2 (x * inject_Z c)).
      generalize dependent (Qabs x). generalize dependent (Qabs (inject_Z c)).
      intros. nra. }
    apply pow2_lt_inv in Hlt. unfold ulp_exp. lia.
  - rewrite inject_Z_mult. rewrite Hm at 1.
    generalize (2 ^ ulp_exp 24 (-149) x). intros. ring.
Qed.

Lemma clamp_cases x :
  (clamp x == x /\ -1 <= x <= 1) \/ (clamp x == 1 /\ 1 <= x) \/ (clamp x == -1 /\ x <= -1).
Proof.
  unfold clamp.
  destruct (Q.min_spec 1 x) as [[H1 E1]|[H1 E1]];
    destruct (Q.max_spec (-1) (Qmin 1 x)) as [[H2 E2]|[H2 E2]];
    rewrite E1 in *; rewrite E2; clear E1 E2.
  - right. left. split; [reflexivity | lra].
  - exfalso. lra.
  - left. split; [reflexivity | lra].
  - right. right. split; [reflexivity | lra].
Qed.

Lemma quantize_comp x y : clamp x == clamp y -> quantize x = quantize y.
Proof.
  intros H. unfold quantize, dround.
  rewrite (round_comp 53 (-1074) (0.5 + clamp x) (0.5 + clamp y)) by (rewrite H; reflexivity).
  rewrite (round_comp 53 (-1074) (clamp x * 32768) (clamp y * 32768)) by (rewrite H; reflexivity).
  rewrite (round_comp 53 (-1074) (clamp x * 32767) (clamp y * 32767)) by (rewrite H; reflexivity).
  reflexivity.
Qed.

Lemma clamp_float32 x : fround x == x -> fround (clamp x) == clamp x.
Proof.
  intros H. destruct (clamp_cases x) as [[E _]|[[E _]|[E _]]];
    unfold fround; rewrite (round_comp 24 (-149) _ _ E), E.
  - exact H.
  - vm_compute. reflexivity.
  - vm_compute. reflexivity.
Qed.

(** A binary32 number below -0.5 is at least one unit below it. *)
Lemma float32_below_minus_half x :
  fround x == x -> -1 <= x -> x < - (1 # 2) -> x <= - (1 # 2) - 2 ^ (- (24)).
Proof.
  intros Hx Hlo Hhi.
  assert (Hl : (-1 <= Qlog2 x)%Z).
  { change (-1)%Z with (Qlog2 (1 # 2)). apply Qlog2_le; [discriminate|].
    rewrite (Qabs_neg x) by lra. change (Qabs (1 # 2)) with (1 # 2). lra. }
  destruct (float32_grid x (-24) Hx ltac:(unfold ulp_exp; lia)) as [m Hm].
  assert (Hp : 2 ^ (- (24)) == 1 # 16777216) by reflexivity.
  rewrite Hp in *.
  assert (Hz : (m < - 8388608)%Z).
  { rewrite Zlt_Qlt. change (inject_Z (-8388608)) with (-8388608). lra. }
  assert (Hq : inject_Z m <= inject_Z (-8388609)) by (rewrite <- Zle_Qle; lia).
  change (inject_Z (-8388609)) with (-8388609) in Hq. lra.
Qed.

(** On binary32 samples the test [0.5 + sample < 0] of the source is the
    test [sample < -0.5]. *)
Lemma quantize_test_float32 x :
  fround x == x -> Qltb (dround (0.5 + clamp x)) 0 = Qltb x (- (1 # 2)).
Proof.
  intros Hx. destruct (Qlt_le_dec x (- (1 # 2))) as [H|H].
  - rewrite (proj2 (Qltb_lt x _) H). apply Qltb_lt.
    assert (Hc : clamp x <= - (1 # 2) - 2 ^ (- (24))).
    { destruct (clamp_cases x) as [[E B]|[[E B]|[E B]]]; rewrite E.
      - apply float32_below_minus_half; [exact Hx | lra | exact H].
      - exfalso. lra.
      - vm_compute. discriminate. }
    assert (Hr : dround (0.5 + clamp x) <= dround (- 2 ^ (- (24)))).
    { unfold dround. apply round_mono; [lia | lra]. }
    assert (Ev : dround (- 2 ^ (- (24))) < 0) by (vm_compute; reflexivity).
    lra.
  - rewrite (proj2 (Qltb_ge x _) H). apply Qltb_ge. apply round_nonneg.
    pose proof (clamp_mono _ _ H) as Hc.
    assert (E : clamp (- (1 # 2)) == - (1 # 2)) by (vm_compute; reflexivity).
    lra.
Qed.

(** X3: for a binary32 sample the encoder computes exactly: the clamped sample
    times 32768 below -0.5 and times 32767 from -0.5 on, truncated toward
    zero. No rounding of the double arithmetic shows in the result. *)
Theorem quantize_float32_exact x :
  is_float32 x ->
  quantize x = Qtrunc (clamp x * (if Qltb x (- (1 # 2)) then 32768 else 32767)).
Proof.
  intros [Hx _]. pose proof (clamp_float32 x Hx) as Hc.
  destruct (quantize_scaled x) as (scaled & -> & _ & Hs).
  rewrite (quantize_test_float32 x Hx) in Hs.
  destruct Hs as [(-> & Hs & _)|(-> & Hs & _)]; apply Qtrunc_comp; rewrite Hs.
  - apply (float32_scaled_exact (clamp x) 32768 Hc). lia.
  - apply (float32_scaled_exact (clamp x) 32767 Hc). lia.
Qed.

(** X3, witness: the sample -0.25. *)
Lemma quantize_float32_exact_witness :
  quantize (- (1 # 4))
  = Qtrunc (clamp (- (1 # 4)) * (if Qltb (- (1 # 4)) (- (1 # 2)) then 32768 else 32767)).
Proof.
  apply (quantize_float32_exact (- (1 # 4))). split; vm_compute; reflexivity.
Defined.

(** X4: samples at or beyond full scale saturate: everything from 1 up is
    stored as 32767, everything from -1 down as -32768. *)
Theorem quantize_saturates x :
  (1 <= x -> quantize x = 32767%Z) /\ (x <= -1 -> quantize x = (-32768)%Z).
Proof.
  assert (E1 : clamp 1 == 1) by (vm_compute; reflexivity).
  assert (E2 : clamp (-1) == -1) by (vm_compute; reflexivity).
  split; intros H.
  - rewrite (quantize_comp x 1); [vm_compute; reflexivity|].
    destruct (clamp_cases x) as [[E B]|[[E B]|[E B]]]; rewrite E, E1; lra.
  - rewrite (quantize_comp x (-1)); [vm_compute; reflexivity|].
    destruct (clamp_cases x) as [[E B]|[[E B]|[E B]]]; rewrite E, E2; lra.
Qed.

(** ** The layout of the file *)

Lemma fold_left_append {A B} (g : A -> list B) l : forall view,
  fold_left (fun view a => view ++ g a) l view = view ++ flat_map g l.
Proof.
  induction l as [|a l IH]; intros view; simpl.
  - rewrite app_nil_r. reflexivity.
  - rewrite IH, <- app_assoc. reflexivity.
Qed.

Lemma fold_left_frames {A B C} (g : A -> B -> list C) (inner : list B) outer : forall view,
  fold_left (fun view a => fold_left (fun view i => view ++ g a i) inner view) outer view
  = view ++ flat_map (fun a => flat_map (g a) inner) outer.
Proof.
  induction outer as [|a outer IH]; intros view; simpl.
  - rewrite app_nil_r. reflexivity.
  - rewrite IH, fold_left_append, <- app_assoc. reflexivity.
Qed.

(** The file is the header followed by the frames in order, the channels
    interleaved within a frame. *)
Lemma audioBufferToWav_eq buffer :
  audioBufferToWav buffer
  = wavHeader (Z.of_nat (numberOfChannels buffer)) (sampleRate buffer)
      (Z.of_nat (buffer_length buffer) * Z.of_nat (numberOfChannels buffer) * 2 + 44)
    ++ flat_map (fun offset => flat_map (sampleBytes buffer offset)
                                 (seq 0 (numberOfChannels buffer)))
                (seq 0 (buffer_length buffer)).
Proof.
  unfold audioBufferToWav, setInt16.
  apply (fold_left_frames (sampleBytes buffer)).
Qed.

Lemma flat_map_length_const {A B} (g : A -> list B) k l :
  (forall a, List.length (g a) = k) -> List.length (flat_map g l) = (k * List.length l)%nat.
Proof.
  intros Hk. induction l as [|a l IH]; simpl; [lia|].
  rewrite length_app, Hk, IH. lia.
Qed.

Lemma frame_length buffer offset :
  List.length (flat_map (sampleBytes buffer offset) (seq 0 (numberOfChannels buffer)))
  = (2 * numberOfChannels buffer)%nat.
Proof.
  rewrite (flat_map_length_const _ 2).
  - rewrite length_seq. reflexivity.
  - intros a. apply le_bytes_length.
Qed.

(** X5: the file has 44 bytes of header and two bytes for every sample of
    every channel. *)
Theorem audioBufferToWav_length buffer :
  List.length (audioBufferToWav buffer)
  = (44 + 2 * numberOfChannels buffer * buffer_length buffer)%nat.
Proof.
  rewrite audioBufferToWav_eq, length_app, wavHeader_length.
  rewrite (flat_map_length_const _ (2 * numberOfChannels buffer)).
  - rewrite length_seq. reflexivity.
  - intros offset. apply frame_length.
Qed.

Lemma skipn_chunks {A B} (g : A -> list B) k (d : A) l : forall j,
  (forall a, List.length (g a) = k) -> (j < List.length l)%nat ->
  skipn (k * j) (flat_map g l) = g (nth j l d) ++ flat_map g (skipn (S j) l).
Proof.
  intros j Hk. revert j. induction l as [|a l IH]; intros j Hj; simpl in Hj; [lia|].
  destruct j as [|j].
  - rewrite Nat.mul_0_r. reflexivity.
  - cbn [flat_map nth]. replace (k * S j)%nat with (List.length (g a) + k * j)%nat
      by (rewrite Hk; lia).
    rewrite skipn_app, skipn_all2 by lia.
    replace (List.length (g a) + k * j - List.length (g a))%nat with (k * j)%nat by lia.
    rewrite IH by lia. reflexivity.
Qed.

Lemma firstn_app_exact {A} (l1 l2 : list A) : firstn (List.length l1) (l1 ++ l2) = l1.
Proof. rewrite firstn_app, Nat.sub_diag, firstn_all. simpl. apply app_nil_r. Qed.

(** Where a sample lies in the file. *)
Lemma sample_position buffer offset i :
  (offset < buffer_length buffer)%nat -> (i < numberOfChannels buffer)%nat ->
  firstn 2 (skipn (44 + 2 * (offset * numberOfChannels buffer + i)) (audioBufferToWav buffer))
  = sampleBytes buffer offset i.
Proof.
  intros Ho Hi. rewrite audioBufferToWav_eq.
  set (header := wavHeader _ _ _).
  replace (44 + 2 * (offset * numberOfChannels buffer + i))%nat
    with (List.length header + (2 * numberOfChannels buffer * offset + 2 * i))%nat
    by (unfold header; rewrite wavHeader_length; lia).
  rewrite skipn_app, skipn_all2 by lia. cbn [app].
  replace (List.length header + (2 * numberOfChannels buffer * offset + 2 * i)
           - List.length header)%nat
    with (2 * numberOfChannels buffer * offset + 2 * i)%nat by lia.
  rewrite (Nat.add_comm (2 * numberOfChannels buffer * offset)), <- skipn_skipn.
  rewrite (skipn_chunks _ (2 * numberOfChannels buffer) O)
    by (try (intros; apply frame_length); rewrite length_seq; exact Ho).
  rewrite seq_nth by exact Ho. cbn [Nat.add].
  rewrite skipn_app.
  rewrite (skipn_chunks _ 2 O)
    by (try (intros; apply le_bytes_length); rewrite length_seq; exact Hi).
  rewrite seq_nth by exact Hi. cbn [Nat.add].
  rewrite <- !app_assoc.
  replace 2%nat with (List.length (sampleBytes buffer offset i)) at 1
    by apply le_bytes_length.
  apply firstn_app_exact.
Qed.

(** X6: reading a sample back gives the quantized sample: the bytes are its
    two's complement, least significant first. *)
Theorem audioBufferToWav_sample buffer offset i :
  (offset < buffer_length buffer)%nat -> (i < numberOfChannels buffer)%nat ->
  getInt16 (audioBufferToWav buffer) (44 + 2 * (offset * numberOfChannels buffer + i))
  = quantize (nth offset (getChannelData buffer i) 0).
Proof.
  intros Ho Hi. unfold getInt16, getUint. rewrite (sample_position buffer offset i Ho Hi).
  unfold sampleBytes. rewrite le_value_le_bytes.
  assert (Hq : (- 32768 <= quantize (nth offset (getChannelData buffer i) 0%Q) <= 32767)%Z).
  { destruct (quantize_scaled (nth offset (getChannelData buffer i) 0%Q))
      as (scaled & -> & [H1 H2] & _).
    apply Qtrunc_between; assumption. }
  set (q := quantize _) in *. change (2 ^ (8 * Z.of_nat 2))%Z with 65536%Z.
  change (2 ^ 15)%Z with 32768%Z. change (2 ^ 16)%Z with 65536%Z.
  destruct (Z_lt_le_dec q 0) as [Hn|Hp].
  - replace (q mod 65536)%Z with (q + 65536)%Z
      by (apply Z.mod_unique with (-1)%Z; lia).
    destruct (Z.leb_spec 32768 (q + 65536)); lia.
  - rewrite Z.mod_small by lia. destruct (Z.leb_spec 32768 q); lia.
Qed.

(** X6, witness: the last frame of the right channel
    of the three stereo frames. *)
Lemma audioBufferToWav_sample_witness :
  getInt16 (audioBufferToWav stereoBuffer) (44 + 2 * (2 * numberOfChannels stereoBuffer + 1))
  = quantize (nth 2 (getChannelData stereoBuffer 1) 0).
Proof.
  apply (audioBufferToWav_sample stereoBuffer 2 1).
  - vm_compute. lia.
  - vm_compute. lia.
Defined.

Lemma header_window numOfChan rate length payload p k :
  (p + k <= 44)%nat ->
  firstn k (skipn p (wavHeader numOfChan rate length ++ payload))
  = firstn k (skipn p (wavHeader numOfChan rate length)).
Proof.
  intros H. rewrite skipn_app, firstn_app, wavHeader_length.
  replace (p - 44)%nat with O by lia.
  rewrite length_skipn, wavHeader_length.
  replace (k - (44 - p))%nat with O by lia. cbn [firstn]. apply app_nil_r.
Qed.

Lemma le_value_2 v : le_value [byte_of_Z v; byte_of_Z (v / 256)] = (v mod 2 ^ 16)%Z.
Proof. exact (le_value_le_bytes 2 v). Qed.

Lemma le_value_4 v :
  le_value [byte_of_Z v; byte_of_Z (v / 256); byte_of_Z (v / 256 / 256);
            byte_of_Z (v / 256 / 256 / 256)] = (v mod 2 ^ 32)%Z.
Proof. exact (le_value_le_bytes 4 v). Qed.

(** X7: every field of the header reads back as the RIFF/WAVE layout asks:
    the chunk tags, PCM format 1, the channel count, the sample rate, the
    byte rate, the block size, 16 bits per sample and the two sizes, which
    agree with the payload that follows. *)
Theorem audioBufferToWav_header buffer :
  let wav := audioBufferToWav buffer in
  let numOfChan := Z.of_nat (numberOfChannels buffer) in
  let dataSize := (2 * numOfChan * Z.of_nat (buffer_length buffer))%Z in
  firstn 4 wav = tagBytes "RIFF" /\
  getUint 4 wav 4 = ((36 + dataSize) mod 2 ^ 32)%Z /\
  firstn 8 (skipn 8 wav) = tagBytes "WAVEfmt " /\
  getUint 4 wav 16 = 16%Z /\
  getUint 2 wav 20 = 1%Z /\
  getUint 2 wav 22 = (numOfChan mod 2 ^ 16)%Z /\
  getUint 4 wav 24 = (sampleRate buffer mod 2 ^ 32)%Z /\
  getUint 4 wav 28 = ((sampleRate buffer * 2 * numOfChan) mod 2 ^ 32)%Z /\
  getUint 2 wav 32 = ((numOfChan * 2) mod 2 ^ 16)%Z /\
  getUint 2 wav 34 = 16%Z /\
  firstn 4 (skipn 36 wav) = tagBytes "data" /\
  getUint 4 wav 40 = (dataSize mod 2 ^ 32)%Z.
Proof.
  cbv zeta. rewrite audioBufferToWav_eq.
  set (numOfChan := Z.of_nat (numberOfChannels buffer)).
  set (frames := Z.of_nat (buffer_length buffer)).
  set (payload := flat_map _ _).
  unfold getUint. change (firstn 4 (wavHeader numOfChan (sampleRate buffer)
                                      (frames * numOfChan * 2 + 44) ++ payload))
    with (firstn 4 (skipn 0 (wavHeader numOfChan (sampleRate buffer)
                               (frames * numOfChan * 2 + 44) ++ payload))).
  rewrite !header_window by lia.
  unfold wavHeader, setUint32, setUint16, pos.
  cbn [app le_bytes firstn skipn List.length].
  rewrite !le_value_4, !le_value_2.
  repeat split; try reflexivity.
  - f_equal. lia.
  - f_equal. change (Z.of_nat 40) with 40%Z. lia.
Qed.

(** * What the scan finds *)

Lemma sound_not_silent x : isSound x = true -> isSilent x = false.
Proof.
  unfold isSound, isSilent. intros H. apply Qltb_lt in H. apply Qltb_ge. lra.
Qed.

Lemma covered_snoc intervals iv j :
  covered intervals j -> covered (intervals ++ [iv]) j.
Proof.
  intros (iv' & Hin & Hj). exists iv'. split; [apply in_or_app; left; exact Hin | exact Hj].
Qed.

Lemma covered_last intervals s e j :
  (s <= j < e)%nat -> covered (intervals ++ [{| start := s; end_ := e |}]) j.
Proof.
  intros Hj. exists {| start := s; end_ := e |}. split; [|exact Hj].
  apply in_or_app. right. left. reflexivity.
Qed.

Section ScanFound.

Variable channelData : list Q.
Variable minSamples : Z.

Local Notation "'n'" := (List.length channelData).
Local Notation "'step'" := (scanStep channelData minSamples).

Lemma scanStep_found st :
  scanInv channelData st /\ scanFound channelData st -> (index st < n)%nat ->
  scanInv channelData (step st) /\ scanFound channelData (step st).
Proof.
  intros [Hinv (Hiv & Hopen & Hcov)] Hi.
  split; [apply scanStep_inv; assumption|].
  pose proof (scanStep_index channelData minSamples st Hi) as Hidx.
  destruct Hinv as [_ Hinv]. revert Hidx. unfold scanFound, scanStep.
  destruct (inSound st) eqn:Es; cbn [negb andb].
  - destruct Hinv as [_ Hstart].
    destruct (isSilent (nth (index st) channelData 0)) eqn:E.
    + pose proof (silentRun_pos channelData (index st) Hi E) as Hpos.
      assert (Hrun : forall j, (index st <= j < index st + silentRun (skipn (index st) channelData))%nat ->
                isSound (nth j channelData 0) = false).
      { intros j Hj. destruct (isSound (nth j channelData 0)) eqn:Ej; [|reflexivity].
        apply sound_not_silent in Ej.
        replace j with (index st + (j - index st))%nat in Ej by lia.
        rewrite <- nth_skipn, silentRun_silent in Ej by lia. discriminate. }
      replace (S (index st + silentRun (skipn (index st) channelData) - 1))
        with (index st + silentRun (skipn (index st) channelData))%nat by lia.
      destruct (minSamples <=? _)%Z; cbn [index inSound soundStart soundIntervals]; intros Hidx.
      * refine (conj _ (conj _ _)).
        -- intros iv Hin; cbn [index inSound soundStart soundIntervals] in Hin |- *. apply in_app_or in Hin. destruct Hin as [Hin|[<-|[]]].
           ++ apply Hiv, Hin.
           ++ cbn [start end_]. repeat split; [apply Hopen; reflexivity | exact Hi | exact E].
        -- discriminate.
        -- intros j Hj Hs; cbn [index inSound soundStart soundIntervals] in Hj |- *. left.
           destruct (Nat.lt_ge_cases j (index st)) as [Hlt|Hge].
           ++ destruct (Hcov j Hlt Hs) as [Hc|[_ Hc]].
              ** apply covered_snoc, Hc.
              ** apply covered_last. lia.
           ++ rewrite Hrun in Hs by lia. discriminate.
      * refine (conj _ (conj _ _)).
        -- exact Hiv.
        -- intros _. apply Hopen. reflexivity.
        -- intros j Hj Hs; cbn [index inSound soundStart soundIntervals] in Hj |- *.
           destruct (Nat.lt_ge_cases j (index st)) as [Hlt|Hge].
           ++ destruct (Hcov j Hlt Hs) as [Hc|[_ Hc]]; [left; exact Hc | right; split; [reflexivity | exact Hc]].
           ++ right. split; [reflexivity | lia].
    + cbn [index inSound soundStart soundIntervals]. intros Hidx. refine (conj _ (conj _ _)).
      * exact Hiv.
      * intros _. apply Hopen. reflexivity.
      * intros j Hj Hs; cbn [index inSound soundStart soundIntervals] in Hj |- *. destruct (Nat.lt_ge_cases j (index st)) as [Hlt|Hge].
        -- destruct (Hcov j Hlt Hs) as [Hc|[_ Hc]]; [left; exact Hc | right; split; [reflexivity | exact Hc]].
        -- right. split; [reflexivity | lia].
  - destruct (isSound (nth (index st) channelData 0)) eqn:E;
      cbn [index inSound soundStart soundIntervals]; intros Hidx; refine (conj _ (conj _ _)).
    + exact Hiv.
    + intros _. exact E.
    + intros j Hj Hs; cbn [index inSound soundStart soundIntervals] in Hj |- *. destruct (Nat.lt_ge_cases j (index st)) as [Hlt|Hge].
      * destruct (Hcov j Hlt Hs) as [Hc|[Hc _]]; [left; exact Hc | discriminate].
      * right. split; [reflexivity | lia].
    + exact Hiv.
    + rewrite ?Es. discriminate.
    + intros j Hj Hs; cbn [index inSound soundStart soundIntervals] in Hj |- *. destruct (Nat.lt_ge_cases j (index st)) as [Hlt|Hge].
      * destruct (Hcov j Hlt Hs) as [Hc|[Hc _]]; [left; exact Hc | rewrite ?Es in Hc; discriminate].
      * replace j with (index st) in Hs by lia. rewrite E in Hs. discriminate.
Qed.

Lemma scanLoop_found :
  let st := scanLoop n channelData minSamples initialState in
  scanInv channelData st /\ scanFound channelData st /\ index st = n.
Proof.
  cbv zeta.
  assert (H : (fun st => scanInv channelData st /\ scanFound channelData st)
                (scanLoop n channelData minSamples initialState)).
  { apply scanLoop_invariant; [exact scanStep_found|]. split.
    - split; simpl; lia.
    - refine (conj _ (conj _ _)); simpl; try discriminate; try tauto. intros j Hj. lia. }
  destruct H as [H1 H2]. refine (conj H1 (conj H2 _)).
  apply scanLoop_exits; simpl; lia.
Qed.

(** No sample above the threshold is left out: each one lies in a detected
    interval. *)
Lemma scan_covers j :
  (j < n)%nat -> isSound (nth j channelData 0) = true ->
  covered (detectSound channelData minSamples) j.
Proof.
  intros Hj Hs. destruct scanLoop_found as ([_ Hinv] & (_ & _ & Hcov) & Hidx).
  unfold detectSound. rewrite <- Hidx in Hj.
  destruct (Hcov j Hj Hs) as [Hc|[Hin Hc]].
  - destruct (inSound _); [apply covered_snoc|]; exact Hc.
  - rewrite Hin. apply covered_last. rewrite Hidx in Hj. lia.
Qed.

(** X8: every detected interval begins at a sample above the threshold, and
    one that ends before the end of the channel ends at a sample below
    it. *)
Theorem detectSound_edges iv :
  In iv (detectSound channelData minSamples) ->
  isSound (nth (start iv) channelData 0) = true /\
  ((end_ iv < n)%nat -> isSilent (nth (end_ iv) channelData 0) = true).
Proof.
  destruct scanLoop_found as (_ & (Hiv & Hopen & _) & _).
  unfold detectSound. intros Hin.
  assert (Hclosed : In iv (soundIntervals (scanLoop n channelData minSamples initialState)) ->
    isSound (nth (start iv) channelData 0) = true /\
    ((end_ iv < n)%nat -> isSilent (nth (end_ iv) channelData 0) = true)).
  { intros H. destruct (Hiv iv H) as (H1 & _ & H3). split; [exact H1 | intros _; exact H3]. }
  destruct (inSound _) eqn:Es; [|apply Hclosed, Hin].
  apply in_app_or in Hin. destruct Hin as [Hin|[<-|[]]]; [apply Hclosed, Hin|].
  cbn [start end_]. split; [apply Hopen; reflexivity | lia].
Qed.

(** X9: the scan stops with its index at the end of the channel, the jump
    over a silent run never passing it, and within as many turns as the
    channel has samples: more turns change nothing. *)
Theorem scan_terminates fuel :
  (n <= fuel)%nat ->
  scanLoop fuel channelData minSamples initialState
  = scanLoop n channelData minSamples initialState /\
  index (scanLoop n channelData minSamples initialState) = n.
Proof.
  intros Hf. split.
  - replace fuel with (n + (fuel - n))%nat by lia.
    apply scanLoop_more_fuel; simpl; lia.
  - apply scanLoop_exits; simpl; lia.
Qed.

(** X10: the detected intervals are not empty, follow one another without
    overlap and lie within the channel. *)
Theorem detectSound_intervals_bounded :
  chain 0 (detectSound channelData minSamples) n /\
  Forall (fun iv => (start iv < end_ iv <= n)%nat) (detectSound channelData minSamples).
Proof.
  pose proof (detectSound_chain channelData minSamples) as H.
  split; [exact H|]. eapply Forall_impl; [|apply (chain_each _ _ _ H)].
  intros iv [H1 H2]. lia.
Qed.

End ScanFound.

(** X11: every sample that falls outside the detected intervals, and so is
    dropped, is at or below the silence threshold. *)
Theorem dropped_samples_quiet channelData minSamples j :
  ~ covered (detectSound channelData minSamples) j ->
  Qabs (nth j channelData 0) <= silenceThreshold.
Proof.
  intros Hn. destruct (isSound (nth j channelData 0)) eqn:E.
  - exfalso. apply Hn. apply scan_covers; [|exact E].
    destruct (Nat.lt_ge_cases j (List.length channelData)) as [H|H]; [exact H|].
    rewrite nth_overflow in E by exact H. revert E. vm_compute. discriminate.
  - unfold isSound in E. apply Qltb_ge in E. exact E.
Qed.

(** X11, witness: the quiet sample before the sound. *)
Lemma dropped_samples_quiet_witness :
  Qabs (nth 0 [1 # 200; 1 # 2; 0] 0) <= silenceThreshold.
Proof.
  apply (dropped_samples_quiet [1 # 200; 1 # 2; 0] 4800 0).
  intros (iv & Hin & Hj). vm_compute in Hin. destruct Hin as [<-|[]].
  cbn [start end_] in Hj. lia.
Defined.

(** X8, witness: a sound, a pause of two samples, a sound. *)
Lemma detectSound_edges_witness :
  let channelData := [1 # 2; 0; 0; 1 # 2] in
  let iv := {| start := 0; end_ := 1 |} in
  isSound (nth (start iv) channelData 0) = true /\
  ((end_ iv < List.length channelData)%nat ->
   isSilent (nth (end_ iv) channelData 0) = true).
Proof.
  intros channelData iv. apply (detectSound_edges channelData 2 iv).
  vm_compute. left. reflexivity.
Defined.

(** X9, witness: twice the turns needed. *)
Lemma scan_terminates_witness :
  let channelData := [1 # 2; 0; 0; 1 # 2] in
  scanLoop 8 channelData 2 initialState
  = scanLoop (List.length channelData) channelData 2 initialState /\
  index (scanLoop (List.length channelData) channelData 2 initialState)
  = List.length channelData.
Proof.
  intros channelData. apply (scan_terminates channelData 2 8). vm_compute. lia.
Defined.

Lemma spaced_weaken gap intervals : forall lo hi hi',
  spaced gap lo intervals hi -> (hi <= hi')%Z -> spaced gap lo intervals hi'.
Proof.
  induction intervals as [|iv rest IH]; simpl; intros lo hi hi' H Hle; [lia|].
  destruct H as [H1 H2]. split; [exact H1 | eapply IH; eassumption].
Qed.

Lemma spaced_snoc gap intervals : forall lo mid s e hi,
  spaced gap lo intervals mid -> (mid <= Z.of_nat s)%Z -> (Z.of_nat e + gap <= hi)%Z ->
  spaced gap lo (intervals ++ [{| start := s; end_ := e |}]) hi.
Proof.
  induction intervals as [|iv rest IH]; simpl; intros lo mid s e hi H Hs He.
  - split; lia.
  - destruct H as [H1 H2]. split; [exact H1 | eapply IH; eassumption].
Qed.

(** Two neighbouring intervals lie at least [gap] apart. *)
Lemma spaced_neighbours gap before iv1 iv2 after : forall lo hi,
  spaced gap lo (before ++ iv1 :: iv2 :: after) hi ->
  (Z.of_nat (end_ iv1) + gap <= Z.of_nat (start iv2))%Z.
Proof.
  induction before as [|iv rest IH]; simpl; intros lo hi H.
  - destruct H as (_ & H & _). exact H.
  - destruct H as [_ H]. eapply IH. exact H.
Qed.

Section ScanSpaced.

Variable channelData : list Q.
Variable minSamples : Z.

Local Notation "'n'" := (List.length channelData).
Local Notation "'step'" := (scanStep channelData minSamples).

Lemma scanStep_spaced st :
  scanSpaced minSamples st -> (index st < n)%nat -> scanSpaced minSamples (step st).
Proof.
  unfold scanSpaced. intros H Hi.
  pose proof (scanStep_index channelData minSamples st Hi) as Hidx. revert Hidx.
  unfold scanStep.
  destruct (inSound st) eqn:Es; cbn [negb andb].
  - destruct (isSilent (nth (index st) channelData 0)) eqn:E.
    + pose proof (silentRun_pos channelData (index st) Hi E) as Hpos.
      replace (S (index st + silentRun (skipn (index st) channelData) - 1))
        with (index st + silentRun (skipn (index st) channelData))%nat by lia.
      replace (index st + silentRun (skipn (index st) channelData) - index st)%nat
        with (silentRun (skipn (index st) channelData)) by lia.
      destruct (Z.leb_spec minSamples (Z.of_nat (silentRun (skipn (index st) channelData))));
        cbn [index inSound soundStart soundIntervals]; intros Hidx.
      * eapply spaced_snoc; [exact H | lia | lia].
      * exact H.
    + cbn [index inSound soundStart soundIntervals]. intros _. exact H.
  - destruct (isSound (nth (index st) channelData 0));
      cbn [index inSound soundStart soundIntervals]; intros Hidx.
    + eapply spaced_weaken; [exact H | lia].
    + eapply spaced_weaken; [exact H | lia].
Qed.

(** X12: between the end of a detected interval and the start of the next lie
    at least [minSamples] samples: only a silent run that reaches the
    minimum splits the sound. *)
Theorem detectSound_spaced before iv1 iv2 after :
  detectSound channelData minSamples = before ++ iv1 :: iv2 :: after ->
  (Z.of_nat (end_ iv1) + minSamples <= Z.of_nat (start iv2))%Z.
Proof.
  intros E.
  assert (H : scanSpaced minSamples (scanLoop n channelData minSamples initialState)).
  { apply scanLoop_invariant; [exact scanStep_spaced|]. unfold scanSpaced. simpl. lia. }
  unfold scanSpaced in H. unfold detectSound in E.
  destruct (inSound (scanLoop n channelData minSamples initialState)).
  - assert (Hs : spaced minSamples (- minSamples)
                   (before ++ iv1 :: iv2 :: after) (Z.of_nat n + minSamples)).
    { rewrite <- E. eapply spaced_snoc; [exact H | lia | lia]. }
    eapply spaced_neighbours. exact Hs.
  - rewrite E in H. eapply spaced_neighbours. exact H.
Qed.

End ScanSpaced.

(** X12, witness: a sound, a pause of two samples, a sound,
    with a minimum of two silent samples. *)
Lemma detectSound_spaced_witness :
  (Z.of_nat (end_ {| start := 0; end_ := 1 |}) + 2
   <= Z.of_nat (start {| start := 3; end_ := 4 |}))%Z.
Proof.
  apply (detectSound_spaced [1 # 2; 0; 0; 1 # 2] 2 []
           {| start := 0; end_ := 1 |} {| start := 3; end_ := 4 |} []).
  vm_compute. reflexivity.
Defined.

(** * The length of the trimmed buffer *)

(** The retained samples and the gaps between the intervals fit in
    [hi - lo]. *)
Lemma spaced_total gap intervals : forall lo hi c n,
  chain c intervals n -> spaced gap lo intervals hi ->
  (Z.of_nat (sumLengths intervals) + (Z.of_nat (List.length intervals) + 1) * gap
   <= hi - lo)%Z.
Proof.
  unfold sumLengths.
  induction intervals as [|iv rest IH]; intros lo hi c n Hc Hs.
  - cbn [map list_sum fold_right List.length spaced] in *. lia.
  - destruct Hc as (H1 & H2 & H3). destruct Hs as [H4 H5].
    specialize (IH _ _ _ _ H3 H5).
    unfold list_sum in *. cbn [map fold_right List.length].
    rewrite Nat2Z.inj_add, Nat2Z.inj_sub by lia. rewrite Nat2Z.inj_succ. nia.
Qed.

Lemma detectSound_spacing channelData minSamples :
  (0 <= minSamples)%Z ->
  spaced minSamples (- minSamples) (detectSound channelData minSamples)
         (Z.of_nat (List.length channelData) + minSamples).
Proof.
  intros Hpos.
  assert (H : scanSpaced minSamples
                (scanLoop (List.length channelData) channelData minSamples initialState)).
  { apply scanLoop_invariant; [exact (scanStep_spaced channelData minSamples)|].
    unfold scanSpaced. simpl. lia. }
  assert (Hidx : index (scanLoop (List.length channelData) channelData minSamples initialState)
                 = List.length channelData)
    by (apply scanLoop_exits; simpl; lia).
  unfold scanSpaced in H. unfold detectSound.
  destruct (inSound _).
  - eapply spaced_snoc; [exact H | lia | lia].
  - eapply spaced_weaken; [exact H | lia].
Qed.

(** The retained samples and a minimal silence between each two retained
    intervals fit in the channel. *)
Lemma retained_and_gaps channelData minSamples :
  let intervals := detectSound channelData minSamples in
  (1 <= List.length intervals)%nat ->
  (Z.of_nat (sumLengths intervals) + (Z.of_nat (List.length intervals) - 1) * minSamples
   <= Z.of_nat (List.length channelData))%Z.
Proof.
  intros intervals Hk.
  pose proof (detectSound_chain channelData minSamples) as Hc. fold intervals in Hc.
  destruct (Z_lt_le_dec minSamples 0) as [Hneg|Hpos].
  - pose proof (chain_bounds _ _ _ Hc) as Hb. nia.
  - pose proof (spaced_total _ _ _ _ _ _ Hc (detectSound_spacing channelData minSamples Hpos))
      as Ht.
    fold intervals in Ht. lia.
Qed.

Lemma paddingSamples_nonpos rate : (rate <= 0)%Z -> (paddingSamples rate <= 0)%Z.
Proof.
  intros H. unfold paddingSamples. change 0%Z with (Qfloor 0). apply Qfloor_resp_le.
  apply round_nonpos.
  assert (Hp : 0 <= paddingDuration) by (vm_compute; discriminate).
  assert (Hr : inject_Z rate <= 0) by (rewrite (Zle_Qle rate 0) in H; exact H).
  nra.
Qed.

(** Twice the padding is never more than the minimal silence: 0.2 s
    against 0.3 s, whatever the roundings. *)
Lemma padding_twice rate :
  (1 <= rate)%Z ->
  (0 <= paddingSamples rate)%Z /\ (2 * paddingSamples rate <= minSilenceSamples rate)%Z.
Proof.
  intros H. unfold paddingSamples, minSilenceSamples.
  assert (Hp : 0 <= paddingDuration /\ paddingDuration <= 1001 # 10000)
    by (split; vm_compute; discriminate).
  assert (Hm : 2999 # 10000 <= minSilenceDuration /\ minSilenceDuration <= 1)
    by (split; vm_compute; discriminate).
  assert (Hr : 1 <= inject_Z rate) by (rewrite (Zle_Qle 1 rate) in H; exact H).
  set (r := inject_Z rate) in *.
  set (a := paddingDuration * r). set (b := minSilenceDuration * r).
  assert (Ha : 0 <= a /\ a <= (1001 # 10000) * r) by (unfold a; split; nra).
  assert (Hb : (2999 # 10000) * r <= b) by (unfold b; nra).
  assert (U : 0 <= 2 ^ (- (53)) /\ 2 ^ (- (53)) <= 1 # 1000000000000 /\
              0 <= 2 ^ (-1074 - 1) /\ 2 ^ (-1074 - 1) <= 1 # 1000000000000)
    by (repeat split; vm_compute; discriminate).
  destruct U as (U1 & U2 & U3 & U4).
  assert (Ea : Qabs a * 2 ^ (- (53)) + 2 ^ (-1074 - 1)
               <= a * (1 # 1000000000000) + (1 # 1000000000000)).
  { rewrite (Qabs_pos a) by apply Ha.
    generalize dependent (2 ^ (- (53))). generalize dependent (2 ^ (-1074 - 1)).
    intros. nra. }
  assert (Eb : Qabs b * 2 ^ (- (53)) + 2 ^ (-1074 - 1)
               <= b * (1 # 1000000000000) + (1 # 1000000000000)).
  { rewrite (Qabs_pos b) by lra.
    generalize dependent (2 ^ (- (53))). generalize dependent (2 ^ (-1074 - 1)).
    intros. nra. }
  pose proof (round_bounds 53 (-1074) a _ Ea) as [_ Ra].
  pose proof (round_bounds 53 (-1074) b _ Eb) as [Rb _].
  fold dround in Ra, Rb.
  assert (Hda : 0 <= dround a) by (apply round_nonneg, Ha).
  split.
  - change 0%Z with (Qfloor 0). apply Qfloor_resp_le, Hda.
  - pose proof (Qfloor_le (dround a)) as Fa.
    assert (Hle : inject_Z (2 * Qfloor (dround a)) <= dround b).
    { rewrite inject_Z_mult. change (inject_Z 2) with 2. lra. }
    apply Qfloor_resp_le in Hle. rewrite Qfloor_Z in Hle. exact Hle.
Qed.

(** C5 (as amended): when the channel contains a sample below the
    threshold, the output is never more than twice [paddingSamples] longer
    than the input, however many sound intervals are retained: it holds
    the retained samples and twice the padding for every retained
    interval, and two retained intervals are at least [minSilenceSamples]
    apart, which is more than the padding of one of them.  At 16 kHz, the
    rate at which the stage runs, the output is at most as long as the
    input from three retained intervals on. *)
Theorem C5_removeSilence_length (buffer : AudioBuffer) :
  hasSilence (getChannelData buffer 0) ->
  let intervals := detectSound (getChannelData buffer 0)
                     (minSilenceSamples (sampleRate buffer)) in
  let padding := Z.to_nat (paddingSamples (sampleRate buffer)) in
  exists out,
    step2_removeSilence buffer = inr out /\
    (sumLengths intervals <= buffer_length buffer)%nat /\
    buffer_length out
    = match intervals with
      | [] => 1%nat
      | _ :: _ => (sumLengths intervals + 2 * padding * List.length intervals)%nat
      end /\
    (buffer_length out <= buffer_length buffer + 2 * padding)%nat /\
    ((1 <= List.length intervals)%nat ->
     (Z.of_nat (buffer_length out)
      + (Z.of_nat (List.length intervals) - 1) * minSilenceSamples (sampleRate buffer)
      <= Z.of_nat (buffer_length buffer)
         + 2 * Z.of_nat padding * Z.of_nat (List.length intervals))%Z) /\
    (sampleRate buffer = 16000%Z -> (3 <= List.length intervals)%nat ->
     (buffer_length out <= buffer_length buffer)%nat).
Proof.
  intros (i & Hi & _) intervals padding.
  rewrite step2_removeSilence_eq. eexists. split; [reflexivity|].
  pose proof (detectSound_chain (getChannelData buffer 0)
                (minSilenceSamples (sampleRate buffer))) as Hc.
  pose proof (retained_and_gaps (getChannelData buffer 0)
                (minSilenceSamples (sampleRate buffer))) as Hgaps.
  cbv zeta in Hgaps.
  fold intervals in Hc, Hgaps |- *. fold padding.
  pose proof (chain_bounds _ _ _ Hc) as Hb. simpl in Hb.
  pose proof (chain_each _ _ _ Hc) as He.
  assert (Hlen : buffer_length
            {| sampleRate := sampleRate buffer;
               channels := [match intervals with
                            | [] => [0]
                            | _ :: _ => List.concat (map (piece (getChannelData buffer 0) padding)
                                                         intervals)
                            end] |}
          = match intervals with
            | [] => 1%nat
            | _ :: _ => (sumLengths intervals + 2 * padding * List.length intervals)%nat
            end).
  { unfold buffer_length, getChannelData. cbn [channels nth].
    destruct intervals as [|iv rest] eqn:E; [reflexivity|]. rewrite <- E in *.
    rewrite pieces_length, totalLength_sum; [reflexivity|].
    eapply Forall_impl; [|exact He]. simpl. intros ? [_ H]. exact H. }
  split; [exact Hb|]. split; [exact Hlen|]. rewrite Hlen.
  fold (buffer_length buffer) in Hb, Hi, Hgaps.
  assert (Hpad : (padding = 0%nat \/
                  2 * Z.of_nat padding <= minSilenceSamples (sampleRate buffer))%Z).
  { destruct (Z_lt_le_dec (sampleRate buffer) 1) as [Hr|Hr].
    - left. unfold padding.
      pose proof (paddingSamples_nonpos (sampleRate buffer) ltac:(lia)). lia.
    - right. destruct (padding_twice (sampleRate buffer) Hr) as [H0 H2].
      unfold padding. rewrite Z2Nat.id by exact H0. exact H2. }
  assert (Hk : match intervals with
               | [] => 1%nat
               | _ :: _ => (sumLengths intervals + 2 * padding * List.length intervals)%nat
               end
               = match List.length intervals with
                 | O => 1%nat
                 | S _ => (sumLengths intervals + 2 * padding * List.length intervals)%nat
                 end) by (destruct intervals; reflexivity).
  rewrite Hk. clear Hk Hlen.
  set (k := List.length intervals) in *. set (S := sumLengths intervals) in *.
  set (m := minSilenceSamples (sampleRate buffer)) in *.
  set (n := buffer_length buffer) in *.
  refine (conj _ (conj _ _)).
  - destruct k as [|k']; [lia|]. specialize (Hgaps ltac:(lia)).
    destruct Hpad as [Hz|Hz]; [rewrite Hz; lia | nia].
  - intros Hk1. specialize (Hgaps Hk1). destruct k as [|k']; [lia|]. nia.
  - intros Hrate Hk3. specialize (Hgaps ltac:(lia)).
    assert (Hm : m = 4800%Z) by (unfold m; rewrite Hrate; vm_compute; reflexivity).
    assert (Hp : padding = 1600%nat)
      by (unfold padding; rewrite Hrate; vm_compute; reflexivity).
    rewrite Hm in Hgaps. rewrite Hp. destruct k as [|k']; [lia|]. lia.
Qed.

(** C5, witness: three sounds 4800 silent samples apart at 16 kHz, where
    the padding of 9600 samples is no more than the silence removed. *)
Lemma C5_removeSilence_length_witness :
  let buffer := {| sampleRate := 16000;
                   channels := [[1 # 2] ++ repeat 0 4800 ++ [1 # 2]
                                ++ repeat 0 4800 ++ [1 # 4]] |} in
  let intervals := detectSound (getChannelData buffer 0)
                     (minSilenceSamples (sampleRate buffer)) in
  let padding := Z.to_nat (paddingSamples (sampleRate buffer)) in
  exists out,
    step2_removeSilence buffer = inr out /\
    (sumLengths intervals <= buffer_length buffer)%nat /\
    buffer_length out
    = match intervals with
      | [] => 1%nat
      | _ :: _ => (sumLengths intervals + 2 * padding * List.length intervals)%nat
      end /\
    (buffer_length out <= buffer_length buffer + 2 * padding)%nat /\
    ((1 <= List.length intervals)%nat ->
     (Z.of_nat (buffer_length out)
      + (Z.of_nat (List.length intervals) - 1) * minSilenceSamples (sampleRate buffer)
      <= Z.of_nat (buffer_length buffer)
         + 2 * Z.of_nat padding * Z.of_nat (List.length intervals))%Z) /\
    (sampleRate buffer = 16000%Z -> (3 <= List.length intervals)%nat ->
     (buffer_length out <= buffer_length buffer)%nat).
Proof.
  intros buffer. apply (C5_removeSilence_length buffer).
  exists 1%nat. split; [vm_compute; lia | vm_compute; reflexivity].
Defined.

(** C5, counterexample: three samples, two of them silent, become 3202. *)
Lemma C5_counterexample :
  let buffer := {| sampleRate := 16000; channels := [[0; 1 # 2; 0]] |} in
  let out := {| sampleRate := 16000;
                channels := [repeat 0 1600 ++ [1 # 2; 0] ++ repeat 0 1600] |} in
  hasSilence (getChannelData buffer 0) /\
  step2_removeSilence buffer = inr out /\
  ~ (buffer_length out <= buffer_length buffer)%nat.
Proof.
  cbv zeta. split; [|split].
  - exists 0%nat. split; [simpl; lia | vm_compute; reflexivity].
  - vm_compute. reflexivity.
  - vm_compute. lia.
Qed.

(** * Nothing above the threshold is lost *)

Lemma filter_none {A} (f : A -> bool) l :
  (forall x, In x l -> f x = false) -> filter f l = [].
Proof.
  induction l as [|a l IH]; intros H; simpl; [reflexivity|].
  rewrite (H a (or_introl eq_refl)). apply IH. intros x Hx. apply H. right. exact Hx.
Qed.

Lemma firstn_plus {A} (a b : nat) : forall l : list A,
  firstn (a + b) l = firstn a l ++ firstn b (skipn a l).
Proof.
  induction a as [|a IH]; intros l; [reflexivity|].
  destruct l as [|x l]; simpl; [now rewrite firstn_nil|]. now rewrite IH.
Qed.

Lemma slice_split (data : list Q) a b c :
  (a <= b)%nat -> (b <= c)%nat -> slice data a c = slice data a b ++ slice data b c.
Proof.
  intros Hab Hbc. unfold slice.
  replace (c - a)%nat with ((b - a) + (c - b))%nat by lia.
  rewrite firstn_plus, skipn_skipn. replace (b - a + a)%nat with b by lia. reflexivity.
Qed.

Lemma slice_In (data : list Q) a b x :
  (b <= List.length data)%nat -> In x (slice data a b) ->
  exists j, (a <= j < b)%nat /\ nth j data 0 = x.
Proof.
  intros Hb Hin. apply (In_nth _ _ 0) in Hin. destruct Hin as (k & Hk & Hx).
  rewrite slice_length in Hk by exact Hb.
  exists (a + k)%nat. split; [lia|]. rewrite <- Hx. unfold slice.
  rewrite nth_firstn. destruct (Nat.ltb_spec k (b - a)); [|lia].
  symmetry. apply nth_skipn.
Qed.

Lemma chain_starts intervals : forall lo hi iv,
  chain lo intervals hi -> In iv intervals -> (lo <= start iv)%nat.
Proof.
  induction intervals as [|iv' rest IH]; simpl; intros lo hi iv H Hin; [destruct Hin|].
  destruct H as (H1 & H2 & H3). destruct Hin as [<-|Hin]; [exact H1|].
  specialize (IH _ _ _ H3 Hin). lia.
Qed.

(** The sound samples of a stretch are those of the intervals in it, when
    the intervals cover every sound sample of the stretch. *)
Lemma filter_sound_chain (data : list Q) intervals : forall lo hi,
  chain lo intervals hi -> (hi <= List.length data)%nat ->
  (forall j, (lo <= j < hi)%nat -> isSound (nth j data 0) = true -> covered intervals j) ->
  filter isSound (slice data lo hi)
  = filter isSound (List.concat (map (fun iv => slice data (start iv) (end_ iv)) intervals)).
Proof.
  induction intervals as [|iv rest IH]; intros lo hi Hc Hhi Hcov.
  - simpl. apply filter_none. intros x Hx.
    destruct (slice_In data lo hi x Hhi Hx) as (j & Hj & <-).
    destruct (isSound (nth j data 0)) eqn:E; [|reflexivity].
    destruct (Hcov j Hj E) as (iv & [] & _).
  - destruct Hc as (H1 & H2 & H3). pose proof (chain_bounds _ _ _ H3) as Hb.
    cbn [map List.concat].
    rewrite (slice_split data lo (start iv) hi) by lia.
    rewrite (slice_split data (start iv) (end_ iv) hi) by lia.
    rewrite !filter_app. rewrite (IH (end_ iv) hi H3 Hhi).
    + rewrite (filter_none isSound (slice data lo (start iv))); [reflexivity|].
      intros x Hx. destruct (slice_In data lo (start iv) x ltac:(lia) Hx) as (j & Hj & <-).
      destruct (isSound (nth j data 0)) eqn:E; [|reflexivity].
      destruct (Hcov j ltac:(lia) E) as (iv' & [<-|Hin] & Hj'); [lia|].
      pose proof (chain_starts _ _ _ _ H3 Hin). lia.
    + intros j Hj E. destruct (Hcov j ltac:(lia) E) as (iv' & [<-|Hin] & Hj'); [lia|].
      exists iv'. split; assumption.
Qed.

Lemma filter_sound_pieces (data : list Q) padding intervals :
  filter isSound (List.concat (map (piece data padding) intervals))
  = filter isSound (List.concat (map (fun iv => slice data (start iv) (end_ iv)) intervals)).
Proof.
  assert (Hz : filter isSound (repeat 0 padding) = []).
  { apply filter_none. intros x Hx. apply repeat_spec in Hx. subst. vm_compute. reflexivity. }
  induction intervals as [|iv rest IH]; [reflexivity|].
  cbn [map List.concat]. unfold piece at 1. rewrite !filter_app, Hz, IH, app_nil_r. reflexivity.
Qed.

(** X13: the samples above the threshold come out of the stage as they went
    in: all of them, in the same order. *)
Theorem step2_keeps_sound buffer :
  exists out,
    step2_removeSilence buffer = inr out /\
    filter isSound (getChannelData out 0) = filter isSound (getChannelData buffer 0).
Proof.
  rewrite step2_removeSilence_eq. eexists. split; [reflexivity|].
  unfold getChannelData at 1. cbn [channels nth].
  set (data := getChannelData buffer 0).
  set (minSamples := minSilenceSamples (sampleRate buffer)).
  set (padding := Z.to_nat (paddingSamples (sampleRate buffer))).
  pose proof (detectSound_chain data minSamples) as Hc.
  pose proof (filter_sound_chain data (detectSound data minSamples) 0 (List.length data)
                Hc (Nat.le_refl _)) as Hf.
  rewrite slice_to_end in Hf. cbn [skipn] in Hf.
  rewrite Hf by (intros j Hj E; apply scan_covers; [lia | exact E]).
  destruct (detectSound data minSamples) as [|iv rest] eqn:E.
  - vm_compute. reflexivity.
  - apply filter_sound_pieces.
Qed.

(** * More on the noise gate *)

Lemma attenuated_mono x y :
  x <= y ->
  fround (dround (x * reductionAmount)) <= fround (dround (y * reductionAmount)).
Proof.
  intros H. destruct constants_gate as [H0 _].
  unfold fround, dround. apply round_mono; [lia|]. apply round_mono; [lia|].
  apply Qmult_le_compat_r; assumption.
Qed.

Lemma loud_cases x : noiseThreshold <= Qabs x -> noiseThreshold <= x \/ x <= - noiseThreshold.
Proof.
  intros H. destruct (Qlt_le_dec x 0) as [Hn|Hp].
  - right. rewrite (Qabs_neg x) in H by lra. lra.
  - left. rewrite (Qabs_pos x) in H by exact Hp. exact H.
Qed.

(** The gate is monotone: the attenuated samples stay between the
    thresholds, where the others never are. *)
Lemma gateSample_mono x y : x <= y -> gateSample x <= gateSample y.
Proof.
  intros Hxy.
  assert (Ht : 0 < noiseThreshold) by (vm_compute; reflexivity).
  assert (Hup : fround (dround (noiseThreshold * reductionAmount)) <= noiseThreshold)
    by (vm_compute; discriminate).
  assert (Hdn : - noiseThreshold <= fround (dround (- noiseThreshold * reductionAmount)))
    by (vm_compute; discriminate).
  destruct (Qlt_le_dec (Qabs x) noiseThreshold) as [Hx|Hx];
    destruct (Qlt_le_dec (Qabs y) noiseThreshold) as [Hy|Hy].
  - rewrite (gateSample_below x Hx), (gateSample_below y Hy). apply attenuated_mono, Hxy.
  - rewrite (gateSample_below x Hx), (gateSample_above y Hy).
    apply Qabs_Qlt_condition in Hx. destruct (loud_cases y Hy) as [H|H]; [|lra].
    pose proof (attenuated_mono x noiseThreshold ltac:(lra)). lra.
  - rewrite (gateSample_above x Hx), (gateSample_below y Hy).
    apply Qabs_Qlt_condition in Hy. destruct (loud_cases x Hx) as [H|H]; [lra|].
    pose proof (attenuated_mono (- noiseThreshold) y ltac:(lra)). lra.
  - rewrite (gateSample_above x Hx), (gateSample_above y Hy). exact Hxy.
Qed.

(** X14: the gate keeps the number of samples and their order: a sample that
    was not above another is not above it afterwards, and no sample
    changes sign. *)
Theorem gate_keeps_order buffer i j :
  let input := getChannelData buffer 0 in
  let output := getChannelData (step3_noiseReduction buffer) 0 in
  List.length output = List.length input /\
  (nth i input 0 <= nth j input 0 -> nth i output 0 <= nth j output 0) /\
  (0 <= nth i input 0 -> 0 <= nth i output 0) /\
  (nth i input 0 <= 0 -> nth i output 0 <= 0).
Proof.
  cbv zeta. unfold step3_noiseReduction, setChannelData0, getChannelData at 1 3 5 7 9.
  cbn [channels nth]. set (data := getChannelData buffer 0).
  assert (Hz : gateSample 0 = 0) by (vm_compute; reflexivity).
  assert (Hn : forall k, nth k (map gateSample data) 0 = gateSample (nth k data 0)).
  { intros k. rewrite <- Hz at 1. apply (map_nth gateSample data 0 k). }
  rewrite !Hn, length_map.
  refine (conj eq_refl (conj _ (conj _ _))); intros Hx.
  - apply gateSample_mono, Hx.
  - rewrite <- Hz. apply gateSample_mono, Hx.
  - rewrite <- Hz. apply gateSample_mono, Hx.
Qed.

(** * More on the normalizer *)

Lemma peak_from_each channelData x : forall a,
  In x channelData ->
  Qabs x <= fold_left (fun max val => Qmax max (Qabs val)) channelData a.
Proof.
  induction channelData as [|y rest IH]; intros a Hin; [destruct Hin|].
  simpl. destruct Hin as [->|Hin].
  - eapply Qle_trans; [apply Q.le_max_r | apply peak_from_ge].
  - apply IH, Hin.
Qed.

Lemma peak_each channelData x : In x channelData -> Qabs x <= peak channelData.
Proof. apply peak_from_each. Qed.

Lemma gain_nonneg max : 0 < max -> 0 <= fround (dround (targetPeak / max)).
Proof.
  intros Hmax. apply round_nonneg, round_nonneg. apply Qle_shift_div_l; [exact Hmax|].
  rewrite Qmult_0_l. vm_compute. discriminate.
Qed.

(** X15: whatever the normalizer returns stays inside full scale: no sample of
    its output exceeds 0.9501 in magnitude, so the encoder that follows
    clamps nothing. *)
Theorem normalized_within_full_scale buffer :
  float32_array (getChannelData buffer 0) ->
  Forall (fun y => Qabs y <= 9501 # 10000 /\ clamp y == y)
         (getChannelData (step4_normalizeVolume buffer) 0).
Proof.
  intros Hf.
  assert (Hfl : 0 < negligibleFloor /\ negligibleFloor <= 9501 # 10000)
    by (split; vm_compute; [reflexivity | discriminate]).
  assert (Hpk : peak (getChannelData (step4_normalizeVolume buffer) 0) <= 9501 # 10000).
  { unfold step4_normalizeVolume. set (max := peak (getChannelData buffer 0)).
    destruct (Qlt_le_dec negligibleFloor max) as [H|H].
    - rewrite (proj2 (Qltb_lt _ _) H).
      unfold renderGain, getChannelData at 1. cbn [channels nth].
      rewrite (peak_renderGain _ _ (gain_nonneg max ltac:(lra))). fold max.
      pose proof (normalized_peak_close max H (peak_float32 _ Hf)) as Hc.
      apply Qabs_Qle_condition in Hc. lra.
    - rewrite (proj2 (Qltb_ge _ _) H). fold max. lra. }
  apply Forall_forall. intros y Hy. pose proof (peak_each _ y Hy) as Hle.
  assert (Hb : Qabs y <= 9501 # 10000) by lra.
  split; [exact Hb|]. apply Qabs_Qle_condition in Hb. apply clamp_inside; lra.
Qed.

(** X15, witness: a channel whose peak is 0.5. *)
Lemma normalized_within_full_scale_witness :
  let buffer := {| sampleRate := 16000; channels := [[0; 1 # 64; 1 # 2; - (1 # 128)]] |} in
  Forall (fun y => Qabs y <= 9501 # 10000 /\ clamp y == y)
         (getChannelData (step4_normalizeVolume buffer) 0).
Proof.
  intros buffer. apply (normalized_within_full_scale buffer).
  repeat constructor; vm_compute; reflexivity.
Defined.

(** X16: the normalizer keeps the number of samples and their order: a sample
    that was not above another is not above it afterwards, and no sample
    changes sign. *)
Theorem normalize_keeps_order buffer i j :
  let input := getChannelData buffer 0 in
  let output := getChannelData (step4_normalizeVolume buffer) 0 in
  List.length output = List.length input /\
  (nth i input 0 <= nth j input 0 -> nth i output 0 <= nth j output 0) /\
  (0 <= nth i input 0 -> 0 <= nth i output 0) /\
  (nth i input 0 <= 0 -> nth i output 0 <= 0).
Proof.
  cbv zeta. unfold step4_normalizeVolume. set (max := peak (getChannelData buffer 0)).
  destruct (Qlt_le_dec negligibleFloor max) as [H|H].
  - rewrite (proj2 (Qltb_lt _ _) H).
    assert (Hfl : 0 < negligibleFloor) by (vm_compute; reflexivity).
    pose proof (gain_nonneg max ltac:(lra)) as Hg.
    unfold renderGain, getChannelData at 1 3 5 7 9. cbn [channels nth].
    set (gain := fround (dround (targetPeak / max))) in *.
    set (data := getChannelData buffer 0).
    assert (Hz : fround (0 * gain) = 0) by (apply round_zero, Qmult_0_l).
    assert (Hn : forall k, nth k (map (fun x => fround (x * gain)) data) 0
                           = fround (nth k data 0 * gain)).
    { intros k. rewrite <- Hz at 1.
      apply (map_nth (fun x => fround (x * gain)) data 0 k). }
    rewrite !Hn, length_map.
    refine (conj eq_refl (conj _ (conj _ _))); intros Hx.
    + apply round_mono; [lia|]. apply Qmult_le_compat_r; assumption.
    + apply round_nonneg. apply Qmult_le_0_compat; assumption.
    + apply round_nonpos. apply Qle_trans with (0 * gain); [|rewrite Qmult_0_l; apply Qle_refl].
      apply Qmult_le_compat_r; assumption.
  - rewrite (proj2 (Qltb_ge _ _) H). tauto.
Qed.

(** * Binary32 numbers through the stages *)

Section Idem.
Variables prec emin : Z.
Hypothesis prec_pos : (1 <= prec)%Z.
Local Notation "'uexp'" := (ulp_exp prec emin).
Local Notation "'rnd'" := (round_ne prec emin).

(** A rounded number lies within the binade of its argument, upper end
    included. *)
Lemma round_abs_le_binade x :
  ~ x == 0 -> Qabs (rnd x) <= 2 ^ (Z.max (Qlog2 x + 1) emin).
Proof.
  intros Hx. rewrite round_abs.
  destruct (Qlog2_spec x Hx) as [_ Hhi].
  set (top := Z.max (Qlog2 x + 1) emin).
  assert (Ha0 : ~ Qabs x == 0).
  { intro C. apply Hx. destruct (Qabs_Qle_condition x 0) as [Hc _].
    destruct Hc as [H1 H2]; [rewrite C; apply Qle_refl|]. lra. }
  assert (Hl : Qlog2 (Qabs x) = Qlog2 x).
  { apply Qlog2_unique. rewrite (Qabs_pos (Qabs x)) by apply Qabs_nonneg.
    apply Qlog2_spec, Hx. }
  assert (He : (uexp (Qabs x) <= top)%Z) by (unfold ulp_exp, top; rewrite Hl; lia).
  assert (G : 2 ^ top == inject_Z (2 ^ (top - uexp (Qabs x))) * 2 ^ uexp (Qabs x)).
  { rewrite <- pow2_Z, <- pow2_add by lia.
    replace (top - uexp (Qabs x) + uexp (Qabs x))%Z with top by lia. reflexivity. }
  rewrite G. apply round_grid_le. rewrite <- G.
  apply Qle_trans with (2 ^ (Qlog2 x + 1)); [lra|]. apply pow2_le. unfold top. lia.
Qed.

(** Rounding twice is rounding once. *)
Lemma round_idem x : rnd (rnd x) == rnd x.
Proof.
  destruct (Qeq_dec x 0) as [Hx|Hx].
  { rewrite (round_zero prec emin x Hx). rewrite (round_zero prec emin 0); reflexivity. }
  destruct (Qeq_dec (rnd x) 0) as [Hr|Hr].
  { rewrite (round_zero prec emin (rnd x) Hr). symmetry. exact Hr. }
  destruct (Z_le_gt_dec (uexp (rnd x)) (uexp x)) as [Hle|Hgt].
  - apply (round_exact prec emin (rnd x) (rne (x * 2 ^ (- uexp x))) (uexp x) Hle).
    apply round_val.
  - (* the rounding went up to the next power of two *)
    pose proof (round_abs_le_binade x Hx) as Hup.
    destruct (Qlog2_spec (rnd x) Hr) as [Hlo _].
    assert (Htop : (Qlog2 (rnd x) <= Z.max (Qlog2 x + 1) emin)%Z).
    { apply (Qpower_le_compat_l_inv 2); [lra | reflexivity]. }
    assert (Hlog : Qlog2 (rnd x) = (Qlog2 x + 1)%Z) by (unfold ulp_exp in Hgt; lia).
    assert (Hmin : (emin <= Qlog2 x + 1)%Z) by (unfold ulp_exp in Hgt; lia).
    rewrite Z.max_l in Hup by lia. rewrite Hlog in Hlo.
    assert (Habs : Qabs (rnd x) == 2 ^ (Qlog2 x + 1)) by lra.
    assert (Hl : Qlog2 (rnd x) = (Qlog2 x + 1)%Z) by exact Hlog.
    destruct (Qlt_le_dec (rnd x) 0) as [Hneg|Hpos].
    + apply (round_exact prec emin (rnd x) (-1) (Qlog2 x + 1)).
      * unfold ulp_exp. rewrite Hl. lia.
      * rewrite (Qabs_neg (rnd x)) in Habs by lra.
        change (inject_Z (-1)) with (-1). pose proof (pow2_pos (Qlog2 x + 1)). lra.
    + apply (round_exact prec emin (rnd x) 1 (Qlog2 x + 1)).
      * unfold ulp_exp. rewrite Hl. lia.
      * rewrite (Qabs_pos (rnd x)) in Habs by exact Hpos.
        change (inject_Z 1) with 1. lra.
Qed.

End Idem.

Lemma is_float32_zero : is_float32 0.
Proof. split; vm_compute; reflexivity. Qed.

(** What is stored into a [Float32Array] is a binary32 number, as long as
    it does not overflow. *)
Lemma fround_is_float32 y : Qabs (fround y) < 2 ^ 128 -> is_float32 (fround y).
Proof.
  intros H. split; [|exact H]. unfold fround. apply round_idem. lia.
Qed.

Lemma gateSample_float32 x : is_float32 x -> is_float32 (gateSample x).
Proof.
  intros [Hx Hb]. destruct (Qlt_le_dec (Qabs x) noiseThreshold) as [H|H].
  - rewrite (gateSample_below x H). apply fround_is_float32.
    rewrite <- (gateSample_below x H).
    eapply Qle_lt_trans; [apply gateSample_le, Hx | exact Hb].
  - rewrite (gateSample_above x H). split; assumption.
Qed.

(** The gate keeps the channel a [Float32Array]. *)
Lemma step3_float32 buffer :
  float32_array (getChannelData buffer 0) ->
  float32_array (getChannelData (step3_noiseReduction buffer) 0).
Proof.
  intros H. unfold step3_noiseReduction, setChannelData0, getChannelData at 1.
  cbn [channels nth]. unfold float32_array in *. rewrite Forall_forall in *.
  intros y Hy. apply in_map_iff in Hy. destruct Hy as (x & <- & Hx).
  apply gateSample_float32, H, Hx.
Qed.

Lemma slice_incl (data : list Q) from to x : In x (slice data from to) -> In x data.
Proof.
  unfold slice. intros H.
  rewrite <- (firstn_skipn from data). apply in_or_app. right.
  rewrite <- (firstn_skipn (to - from) (skipn from data)). apply in_or_app. left. exact H.
Qed.

Lemma slice_float32 data from to :
  float32_array data -> float32_array (slice data from to).
Proof.
  unfold float32_array. rewrite !Forall_forall. intros H x Hx.
  apply H. eapply slice_incl. exact Hx.
Qed.

Lemma repeat_float32 k : float32_array (repeat 0 k).
Proof.
  unfold float32_array. rewrite Forall_forall. intros x Hx.
  apply repeat_spec in Hx. subst. apply is_float32_zero.
Qed.

(** So does the removal of silence. *)
Lemma step2_float32 buffer :
  float32_array (getChannelData buffer 0) ->
  exists out, step2_removeSilence buffer = inr out /\ float32_array (getChannelData out 0).
Proof.
  intros H. rewrite step2_removeSilence_eq. eexists. split; [reflexivity|].
  unfold getChannelData at 1. cbn [channels nth].
  destruct (detectSound _ _) as [|iv rest].
  - constructor; [apply is_float32_zero | constructor].
  - generalize (iv :: rest). intros intervals.
    induction intervals as [|iv' rest' IH]; simpl; [constructor|].
    unfold float32_array. apply Forall_app. split; [|exact IH].
    unfold piece. rewrite !Forall_app. repeat split.
    + apply repeat_float32.
    + apply slice_float32, H.
    + apply repeat_float32.
Qed.

(** And the normalizer. *)
Lemma step4_float32 buffer :
  float32_array (getChannelData buffer 0) ->
  float32_array (getChannelData (step4_normalizeVolume buffer) 0).
Proof.
  intros Hf. unfold step4_normalizeVolume.
  set (max := peak (getChannelData buffer 0)).
  destruct (Qltb negligibleFloor max) eqn:E; [|exact Hf].
  apply Qltb_lt in E.
  assert (Hmax : 0 < max).
  { assert (0 < negligibleFloor) by (vm_compute; reflexivity). lra. }
  set (gain := fround (dround (targetPeak / max))).
  assert (Hg : 0 <= gain).
  { apply round_nonneg, round_nonneg. apply Qle_shift_div_l; [exact Hmax|].
    rewrite Qmult_0_l. vm_compute. discriminate. }
  pose proof (normalized_peak_close max E (peak_float32 _ Hf)) as Hclose.
  fold gain in Hclose. apply Qabs_Qle_condition in Hclose.
  unfold renderGain, getChannelData at 1. cbn [channels nth]. fold max. fold gain.
  unfold float32_array. rewrite Forall_forall. intros y Hy.
  apply in_map_iff in Hy. destruct Hy as (x & <- & Hx).
  apply fround_is_float32.
  assert (Hxm : Qabs x <= max).
  { unfold max, peak. clear - Hx. revert Hx. generalize 0.
    induction (getChannelData buffer 0) as [|a rest IH]; intros acc Hin; [destruct Hin|].
    simpl. destruct Hin as [->|Hin].
    - eapply Qle_trans; [apply Q.le_max_r | apply peak_from_ge].
    - apply IH, Hin. }
  unfold fround. rewrite round_abs.
  apply Qle_lt_trans with (round_ne 24 (-149) (max * gain)).
  - apply round_mono; [lia|]. rewrite Qabs_Qmult, (Qabs_pos gain) by exact Hg.
    apply Qmult_le_compat_r; assumption.
  - fold fround. apply Qle_lt_trans with 1; [lra | reflexivity].
Qed.

(** X17: every stage receives and returns a [Float32Array]: when the decoded
    channel and whatever the resampling renders hold binary32 numbers, so
    does the channel that is encoded. The hypothesis of the statements
    about the gate and the normalizer holds wherever processAudio runs
    them. *)
Theorem runStages_float32 pf options buffer tr final :
  float32_array (getChannelData buffer 0) ->
  (forall length rendered,
     startRendering pf length targetSampleRate buffer = inr rendered ->
     float32_array rendered) ->
  runStages pf options buffer = (tr, inr final) ->
  float32_array (getChannelData final 0).
Proof.
  intros Hbuf Hrender E.
  destruct (runStages_returned pf options buffer tr final E)
    as (_ & resampled & trimmed & Hr & Ht & _ & _ & Hfin).
  cbv zeta in Hfin.
  assert (H1 : float32_array (getChannelData resampled 0)).
  { destruct (isStandardFormat buffer).
    - rewrite Hr. exact Hbuf.
    - destruct Hr as (rendered & Er & ->). apply (Hrender _ _ Er). }
  assert (H2 : float32_array (getChannelData trimmed 0)).
  { destruct (removeSilence options).
    - destruct (step2_float32 resampled H1) as (out & Eo & Ho). congruence.
    - rewrite Ht. exact H1. }
  rewrite Hfin.
  destruct (noiseReduction options), (normalizeVolume options);
    auto using step3_float32, step4_float32.
Qed.

(** X17, witness: the three stereo frames, resampled, gated
    and normalized. *)
Lemma runStages_float32_witness :
  let options := {| convertToMono16kHz := false; noiseReduction := true;
                    normalizeVolume := true; removeSilence := false |} in
  float32_array
    (getChannelData
       (match snd (runStages testPlatform options stereoBuffer) with
        | inr final => final
        | inl _ => stereoBuffer
        end) 0).
Proof.
  intros options.
  apply (runStages_float32 testPlatform options stereoBuffer
           (fst (runStages testPlatform options stereoBuffer))).
  - repeat constructor; vm_compute; reflexivity.
  - intros length rendered E. unfold testPlatform, startRendering, testRender in E.
    destruct (length <=? 0)%Z; [discriminate|]. injection E as <-.
    apply Forall_forall. intros y Hy. apply in_map_iff in Hy. destruct Hy as (k & <- & _).
    assert (Hm : forall i, mixFrame stereoBuffer i = (1 # 2) \/ mixFrame stereoBuffer i = 0 \/
                           mixFrame stereoBuffer i = - (1 # 2)).
    { intros [|[|[|[|i]]]]; vm_compute; auto. }
    cbv beta.
    destruct (Hm (Z.to_nat (Z.of_nat k * 44100 / targetSampleRate)))
      as [E|[E|E]]; rewrite E; split; vm_compute; reflexivity.
  - vm_compute. reflexivity.
Defined.

(** * More on the orchestration *)

(** X18: when the resampling render fails the call stops there: no later stage
    runs and nothing is encoded. An exception that is an Error instance
    reaches the caller as it is, any other value as the Error with the
    general message. *)
Theorem render_failure_aborts pf file options buffer f :
  decodeAudioData pf (contents file) = inr buffer ->
  needsProcessing options = true ->
  isStandardFormat buffer = false ->
  startRendering pf (ToUint32 (dround (duration buffer * inject_Z targetSampleRate)))
                 targetSampleRate buffer = inl f ->
  processAudio pf file options =
  ([DecodeAudio; ResampleRender],
   inl (match f with
        | PlatformError _ => Thrown f
        | NonError => Error unexpectedMessage
        end)).
Proof.
  intros Hd Hn Hs Hr. rewrite (processAudio_decoded pf file options buffer Hd), Hn.
  unfold runStages, step1_resample. rewrite Hs. cbn [negb].
  unfold bind, tell, await, throw, ret. rewrite Hr. cbn [app].
  destruct f; reflexivity.
Qed.

(** X18, witness: a file of one frame at 44.1 kHz asks
    for a context of zero frames, which the platform refuses. *)
Lemma render_failure_aborts_witness :
  processAudio testPlatform shortFile onlyNoiseReduction =
  ([DecodeAudio; ResampleRender], inl (Thrown (PlatformError "NotSupportedError"))).
Proof.
  apply (render_failure_aborts testPlatform shortFile onlyNoiseReduction
           {| sampleRate := 44100; channels := [[1 # 2]; [1 # 2]] |}
           (PlatformError "NotSupportedError")).
  - vm_compute. reflexivity.
  - reflexivity.
  - reflexivity.
  - vm_compute. reflexivity.
Defined.

(** X19: whatever goes wrong, the caller gets an Error instance: the decode
    error, the general error, or an exception of the browser that is
    itself an Error. A value that is no Error never leaves processAudio. *)
Theorem processAudio_rejects_with_Error pf file options e :
  snd (processAudio pf file options) = inl e ->
  instanceofError e = true /\
  (e = Error decodeFailedMessage \/ e = Error unexpectedMessage \/
   exists errorName, e = Thrown (PlatformError errorName)).
Proof.
  destruct (decodeAudioData pf (contents file)) as [f|buffer] eqn:Hd.
  - rewrite (processAudio_decode_failed pf file options f Hd). cbn [snd].
    intros E. injection E as <-. split; [reflexivity | left; reflexivity].
  - rewrite (processAudio_decoded pf file options buffer Hd).
    destruct (needsProcessing options); [|discriminate].
    destruct (runStages_cases pf options buffer) as [(tr & f & E & _)|(final & _ & E)];
      rewrite E; cbn [snd]; [|discriminate].
    intros H. injection H as <-. destruct f as [errorName|]; cbn [instanceofError].
    + split; [reflexivity|]. right. right. exists errorName. reflexivity.
    + split; [reflexivity|]. right. left. reflexivity.
Qed.

(** X19, witness: the file the decoder rejects. *)
Lemma processAudio_rejects_with_Error_witness :
  instanceofError (Error decodeFailedMessage) = true /\
  (Error decodeFailedMessage = Error decodeFailedMessage \/
   Error decodeFailedMessage = Error unexpectedMessage \/
   exists errorName, Error decodeFailedMessage = Thrown (PlatformError errorName)).
Proof.
  apply (processAudio_rejects_with_Error testPlatform corruptFile allOff).
  vm_compute. reflexivity.
Defined.

(** X20: the call returns a file exactly when the decoding succeeds and,
    some option being set, no rendering it awaits is rejected: that of the
    resampling, needed unless the buffer is already mono at 16 kHz, and
    that of the normalizer, started when normalizeVolume is set and the
    peak is above the floor.  The removal of silence, the gate and the
    encoder never make it fail. *)
Theorem processAudio_returns_iff pf file options :
  (exists out, snd (processAudio pf file options) = inr out) <->
  (exists buffer, decodeAudioData pf (contents file) = inr buffer /\
     (needsProcessing options = false \/
      exists resampled,
        (if isStandardFormat buffer then resampled = buffer
         else exists rendered,
             startRendering pf
               (ToUint32 (dround (duration buffer * inject_Z targetSampleRate)))
               targetSampleRate buffer = inr rendered /\
             resampled = {| sampleRate := 16000; channels := [rendered] |}) /\
        let trimmed :=
          if removeSilence options
          then match step2_removeSilence resampled with
               | inr kept => kept
               | inl _ => resampled
               end
          else resampled in
        let gated :=
          if noiseReduction options then step3_noiseReduction trimmed else trimmed in
        (normalizeVolume options = true -> normalizeRendering pf gated = None))).
Proof.
  destruct (decodeAudioData pf (contents file)) as [f|buffer] eqn:Hd.
  - rewrite (processAudio_decode_failed pf file options f Hd). cbn [snd].
    split; [intros [out H]; discriminate | intros (buffer & H & _); discriminate].
  - rewrite (processAudio_decoded pf file options buffer Hd).
    destruct (needsProcessing options) eqn:En.
    + destruct (runStages pf options buffer) as [tr [e|final]] eqn:E; cbn [snd].
      * split; [intros [out H]; discriminate|].
        intros (b & Hb & [H|(resampled & Hr & Hn)]); injection Hb as <-; [discriminate|].
        exfalso. cbv zeta in Hn.
        destruct (runStages_inv pf options buffer)
          as [(Hs & f & Ef & _)|(resampled' & trimmed & Hr' & Ht & _ & E')].
        -- rewrite Hs in Hr. destruct Hr as (rendered & Er & _).
           rewrite Er in Ef. discriminate.
        -- assert (resampled' = resampled) as ->.
           { destruct (isStandardFormat buffer); [congruence|].
             destruct Hr as (r1 & E1 & ->). destruct Hr' as (r2 & E2 & ->).
             rewrite E1 in E2. injection E2 as ->. reflexivity. }
           cbv zeta in E'. rewrite E in E'. injection E' as _ E'.
           destruct (removeSilence options); [rewrite Ht in Hn | subst trimmed];
             destruct (normalizeVolume options); try discriminate;
             rewrite (Hn eq_refl) in E'; discriminate.
      * split; [|intros _; eexists; reflexivity].
        intros _. exists buffer. split; [reflexivity|]. right.
        destruct (runStages_returned pf options buffer tr final E)
          as (_ & resampled & trimmed & Hr & Ht & Hn & _).
        exists resampled. split; [exact Hr|]. cbv zeta in Hn |- *.
        destruct (removeSilence options); [rewrite Ht | subst trimmed]; exact Hn.
    + cbn [snd]. split; [|intros _; eexists; reflexivity].
      intros _. exists buffer. split; [reflexivity | left; reflexivity].
Qed.

(** * The length asked of the resampling context *)

Lemma Qtrunc_floor_bounds q : 0 <= q -> q - 1 < inject_Z (Qtrunc q) <= q.
Proof.
  intros H. rewrite (Qtrunc_nonneg q H). split.
  - pose proof (Qlt_floor q) as Hf. rewrite inject_Z_plus in Hf.
    change (inject_Z 1) with 1 in Hf. lra.
  - apply Qfloor_le.
Qed.

(** X21: the context of the resampling is asked for the number of frames the
    buffer has at 16 kHz, rounded down, give or take the rounding of the
    two double operations: never more than one frame off. *)
Theorem resample_length_close buffer :
  (0 < sampleRate buffer)%Z ->
  let exact := inject_Z (Z.of_nat (buffer_length buffer)) * 16000
               / inject_Z (sampleRate buffer) in
  exact < 2 ^ 31 ->
  let requested := ToUint32 (dround (duration buffer * inject_Z targetSampleRate)) in
  exact - 1 - (1 # 500000) < inject_Z requested <= exact + (1 # 500000).
Proof.
  intros Hr exact Hx requested.
  set (n := inject_Z (Z.of_nat (buffer_length buffer))) in *.
  set (r := inject_Z (sampleRate buffer)) in *.
  assert (Hn : 0 <= n) by (unfold n; rewrite <- (Zle_Qle 0); lia).
  assert (Hr' : 0 < r) by (unfold r; rewrite <- (Zlt_Qlt 0); exact Hr).
  set (a := n / r).
  assert (Ha : 0 <= a) by (apply Qle_shift_div_l; [exact Hr' | lra]).
  assert (Ea : exact == a * 16000).
  { unfold exact, a. field. intro C. rewrite C in Hr'. discriminate. }
  assert (P31 : 2 ^ 31 == 2147483648) by reflexivity.
  assert (Hb : a <= 134218) by lra.
  (* the division *)
  assert (E1 : Qabs a * 2 ^ (- (53)) + 2 ^ (-1074 - 1) <= 1 # 60000000000).
  { rewrite (Qabs_pos a Ha).
    assert (T : 2 ^ (-1074 - 1) <= 1 # 1000000000000000) by (vm_compute; discriminate).
    assert (S : 2 ^ (- (53)) == 1 # 9007199254740992) by reflexivity.
    rewrite S. lra. }
  pose proof (round_bounds 53 (-1074) a _ E1) as [D1 D2].
  fold dround in D1, D2. change (dround a) with (duration buffer) in D1, D2.
  assert (Hd : 0 <= duration buffer) by (apply round_nonneg, Ha).
  (* the multiplication *)
  set (p0 := duration buffer * inject_Z targetSampleRate).
  assert (Ep : p0 == duration buffer * 16000) by reflexivity.
  assert (Hp0 : 0 <= p0) by lra.
  assert (E2 : Qabs p0 * 2 ^ (- (53)) + 2 ^ (-1074 - 1) <= 1 # 2000000).
  { rewrite (Qabs_pos p0 Hp0).
    assert (T : 2 ^ (-1074 - 1) <= 1 # 1000000000000000) by (vm_compute; discriminate).
    assert (S : 2 ^ (- (53)) == 1 # 9007199254740992) by reflexivity.
    rewrite S. lra. }
  pose proof (round_bounds 53 (-1074) p0 _ E2) as [M1 M2].
  fold dround in M1, M2.
  assert (Hp : 0 <= dround p0) by (apply round_nonneg, Hp0).
  (* the conversion to unsigned long *)
  destruct (Qtrunc_floor_bounds (dround p0) Hp) as [T1 T2].
  assert (Hz : (0 <= Qtrunc (dround p0) < 2 ^ 32)%Z).
  { split.
    - rewrite (Qtrunc_nonneg _ Hp). change 0%Z with (Qfloor 0). apply Qfloor_resp_le, Hp.
    - rewrite Zlt_Qlt. change (inject_Z (2 ^ 32)) with 4294967296. lra. }
  unfold requested, ToUint32. fold p0. rewrite Z.mod_small by exact Hz.
  split; lra.
Qed.

(** X21, witness: three frames at 44.1 kHz make one
    frame at 16 kHz. *)
Lemma resample_length_close_witness :
  let exact := inject_Z (Z.of_nat (buffer_length stereoBuffer)) * 16000
               / inject_Z (sampleRate stereoBuffer) in
  let requested := ToUint32 (dround (duration stereoBuffer * inject_Z targetSampleRate)) in
  exact - 1 - (1 # 500000) < inject_Z requested <= exact + (1 # 500000).
Proof.
  intros exact. apply (resample_length_close stereoBuffer).
  - reflexivity.
  - vm_compute. reflexivity.
Defined.

(** ** The name of the processed file *)

Lemma lastIndexOfFrom_app c s1 : forall s2 i found,
  lastIndexOfFrom c (s1 ++ s2) i found
  = lastIndexOfFrom c s2 (i + Z.of_nat (String.length s1)) (lastIndexOfFrom c s1 i found).
Proof.
  induction s1 as [|a s1 IH]; intros s2 i found; cbn [String.append String.length lastIndexOfFrom].
  - f_equal. lia.
  - rewrite IH. f_equal. lia.
Qed.

(** The result is the fallback or counts from the first index, whatever
    the two are. *)
Lemma lastIndexOfFrom_shift c s : forall i found j found',
  (lastIndexOfFrom c s i found = found /\ lastIndexOfFrom c s j found' = found') \/
  (exists k, (0 <= k)%Z /\ lastIndexOfFrom c s i found = (i + k)%Z /\
             lastIndexOfFrom c s j found' = (j + k)%Z).
Proof.
  induction s as [|a s IH]; intros i found j found'; cbn [lastIndexOfFrom].
  - left. split; reflexivity.
  - destruct (Ascii.eqb a c).
    + right. destruct (IH (i + 1)%Z i (j + 1)%Z j) as [[H1 H2]|(k & Hk & H1 & H2)].
      * exists 0%Z. rewrite H1, H2. lia.
      * exists (k + 1)%Z. rewrite H1, H2. lia.
    + destruct (IH (i + 1)%Z found (j + 1)%Z found') as [[H1 H2]|(k & Hk & H1 & H2)].
      * left. split; assumption.
      * right. exists (k + 1)%Z. rewrite H1, H2. lia.
Qed.

Lemma lastIndexOfFrom_absent c s j found' :
  lastIndexOf c s = (-1)%Z -> lastIndexOfFrom c s j found' = found'.
Proof.
  unfold lastIndexOf. intros H.
  destruct (lastIndexOfFrom_shift c s 0 (-1) j found') as [[_ H2]|(k & Hk & H1 & _)];
    [exact H2 | lia].
Qed.

Lemma lastIndexOf_last c stem ext :
  lastIndexOf c ext = (-1)%Z ->
  lastIndexOf c (stem ++ String c ext) = Z.of_nat (String.length stem).
Proof.
  intros H. unfold lastIndexOf. rewrite lastIndexOfFrom_app. cbn [lastIndexOfFrom].
  rewrite Ascii.eqb_refl. rewrite (lastIndexOfFrom_absent c ext _ _ H). lia.
Qed.

Lemma substring_prefix s1 s2 : substring 0 (String.length s1) (s1 ++ s2) = s1.
Proof.
  induction s1 as [|a s1 IH]; cbn [String.append String.length substring].
  - destruct s2; reflexivity.
  - rewrite IH. reflexivity.
Qed.

Lemma substring_nothing s : substring 0 0 s = EmptyString.
Proof. destruct s; reflexivity. Qed.

(** X22: the processed file is named after the original: the part before the
    last dot, followed by "_processed.wav". A name without a dot, and a
    name whose only dot comes first, are kept whole. *)
Theorem processedFileName_extension ext :
  lastIndexOf "." ext = (-1)%Z ->
  processedFileName ext = (ext ++ "_processed.wav")%string /\
  processedFileName ("." ++ ext) = ("." ++ ext ++ "_processed.wav")%string /\
  forall a stem,
    processedFileName (String a stem ++ "." ++ ext)
    = (String a stem ++ "_processed.wav")%string.
Proof.
  intros H. refine (conj _ (conj _ _)).
  - unfold processedFileName. rewrite H. cbn [Z.to_nat]. rewrite substring_nothing.
    reflexivity.
  - unfold processedFileName.
    change ("." ++ ext)%string with (EmptyString ++ String "." ext)%string.
    rewrite (lastIndexOf_last "." EmptyString ext H). cbn [String.length Z.of_nat Z.to_nat].
    rewrite substring_nothing. reflexivity.
  - intros a stem. unfold processedFileName.
    change ("." ++ ext)%string with (String "." ext).
    rewrite (lastIndexOf_last "." (String a stem) ext H), Nat2Z.id.
    rewrite substring_prefix. reflexivity.
Qed.

(** X22, witness: the extension mp3. *)
Lemma processedFileName_extension_witness :
  processedFileName "mp3" = "mp3_processed.wav"%string /\
  processedFileName ("." ++ "mp3") = ("." ++ "mp3" ++ "_processed.wav")%string /\
  forall a stem,
    processedFileName (String a stem ++ "." ++ "mp3")
    = (String a stem ++ "_processed.wav")%string.
Proof.
  apply (processedFileName_extension "mp3"). reflexivity.
Defined.

(** * The caller *)

Lemma isAnyOptionEnabled_needsProcessing options :
  isAnyOptionEnabled options = needsProcessing options.
Proof.
  unfold isAnyOptionEnabled, needsProcessing, Object_values.
  destruct (convertToMono16kHz options), (noiseReduction options),
    (normalizeVolume options), (removeSilence options); reflexivity.
Qed.

(** X23: unless the user cancels, the handler always has a file to transcribe:
    the processed file when processAudio returns one, and the original
    file when no option is set or when processAudio fails in any way. *)
Theorem fileToProcess_falls_back pf cancelRequest file processingOptions :
  beforeProcessing cancelRequest = false ->
  afterProcessing cancelRequest = false ->
  exists chosen,
    snd (fileToProcess pf cancelRequest file processingOptions) = Some chosen /\
    (needsProcessing processingOptions = false -> chosen = file) /\
    (forall e, snd (processAudio pf file processingOptions) = inl e -> chosen = file) /\
    (needsProcessing processingOptions = true ->
     forall processed, snd (processAudio pf file processingOptions) = inr processed ->
       chosen = processed).
Proof.
  intros Hb Ha. unfold fileToProcess.
  rewrite isAnyOptionEnabled_needsProcessing, Hb, Ha.
  destruct (needsProcessing processingOptions).
  - destruct (processAudio pf file processingOptions) as [tr [e|processed]]; cbn [snd].
    + exists file. repeat split; try discriminate; reflexivity.
    + exists processed. repeat split; try discriminate.
      intros _ p E. injection E as <-. reflexivity.
  - exists file. repeat split; try discriminate; reflexivity.
Qed.

(** X23, witness: the file the decoder rejects, with
    the noise gate selected. *)
Lemma fileToProcess_falls_back_witness :
  let cancelRequest := {| beforeProcessing := false; afterProcessing := false |} in
  exists chosen,
    snd (fileToProcess testPlatform cancelRequest corruptFile onlyNoiseReduction)
    = Some chosen /\
    (needsProcessing onlyNoiseReduction = false -> chosen = corruptFile) /\
    (forall e, snd (processAudio testPlatform corruptFile onlyNoiseReduction) = inl e ->
       chosen = corruptFile) /\
    (needsProcessing onlyNoiseReduction = true ->
     forall processed,
       snd (processAudio testPlatform corruptFile onlyNoiseReduction) = inr processed ->
       chosen = processed).
Proof.
  intros cancelRequest.
  apply (fileToProcess_falls_back testPlatform cancelRequest corruptFile onlyNoiseReduction);
    reflexivity.
Defined.

(** X24: with no option set the handler does not call processAudio at all:
    nothing is decoded, and a file the browser cannot decode is passed on
    like any other. Whenever it does call processAudio some option is set,
    so the file it takes from it is a WAV file under the processed name,
    never the original returned by the shortcut of processAudio. *)
Theorem fileToProcess_skips_processAudio pf cancelRequest file processingOptions :
  (needsProcessing processingOptions = false ->
   fileToProcess pf cancelRequest file processingOptions = ([], Some file)) /\
  (In DecodeAudio (fst (fileToProcess pf cancelRequest file processingOptions)) ->
   needsProcessing processingOptions = true) /\
  (forall chosen,
     snd (fileToProcess pf cancelRequest file processingOptions) = Some chosen ->
     chosen = file \/
     (type chosen = "audio/wav"%string /\ name chosen = processedFileName (name file))).
Proof.
  unfold fileToProcess. rewrite isAnyOptionEnabled_needsProcessing.
  destruct (needsProcessing processingOptions) eqn:En.
  - refine (conj _ (conj _ _)); [discriminate | reflexivity |].
    intros chosen. destruct (beforeProcessing cancelRequest); [discriminate|].
    destruct (decodeAudioData pf (contents file)) as [f|buffer] eqn:Hd.
    + rewrite (processAudio_decode_failed pf file processingOptions f Hd).
      destruct (afterProcessing cancelRequest); [discriminate|].
      cbn [snd]. intros E. injection E as <-. left. reflexivity.
    + rewrite (processAudio_decoded pf file processingOptions buffer Hd), En.
      destruct (runStages pf processingOptions buffer) as [tr [e|final]];
        destruct (afterProcessing cancelRequest); cbn [snd]; try discriminate;
        intros E; injection E as <-; [left; reflexivity | right; split; reflexivity].
  - refine (conj _ (conj _ _)).
    + reflexivity.
    + intros [].
    + cbn [snd]. intros chosen E. injection E as <-. left. reflexivity.
Qed.

(** X25: when the rendering of the normalizer is rejected the call fails
    once the stages before it have run, and nothing is encoded. An
    exception that is an Error instance reaches the caller as it is, any
    other value as the Error with the general message. *)
Theorem normalize_failure_aborts pf file options buffer resampled trimmed f :
  decodeAudioData pf (contents file) = inr buffer ->
  normalizeVolume options = true ->
  (if isStandardFormat buffer then resampled = buffer
   else exists rendered,
       startRendering pf (ToUint32 (dround (duration buffer * inject_Z targetSampleRate)))
                      targetSampleRate buffer = inr rendered /\
       resampled = {| sampleRate := 16000; channels := [rendered] |}) ->
  (if removeSilence options then step2_removeSilence resampled = inr trimmed
   else trimmed = resampled) ->
  normalizeRendering pf
    (if noiseReduction options then step3_noiseReduction trimmed else trimmed) = Some f ->
  processAudio pf file options =
  (DecodeAudio :: stageTrace options buffer,
   inl (match f with
        | PlatformError _ => Thrown f
        | NonError => Error unexpectedMessage
        end)).
Proof.
  intros Hd Hv Hr Ht Hn.
  assert (En : needsProcessing options = true).
  { unfold needsProcessing, Object_values. cbn [existsb]. rewrite Hv.
    destruct (convertToMono16kHz options), (noiseReduction options); reflexivity. }
  rewrite (processAudio_decoded pf file options buffer Hd), En.
  destruct (runStages_inv pf options buffer)
    as [(Hs & f' & Ef & _)|(resampled' & trimmed' & Hr' & Ht' & _ & E)].
  - exfalso. rewrite Hs in Hr. destruct Hr as (rendered & Er & _).
    rewrite Er in Ef. discriminate.
  - assert (resampled' = resampled) as ->.
    { destruct (isStandardFormat buffer); [congruence|].
      destruct Hr as (r1 & E1 & ->). destruct Hr' as (r2 & E2 & ->).
      rewrite E1 in E2. injection E2 as ->. reflexivity. }
    assert (trimmed' = trimmed) as ->.
    { destruct (removeSilence options); [|congruence].
      rewrite Ht in Ht'. injection Ht' as ->. reflexivity. }
    cbv zeta in E. rewrite E, Hv, Hn. destruct f; reflexivity.
Qed.

(** X25, witness: a mono 16 kHz file, on a browser that rejects the
    rendering of the normalizer. *)
Lemma normalize_failure_aborts_witness :
  processAudio gainlessPlatform monoFile onlyNormalizeVolume =
  (DecodeAudio :: stageTrace onlyNormalizeVolume
                    {| sampleRate := 16000; channels := [[1 # 2]] |},
   inl (Error unexpectedMessage)).
Proof.
  apply (normalize_failure_aborts gainlessPlatform monoFile onlyNormalizeVolume
           {| sampleRate := 16000; channels := [[1 # 2]] |}
           {| sampleRate := 16000; channels := [[1 # 2]] |}
           {| sampleRate := 16000; channels := [[1 # 2]] |}
           NonError).
  - vm_compute. reflexivity.
  - reflexivity.
  - reflexivity.
  - reflexivity.
  - vm_compute. reflexivity.
Defined.
